(** * parserbot: field extractors, record assembler, ingestion cycle and
      per-subscriber notification loop

    A shallow embedding of [parser.py] and [bot.py].  Python values are
    modelled as follows.

    - [str] is a list of Unicode code points ([N]); literals are written
      as UTF-8 text and decoded by [u].
    - [int] is [Z]; a [datetime] is the instant it denotes, in
      microseconds ([Z]).  A naive [datetime] is read as UTC wall-clock
      time, which is what the code itself does when it attaches [UTC] to
      one, so that step is the identity on instants.
    - [float] values produced by [float(text)] are represented by the
      rational the text denotes; the IEEE value is its rounding.
    - a raised exception is a [Raise e] result; [try]/[except] is
      [try_except].
    - [print] calls are not modelled.

    The runtime is CPython 3.11 or later ([bot.py] imports
    [datetime.UTC]), with its default limit on the digits of an integer
    read from text. *)

From Stdlib Require Import ZArith NArith QArith Lia List Bool String Ascii.
From Stdlib Require Import DecimalString.
From stdpp Require Import base option list gmap strings.

Local Open Scope N_scope.

(** ** The Python runtime *)

Module Py.

Definition char := N.
Definition str := list char.

(** *** Literals *)

Fixpoint utf8_decode (bs : list N) : str :=
  match bs with
  | [] => []
  | b :: r =>
    if b <? 128 then b :: utf8_decode r
    else if b <? 224 then
      match r with
      | b1 :: r1 => ((b - 192) * 64 + (b1 - 128)) :: utf8_decode r1
      | _ => []
      end
    else if b <? 240 then
      match r with
      | b1 :: b2 :: r2 =>
        ((b - 224) * 4096 + (b1 - 128) * 64 + (b2 - 128)) :: utf8_decode r2
      | _ => []
      end
    else
      match r with
      | b1 :: b2 :: b3 :: r3 =>
        ((b - 240) * 262144 + (b1 - 128) * 4096 + (b2 - 128) * 64 + (b3 - 128))
          :: utf8_decode r3
      | _ => []
      end
  end.

Definition bytes_of (s : string) : list N :=
  List.map N_of_ascii (list_ascii_of_string s).

(** [u "text"] is the [str] whose UTF-8 encoding is the literal. *)
Definition u (s : string) : str := utf8_decode (bytes_of s).

(** *** Exceptions *)

Inductive exn :=
| ValueError | TypeError | AttributeError | KeyError | RuntimeError
| OtherError.

Inductive result (A : Type) :=
| Ok (a : A)
| Raise (e : exn).
Arguments Ok {A} a.
Arguments Raise {A} e.

Global Instance result_ret : MRet result := @Ok.
Global Instance result_bind : MBind result := fun A B k m =>
  match m with
  | Ok a => k a
  | Raise e => Raise e
  end.

(** [try: body / except Exception as e: handler e]. *)
Definition try_except {A} (body : result A) (handler : exn → result A)
  : result A :=
  match body with
  | Ok a => Ok a
  | Raise e => handler e
  end.

(** A [for] loop whose body may raise: the loop stops at the first
    exception. *)
Fixpoint for_each {A S} (body : S → A → result S) (l : list A) (s : S)
  : result S :=
  match l with
  | [] => Ok s
  | a :: l' => s' ← body s a; for_each body l' s'
  end.

(** *** Character classes (Unicode 14, the tables of CPython 3.11) *)

Definition in_ranges (c : char) (tbl : list (N * N)) : bool :=
  existsb (fun r => (fst r <=? c) && (c <=? snd r)) tbl.

(** Characters with [Numeric_Type=Decimal] (category Nd): every range
    is a run of complete 0..9 blocks. *)
Definition decimal_ranges : list (N * N) :=
  [ (48, 57); (1632, 1641); (1776, 1785); (1984, 1993); (2406, 2415);
    (2534, 2543); (2662, 2671); (2790, 2799); (2918, 2927); (3046, 3055);
    (3174, 3183); (3302, 3311); (3430, 3439); (3558, 3567); (3664, 3673);
    (3792, 3801); (3872, 3881); (4160, 4169); (4240, 4249); (6112, 6121);
    (6160, 6169); (6470, 6479); (6608, 6617); (6784, 6793); (6800, 6809);
    (6992, 7001); (7088, 7097); (7232, 7241); (7248, 7257); (42528, 42537);
    (43216, 43225); (43264, 43273); (43472, 43481); (43504, 43513);
    (43600, 43609); (44016, 44025); (65296, 65305); (66720, 66729);
    (68912, 68921); (69734, 69743); (69872, 69881); (69942, 69951);
    (70096, 70105); (70384, 70393); (70736, 70745); (70864, 70873);
    (71248, 71257); (71360, 71369); (71472, 71481); (71904, 71913);
    (72016, 72025); (72784, 72793); (73040, 73049); (73120, 73129);
    (92768, 92777); (92864, 92873); (93008, 93017); (120782, 120831);
    (123200, 123209); (123632, 123641); (125264, 125273); (130032, 130041) ].

(** Characters with [Numeric_Type=Digit] that are not decimal:
    superscripts, subscripts, circled and parenthesised digits, ... *)
Definition digit_only_ranges : list (N * N) :=
  [ (178, 179); (185, 185); (4969, 4977); (6618, 6618); (8304, 8304);
    (8308, 8313); (8320, 8329); (9312, 9320); (9332, 9340); (9352, 9360);
    (9450, 9450); (9461, 9469); (9471, 9471); (10102, 10110);
    (10112, 10120); (10122, 10130); (68160, 68163); (69216, 69224);
    (69714, 69722); (127232, 127242) ].

(** [str.isspace] on one character. *)
Definition space_ranges : list (N * N) :=
  [ (9, 13); (28, 32); (133, 133); (160, 160); (5760, 5760); (8192, 8202);
    (8232, 8233); (8239, 8239); (8287, 8287); (12288, 12288) ].

(** [ch.isdecimal()]; also the class [\d] of [re] on [str] patterns. *)
Definition isdecimal (c : char) : bool := in_ranges c decimal_ranges.

(** [ch.isdigit()]. *)
Definition isdigit (c : char) : bool :=
  isdecimal c || in_ranges c digit_only_ranges.

(** [ch.isspace()]; also the class [\s] of [re] on [str] patterns. *)
Definition isspace (c : char) : bool := in_ranges c space_ranges.

(** The digit that a decimal character denotes. *)
Definition decimal_value (c : char) : Z :=
  match List.find (fun r => (fst r <=? c) && (c <=? snd r)) decimal_ranges with
  | Some r => Z.of_N ((c - fst r) mod 10)
  | None => 0%Z
  end.

(** *** String methods *)

Fixpoint is_prefix (p s : str) : bool :=
  match p, s with
  | [], _ => true
  | a :: p', b :: s' => (a =? b) && is_prefix p' s'
  | _ :: _, [] => false
  end.

(** [s.startswith(p)]. *)
Definition startswith (s p : str) : bool := is_prefix p s.

(** [sub in s]. *)
Fixpoint contains (sub s : str) : bool :=
  is_prefix sub s ||
  match s with
  | [] => false
  | _ :: s' => contains sub s'
  end.

Fixpoint drop_while (p : char → bool) (s : str) : str :=
  match s with
  | [] => []
  | c :: s' => if p c then drop_while p s' else s
  end.

Fixpoint take_while (p : char → bool) (s : str) : str :=
  match s with
  | [] => []
  | c :: s' => if p c then c :: take_while p s' else []
  end.

Definition strip_with (p : char → bool) (s : str) : str :=
  rev (drop_while p (rev (drop_while p s))).

(** [s.strip()]. *)
Definition strip (s : str) : str := strip_with isspace s.

Fixpoint replace_aux (old new : str) (skip : nat) (s : str) : str :=
  match s with
  | [] => []
  | c :: s' =>
    match skip with
    | S k => replace_aux old new k s'
    | O =>
      if is_prefix old s
      then new ++ replace_aux old new (Nat.pred (length old)) s'
      else c :: replace_aux old new O s'
    end
  end.

(** [s.replace(old, new)]: the non-overlapping occurrences of [old],
    found from the left, become [new]. *)
Definition replace (old new s : str) : str :=
  match old with
  | [] => new ++ flat_map (fun c => c :: new) s
  | _ => replace_aux old new O s
  end.

Fixpoint split_aux (sep : str) (skip : nat) (cur : str) (s : str)
  : list str :=
  match s with
  | [] => [rev cur]
  | c :: s' =>
    match skip with
    | S k => split_aux sep k cur s'
    | O =>
      if is_prefix sep s
      then rev cur :: split_aux sep (Nat.pred (length sep)) [] s'
      else split_aux sep O (c :: cur) s'
    end
  end.

(** [s.split(sep)] for a non-empty separator (an empty one raises
    [ValueError] in Python and is not used by the program). *)
Definition split (sep s : str) : list str := split_aux sep O [] s.

Fixpoint split_ws_aux (cur : str) (s : str) : list str :=
  match s with
  | [] => match cur with [] => [] | _ => [rev cur] end
  | c :: s' =>
    if isspace c
    then match cur with
         | [] => split_ws_aux [] s'
         | _ => rev cur :: split_ws_aux [] s'
         end
    else split_ws_aux (c :: cur) s'
  end.

(** [s.split()]: the maximal runs of non-whitespace characters. *)
Definition split_ws (s : str) : list str := split_ws_aux [] s.

(** *** [int(text)] *)

(** [sys.int_info.default_max_str_digits]. *)
Definition int_max_str_digits : nat := 4300.

(** The whitespace [int] strips: every [isspace] character except the
    four separators U+001C..U+001F. *)
Definition int_space (c : char) : bool :=
  isspace c && negb ((28 <=? c) && (c <=? 31)).

(** Digits with single underscores between them; returns the value and
    the number of digits. *)
Fixpoint int_digits (acc : Z) (n : nat) (after_digit : bool) (s : str)
  : option (Z * nat) :=
  match s with
  | [] => if after_digit then Some (acc, n) else None
  | c :: s' =>
    if isdecimal c
    then int_digits (acc * 10 + decimal_value c)%Z (S n) true s'
    else if (c =? 95) && after_digit
    then int_digits acc n false s'
    else None
  end.

(** An optional sign in front of the digits. *)
Definition int_sign (t : str) : bool * str :=
  match t with
  | c :: r =>
    if c =? 43 then (false, r)
    else if c =? 45 then (true, r)
    else (false, t)
  | [] => (false, t)
  end.

(** [int(text)] on a [str]: whitespace around the number is dropped;
    then come an optional sign and decimal digits of any script, with
    single underscores allowed between digits.  Anything else, and a
    number of more than [int_max_str_digits] digits, raises
    [ValueError]. *)
Definition int_of_str (s : str) : result Z :=
  let t := strip_with int_space s in
  match int_digits 0 0 false (snd (int_sign t)) with
  | Some (v, n) =>
    if (int_max_str_digits <? n)%nat then Raise ValueError
    else Ok (if fst (int_sign t) then (- v)%Z else v)
  | None => Raise ValueError
  end.

(** [str(n)] for an [int]. *)
Definition str_of_int (n : Z) : str :=
  bytes_of (NilZero.string_of_int (Z.to_int n)).

Global Arguments u : simpl never.
Global Arguments isdecimal : simpl never.
Global Arguments isdigit : simpl never.
Global Arguments isspace : simpl never.
Global Arguments contains : simpl never.
Global Arguments strip : simpl never.
Global Arguments replace : simpl never.
Global Arguments split : simpl never.
Global Arguments split_ws : simpl never.
Global Arguments int_of_str : simpl never.

End Py.

(** ** Regular expressions: the fragment of [re] the program uses

    Matching is by backtracking; the list returned by [rmatch] holds the
    possible ends of a match in the order in which [re] tries them, so
    its head is the match [re] reports.  No starred expression of the
    program matches the empty string. *)

Module Re.
Import Py.

Inductive regex :=
| Chr (p : char → bool)
| Cat (r1 r2 : regex)
| Star (r : regex)
| Opt (r : regex)
| Group (n : nat) (r : regex).

Definition Plus (r : regex) : regex := Cat r (Star r).

(** The text of each capturing group, latest first. *)
Definition captures := list (nat * str).

(** A greedy repetition of the matcher [m]: one more round first, the
    rounds so far second.  A round has to consume something. *)
Fixpoint star_loop (m : str → captures → list (str * captures))
  (fuel : nat) (s : str) (caps : captures) : list (str * captures) :=
  match fuel with
  | O => [(s, caps)]
  | S f =>
    flat_map (fun x =>
                if (length (fst x) <? length s)%nat
                then star_loop m f (fst x) (snd x) else [])
             (m s caps)
      ++ [(s, caps)]
  end.

Fixpoint rmatch (r : regex) (s : str) (caps : captures)
  : list (str * captures) :=
  match r with
  | Chr p =>
    match s with
    | c :: s' => if p c then [(s', caps)] else []
    | [] => []
    end
  | Cat r1 r2 =>
    flat_map (fun x => rmatch r2 (fst x) (snd x)) (rmatch r1 s caps)
  | Opt r1 => rmatch r1 s caps ++ [(s, caps)]
  | Star r1 => star_loop (rmatch r1) (length s) s caps
  | Group n r1 =>
    List.map (fun x => (fst x, (n, take (length s - length (fst x)) s) :: snd x))
             (rmatch r1 s caps)
  end.

(** [re.search(r, s)]: the first match at the leftmost position that
    has one. *)
Fixpoint search (r : regex) (s : str) : option captures :=
  match rmatch r s [] with
  | x :: _ => Some (snd x)
  | [] =>
    match s with
    | [] => None
    | _ :: s' => search r s'
    end
  end.

(** [m.group(n)]: [None] when the group took no part in the match. *)
Fixpoint group (n : nat) (m : captures) : option str :=
  match m with
  | [] => None
  | (k, t) :: m' => if (k =? n)%nat then Some t else group n m'
  end.

(** Using [m.group(n)] where a [str] is required. *)
Definition group_str (n : nat) (m : captures) (e : exn) : result str :=
  match group n m with
  | Some t => Ok t
  | None => Raise e
  end.

Global Arguments search : simpl never.

End Re.

(** ** Collaborators outside the two files

    The Unicode case mapping behind [str.lower], [urllib]'s [urljoin],
    the configured interval and the functions imported from [db] are
    parameters of the development. *)

Module Ext.
Import Py.

(** [s.lower()]. *)
Class Lower := lower : str → str.

(** [urljoin(base, url)]; it raises [ValueError] on some references. *)
Class UrlJoin := urljoin : str → str → result str.

(** [int(os.getenv("PARSE_INTERVAL", "300"))], in seconds. *)
Class Interval := PARSE_INTERVAL : Z.

(** A Python value stored in a [dict] handed to or returned by [db]. *)
Inductive pyval :=
| VInt (z : Z)
| VStr (s : str).

(** [db.add_apart(row)]: the store after the call, and whether the call
    returned or raised. *)
Class AddApart (DB : Type) :=
  add_apart : gmap string pyval → DB → DB * result unit.

End Ext.

(** ** parser.py *)

Module Parser.
Import Py Re Ext.

(** *** [float(text)] for the texts [split_title] hands to it

    These are decimal digits with an optional fraction (lemma
    [float_of_numeral] below); the model raises [ValueError] on any
    other text. *)

Definition digits_value (s : str) : Z :=
  fold_left (fun acc c => (acc * 10 + decimal_value c)%Z) s 0%Z.

Definition float_of_str (s : str) : result Q :=
  let ip := take_while isdecimal s in
  match ip, drop_while isdecimal s with
  | _ :: _, [] => Ok (inject_Z (digits_value ip))
  | _ :: _, c :: fp =>
    if (c =? 46) && negb (length fp =? 0)%nat && forallb isdecimal fp
    then Ok (Qmake (digits_value (ip ++ fp))
                   (Z.to_pos (10 ^ Z.of_nat (length fp))))
    else Raise ValueError
  | [], _ => Raise ValueError
  end.

(** *** The patterns *)

(** The pattern [( \d [\d\s]* )] (blanks added here for reading). *)
Definition re_number : regex :=
  Group 1 (Cat (Chr isdecimal)
               (Star (Chr (fun c => isdecimal c || isspace c)))).

(** The pattern [( \d+ (?: [.,] \d+ )? ) \s* м²]. *)
Definition re_area : regex :=
  Cat (Group 1 (Cat (Plus (Chr isdecimal))
                    (Opt (Cat (Chr (fun c => (c =? 46) || (c =? 44)))
                              (Plus (Chr isdecimal))))))
      (Cat (Star (Chr isspace))
           (Cat (Chr (N.eqb 1084)) (Chr (N.eqb 178)))).

(** The pattern [( \d+ ) [-\s]* к]. *)
Definition re_rooms : regex :=
  Cat (Group 1 (Plus (Chr isdecimal)))
      (Cat (Star (Chr (fun c => (c =? 45) || isspace c)))
           (Chr (N.eqb 1082))).

(** The pattern [( \d+ ) \s* \/ \s* ( \d+ )]. *)
Definition re_floors : regex :=
  Cat (Group 1 (Plus (Chr isdecimal)))
      (Cat (Star (Chr isspace))
           (Cat (Chr (N.eqb 47))
                (Cat (Star (Chr isspace))
                     (Group 2 (Plus (Chr isdecimal)))))).

Definition only_ValueError {A} (dflt : A) (e : exn) : result A :=
  match e with
  | ValueError => Ok dflt
  | _ => Raise e
  end.

Section extractors.
Context `{!Lower}.

(** *** Field extractors *)

Definition in_digits (s : str) : result bool :=
  try_except (Ok (forallb isdigit s))
    (fun e => match e with
              | TypeError | AttributeError => Raise ValueError
              | _ => Raise e
              end).

Definition refactor_time_to_metro (time_to_metro : str) : result Z :=
  try_except
    (let s := split_ws (replace (u "–") (u " ") time_to_metro) in
     for_each (fun res t =>
                 d ← in_digits t;
                 if d : bool
                 then (tdigit ← int_of_str t;
                       Ok (if (tdigit >? res)%Z then tdigit else res))
                 else Ok res)
              s 0%Z)
    (fun _ => Ok 0%Z).

(** The block that both fields of [split_add] share: search the clause
    for a number, drop its spaces and keep [old] when [int] rejects
    it. *)
Definition amount_or (p : str) (old : Z) : result Z :=
  match search re_number p with
  | Some m =>
    g ← group_str 1 m AttributeError;
    let num := replace (u " ") [] g in
    try_except (int_of_str num) (only_ValueError old)
  | None => Ok old
  end.

Definition split_add_clause (acc : Z * Z) (p0 : str) : result (Z * Z) :=
  let p := replace [160] (u " ") (strip p0) in
  let pl := lower p in
  deposit ←
    (if contains (u "без залога") pl then Ok 0%Z
     else if contains (u "залог") pl then amount_or p (fst acc)
     else Ok (fst acc));
  comission ←
    (if contains (u "без комиссии") pl then Ok 0%Z
     else if contains (u "комис") pl then amount_or p (snd acc)
     else Ok (snd acc));
  Ok (deposit, comission).

Definition split_add (add : str) : result (Z * Z) :=
  try_except
    (for_each split_add_clause (split (u " · ") add) (0%Z, 0%Z))
    (fun _ => Ok (0%Z, 0%Z)).

Definition title_squares (title : str) : result Q :=
  match search re_area title with
  | Some m =>
    g ← group_str 1 m AttributeError;
    let s := replace (u ",") (u ".") g in
    try_except (float_of_str s) (only_ValueError 0%Q)
  | None => Ok 0%Q
  end.

Definition title_rooms (title : str) : result Z :=
  if contains (u "студ") (lower title) then Ok 0%Z
  else
    match search re_rooms title with
    | Some m =>
      try_except (g ← group_str 1 m TypeError; int_of_str g)
                 (only_ValueError 0%Z)
    | None => Ok 0%Z
    end.

Definition title_floors (title : str) : result (Z * Z) :=
  match search re_floors title with
  | Some m =>
    apart_floor ← try_except (g ← group_str 1 m TypeError;
                              a ← int_of_str g; Ok (Some a))
                             (only_ValueError None);
    match apart_floor with
    | None => Ok (0%Z, 0%Z)
    | Some a =>
      house_floor ← try_except (g ← group_str 2 m TypeError; int_of_str g)
                               (only_ValueError 0%Z);
      Ok (a, house_floor)
    end
  | None => Ok (0%Z, 0%Z)
  end.

Definition split_title (title0 : str) : result (Z * Q * Z * Z) :=
  try_except
    (let title :=
       replace [160] (u " ")
         (replace (u "этаж") [] (replace (u "эт.") [] title0)) in
     squares ← title_squares title;
     rooms ← title_rooms title;
     floors ← title_floors title;
     Ok (rooms, squares, fst floors, snd floors))
    (fun _ => Ok (0%Z, 0%Q, 0%Z, 0%Z)).

End extractors.

(** *** Records and listing fragments *)

Record Ad := {
  ad_id : Z;
  ad_title : str;
  ad_link : str;
  ad_price : Z;
  ad_comission : Z;
  ad_squares : Q;
  ad_apart_floor : Z;
  ad_house_floor : Z;
  ad_rooms : Z;
  ad_deposit : Z;
  ad_metro : str;
  ad_time_to_metro : Z
}.

(** One [div[data-marker='item']] as the markup query exposes it; an
    absent element or attribute is [None]. *)
Record item := {
  (** the attribute [data-item-id] *)
  item_id : option str;
  (** the stripped text of [a[data-marker='item-title']] *)
  item_title : option str;
  (** [meta[itemprop='price']] below [p[data-marker='item-price']], and
      its attribute [content] *)
  item_price : option (option str);
  (** the stripped text of [p[data-marker='item-specific-params']] *)
  item_specific_params : option str;
  (** the [p] elements below [div[data-marker='item-location']], each
      with the stripped texts of its [span]s *)
  item_location : list (list str);
  (** the first [a] of the fragment, and its attribute [href] *)
  item_link : option (option str)
}.

(** The [dict] literal handed to [add_apart]. *)
Definition ad_row (ad : Ad) : gmap string pyval :=
  <["id" := VInt (ad_id ad)]>
    (<["title" := VStr (ad_title ad)]>
       (<["link" := VStr (ad_link ad)]>
          (<["price" := VInt (ad_price ad)]>
             (<["rooms" := VInt (ad_rooms ad)]> ∅)))).

Section assembler.
Context `{!Lower, !UrlJoin}.

Definition item_metro (g : item) : result (str * Z) :=
  match item_location g !! 1%nat with
  | Some spans =>
    let metro := default [] (spans !! 1%nat) in
    time_to_metro ←
      match spans !! 2%nat with
      | Some t => refactor_time_to_metro t
      | None => Ok 0%Z
      end;
    Ok (metro, time_to_metro)
  | None => Ok ([], 0%Z)
  end.

Definition item_href (g : item) : result str :=
  let link :=
    match item_link g with
    | Some a => default [] a
    | None => []
    end in
  match link with
  | _ :: _ =>
    if negb (startswith link (u "http"))
    then urljoin (u "https://www.avito.ru") link
    else Ok link
  | [] => Ok link
  end.

(** The body of the [for] loop up to the construction of the [Ad]:
    [Ok None] is the [continue] taken when [int] rejects the id. *)
Definition build_ad (g : item) : result (option Ad) :=
  let id_attr := default [] (item_id g) in
  match int_of_str id_attr with
  | Raise ValueError | Raise TypeError => Ok None
  | Raise e => Raise e
  | Ok int_id =>
    let title := default [] (item_title g) in
    t ← split_title title;
    let '(rooms, squares, apart_floor, house_floor) := t in
    let price_str :=
      match item_price g with
      | Some content => default [] content
      | None => u "0"
      end in
    price ← try_except (int_of_str price_str)
                       (fun e => match e with
                                 | ValueError | TypeError => Ok 0%Z
                                 | _ => Raise e
                                 end);
    let add_text := default [] (item_specific_params g) in
    a ← split_add add_text;
    let '(deposit, comission) := a in
    m ← item_metro g;
    let '(metro, time_to_metro) := m in
    link ← item_href g;
    Ok (Some {| ad_id := int_id; ad_title := title; ad_link := link;
                ad_price := price; ad_comission := comission;
                ad_squares := squares; ad_apart_floor := apart_floor;
                ad_house_floor := house_floor; ad_rooms := rooms;
                ad_deposit := deposit; ad_metro := metro;
                ad_time_to_metro := time_to_metro |})
  end.

End assembler.

(** *** The batch *)

(** What a pass over the fragments leaves behind: the store, the
    counter [added], and every row handed to [add_apart], in order. *)
Record batch (DB : Type) := {
  b_db : DB;
  added : nat;
  passed : list (gmap string pyval)
}.
Arguments b_db {DB} _.
Arguments added {DB} _.
Arguments passed {DB} _.

Section ingestion.
Context `{!Lower, !UrlJoin, !Interval} {DB : Type} `{!AddApart DB}.

(** One turn of the [for] loop: both [except] clauses only log. *)
Definition parse_item (b : batch DB) (g : item) : batch DB :=
  match build_ad g with
  | Ok (Some ad) =>
    let '(db', r) := add_apart (ad_row ad) (b_db b) in
    {| b_db := db';
       added := match r with
                | Ok _ => S (added b)
                | Raise _ => added b
                end;
       passed := passed b ++ [ad_row ad] |}
  | Ok None => b
  | Raise _ => b
  end.

Definition parse_items (items : list item) (db : DB) : batch DB :=
  fold_left parse_item items {| b_db := db; added := O; passed := [] |}.

(** [parse_and_save], from the list of fragments on: an empty list is
    the only way out by exception. *)
Definition parse_and_save (items : list item) (db : DB)
  : batch DB * result unit :=
  match items with
  | [] => ({| b_db := db; added := O; passed := [] |}, Raise ValueError)
  | _ => (parse_items items db, Ok tt)
  end.

(** *** The ingestion cycle *)

Definition max_consecutive_errors : Z := 5.

(** How a run of [parse_loop] over finitely many cycles stands. *)
Inductive loop_state :=
| Stopped (e : exn)
| Idle (consecutive_errors : Z).

(** One cycle is given by what [fetch_html] did: it raised, or it
    returned a page with these fragments. *)
Definition cycle := result (list item).

Definition run_cycle (c : cycle) (db : DB) : DB * result unit :=
  match c with
  | Raise e => (db, Raise e)
  | Ok items =>
    let '(b, r) := parse_and_save items db in (b_db b, r)
  end.

(** [parse_loop] over the given cycles, from the top of the [while]:
    the store, the sleeps taken (in seconds) and the state reached. *)
Fixpoint parse_loop_from (consecutive_errors : Z) (cycles : list cycle)
  (db : DB) : DB * list Z * loop_state :=
  match cycles with
  | [] => (db, [], Idle consecutive_errors)
  | c :: rest =>
    let '(db1, r) := run_cycle c db in
    match r with
    | Ok _ =>
      let '(db2, sleeps, st) := parse_loop_from 0 rest db1 in
      (db2, PARSE_INTERVAL :: sleeps, st)
    | Raise _ =>
      let consecutive_errors := (consecutive_errors + 1)%Z in
      if (consecutive_errors >=? max_consecutive_errors)%Z
      then (db1, [], Stopped RuntimeError)
      else
        let '(db2, sleeps, st) := parse_loop_from consecutive_errors rest db1 in
        (db2, PARSE_INTERVAL :: sleeps, st)
    end
  end.

Definition parse_loop (cycles : list cycle) (db : DB)
  : DB * list Z * loop_state :=
  parse_loop_from 0 cycles db.

End ingestion.

End Parser.

(** ** bot.py *)

Module Bot.
Import Py Ext.

Record UserState := {
  waiting_for_price : bool;
  min_price : option Z;
  max_price : option Z;
  waiting_for_rooms : bool;
  rooms : option (list Z);
  searching : bool;
  since : option Z
}.

(** [UserState()] *)
Definition UserState_new : UserState :=
  {| waiting_for_price := false; min_price := None; max_price := None;
     waiting_for_rooms := false; rooms := None; searching := false;
     since := None |}.

Definition set_waiting (price rooms_ : bool) (st : UserState) : UserState :=
  {| waiting_for_price := price; min_price := min_price st;
     max_price := max_price st; waiting_for_rooms := rooms_;
     rooms := rooms st; searching := searching st; since := since st |}.

Definition set_searching (b : bool) (st : UserState) : UserState :=
  {| waiting_for_price := waiting_for_price st; min_price := min_price st;
     max_price := max_price st; waiting_for_rooms := waiting_for_rooms st;
     rooms := rooms st; searching := b; since := since st |}.

Definition set_since (t : option Z) (st : UserState) : UserState :=
  {| waiting_for_price := waiting_for_price st; min_price := min_price st;
     max_price := max_price st; waiting_for_rooms := waiting_for_rooms st;
     rooms := rooms st; searching := searching st; since := t |}.

(** A row returned by [get_new_aparts], with the keys [search_loop]
    reads (and the id of the listing). *)
Record apart := {
  a_id : Z;
  a_title : str;
  a_link : str;
  a_price : Z;
  a_rooms : Z;
  created_at : Z
}.

(** [db.get_new_aparts(min_price, max_price, rooms, since, limit)] on a
    state of the store. *)
Class GetNewAparts (DB : Type) :=
  get_new_aparts :
    option Z → option Z → option (list Z) → option Z → Z → DB
    → result (list apart).

(** [timedelta(minutes=1)], in microseconds. *)
Definition one_minute : Z := 60000000.

(** The text of one notification. *)
Definition message_text (price rooms_ : Z) (title link : str) : str :=
  u "Цена: " ++ str_of_int price ++ u " ₽" ++ [10] ++
  u "Комнат: " ++ str_of_int rooms_ ++ [10] ++
  title ++ [10] ++
  link.

(** [max(...)] over a non-empty sequence. *)
Definition max_of (x : Z) (l : list Z) : Z := fold_left Z.max l x.

(** A running [search_loop]: whose it is, and whether it has yet to run
    the lines above its [while]. *)
Record task := {
  t_chat : Z;
  t_fresh : bool
}.

(** The registry [user_states], the live [search_loop] tasks, and the
    notifications that [bot.send_message] accepted: chat, row and
    text. *)
Record world := {
  user_states : gmap Z UserState;
  tasks : list task;
  delivered : list (Z * apart * str)
}.

(** [get_state]: the state of the chat, created on first use. *)
Definition get_state (chat_id : Z) (us : gmap Z UserState)
  : UserState * gmap Z UserState :=
  match us !! chat_id with
  | Some st => (st, us)
  | None => (UserState_new, <[chat_id := UserState_new]> us)
  end.

(** The state object is shared: an assignment to one of its attributes
    is an update of the registry entry. *)
Definition update_state (chat_id : Z) (f : UserState → UserState)
  (w : world) : world :=
  let '(st, us) := get_state chat_id (user_states w) in
  {| user_states := <[chat_id := f st]> us;
     tasks := tasks w; delivered := delivered w |}.

Definition state_of (chat_id : Z) (w : world) : UserState :=
  fst (get_state chat_id (user_states w)).

Definition spawn (t : task) (w : world) : world :=
  {| user_states := user_states w; tasks := tasks w ++ [t];
     delivered := delivered w |}.

(** [on_callback].  [now] is the reading of [datetime.now(UTC)];
    [tg_ok] tells whether the Telegram calls of the branch taken
    returned (when one raises, the handler's [except] ends it).  The
    texts of the replies are not modelled. *)
Definition on_callback (chat_id : Z) (data : string) (now : Z)
  (tg_ok : bool) (w : world) : world :=
  let w := update_state chat_id (fun st => st) w in
  let state := state_of chat_id w in
  if String.eqb data "set_price" then
    update_state chat_id (set_waiting true false) w
  else if String.eqb data "set_rooms" then
    update_state chat_id (set_waiting false true) w
  else if String.eqb data "start_search" then
    if searching state then w
    else
      let w := update_state chat_id (set_searching true) w in
      let w := update_state chat_id (set_since (Some (now - one_minute)%Z)) w in
      if tg_ok
      then spawn {| t_chat := chat_id; t_fresh := true |} w
      else w
  else if String.eqb data "stop_search" then
    if negb (searching state) then w
    else update_state chat_id (set_searching false) w
  else w.

Section loop.
Context {DB : Type} `{!GetNewAparts DB}.

(** Lines 328-334 of [search_loop]. *)
Definition search_loop_enter (chat_id : Z) (now : Z) (w : world) : world :=
  let w := update_state chat_id (fun st => st) w in
  match since (state_of chat_id w) with
  | None => update_state chat_id (set_since (Some now)) w
  | Some _ => w
  end.

(** The inner [for]: [ok k] tells whether the [k]-th [send_message] of
    this pass returns; a failed one is only logged. *)
Fixpoint send_all (chat_id : Z) (ok : nat → bool) (k : nat)
  (ads : list apart) : list (Z * apart * str) :=
  match ads with
  | [] => []
  | ad :: rest =>
    let text := message_text (a_price ad) (a_rooms ad) (a_title ad) (a_link ad) in
    (if ok k then [(chat_id, ad, text)] else [])
      ++ send_all chat_id ok (S k) rest
  end.

(** The query of one pass: the subscriber's filters and watermark, at
    most 100 rows. *)
Definition fetch (chat_id : Z) (db : DB) (w : world) : result (list apart) :=
  let state := state_of chat_id w in
  get_new_aparts (min_price state) (max_price state) (rooms state)
                 (since state) 100 db.

(** One pass through the body of [while state.searching], up to its
    sleep, when nothing else gets a turn while its sends are pending:
    the query, each send and the assignment to [since] follow one
    another against the same state.  (The pass taken apart at its
    [await]s is [Steps.resume]; lemma [pass_in_one_piece] relates the
    two.) *)
Definition search_iteration (chat_id : Z) (db : DB) (ok : nat → bool)
  (w : world) : world :=
  match fetch chat_id db w with
  | Raise _ => w
  | Ok ads =>
    match ads with
    | [] => w
    | ad :: rest =>
      let w :=
        {| user_states := user_states w; tasks := tasks w;
           delivered := delivered w ++ send_all chat_id ok 0 ads |} in
      let max_created_at := max_of (created_at ad) (List.map created_at rest) in
      update_state chat_id (set_since (Some max_created_at)) w
    end
  end.

(** A task runs from where it stands to its next sleep, or to its end
    when it finds [searching] false at the top of the loop, nothing
    else getting a turn in between.  This is one of the ways a pass can
    go; the properties that depend on what may happen while a send is
    pending are stated over [Steps.proceed]. *)
Definition wake (i : nat) (now : Z) (db : DB) (ok : nat → bool) (w : world)
  : world :=
  match tasks w !! i with
  | None => w
  | Some t =>
    let w := if t_fresh t then search_loop_enter (t_chat t) now w else w in
    if searching (state_of (t_chat t) w)
    then
      let w := search_iteration (t_chat t) db ok w in
      {| user_states := user_states w;
         tasks := <[i := {| t_chat := t_chat t; t_fresh := false |}]> (tasks w);
         delivered := delivered w |}
    else
      {| user_states := user_states w; tasks := delete i (tasks w);
         delivered := delivered w |}
  end.

Inductive event :=
| Callback (chat_id : Z) (data : string) (now : Z) (tg_ok : bool)
| Wake (i : nat) (now : Z) (db : DB) (ok : nat → bool).

Definition step (w : world) (e : event) : world :=
  match e with
  | Callback chat_id data now tg_ok => on_callback chat_id data now tg_ok w
  | Wake i now db ok => wake i now db ok w
  end.

Definition run (es : list event) (w : world) : world := fold_left step es w.

(** What a task meets when it wakes: the clock, the store and the fate
    of each [send_message]. *)
Definition poll : Type := Z * DB * (nat → bool).

(** Wake-ups of the tasks named, in the order given. *)
Definition wake_events (l : list (nat * poll)) : list event :=
  List.map (fun q => Wake (fst q) (fst (fst (snd q))) (snd (fst (snd q)))
                          (snd (snd q))) l.

End loop.

(** The subscriber's watermark. *)
Definition watermark (chat_id : Z) (w : world) : option Z :=
  since (state_of chat_id w).

End Bot.

(** ** Concrete collaborators, used to run the definitions on examples *)

Module Concrete.
Import Py Ext Bot.

(** The Unicode lower-case mapping on Basic Latin, Latin-1 and the
    Cyrillic block U+0400..U+045F; other characters are left as they
    are. *)
Definition lower_char (c : char) : char :=
  if (65 <=? c) && (c <=? 90) then c + 32
  else if (192 <=? c) && (c <=? 222) && negb (c =? 215) then c + 32
  else if (1024 <=? c) && (c <=? 1039) then c + 80
  else if (1040 <=? c) && (c <=? 1071) then c + 32
  else c.

Definition lower_basic : Lower := List.map lower_char.

(** [urljoin] for a base that is an origin and a reference that is an
    absolute path; a reference that opens a bracketed host without
    closing it raises, as [urljoin] does. *)
Definition urljoin_origin : UrlJoin := fun base url =>
  if is_prefix (u "//") url && contains (u "[") url && negb (contains (u "]") url)
  then Raise ValueError
  else Ok (base ++ url).

Definition five_minutes : Interval := 300%Z.

(** Modelled from the spec: the store behind [db.add_apart] and
    [db.get_new_aparts], which is not among the sources.  Section 6 of
    the specification gives its contract: [insertIfAbsent] is
    idempotent on the id and stamps the record with [observedAt] at
    insertion; [queryNewer] returns no record with [observedAt <= since],
    only records matching the filter, at most [limit] of them, in
    ascending order of [observedAt]. *)
Record store := {
  rows : list apart;
  clock : Z
}.

Definition as_int (v : pyval) : option Z :=
  match v with VInt z => Some z | VStr _ => None end.

Definition as_str (v : pyval) : option str :=
  match v with VStr s => Some s | VInt _ => None end.

Definition row_apart (row : gmap string pyval) (t : Z) : option apart :=
  i ← row !! "id" ≫= as_int;
  ti ← row !! "title" ≫= as_str;
  l ← row !! "link" ≫= as_str;
  p ← row !! "price" ≫= as_int;
  r ← row !! "rooms" ≫= as_int;
  Some {| a_id := i; a_title := ti; a_link := l; a_price := p;
          a_rooms := r; created_at := t |}.

(** Modelled from the spec: [insertIfAbsent]. *)
Definition store_add : AddApart store := fun row db =>
  match row_apart row (clock db) with
  | None => (db, Raise KeyError)
  | Some a =>
    if existsb (fun b => (a_id b =? a_id a)%Z) (rows db)
    then (db, Ok tt)
    else ({| rows := rows db ++ [a]; clock := clock db |}, Ok tt)
  end.

Fixpoint insert_by_time (a : apart) (l : list apart) : list apart :=
  match l with
  | [] => [a]
  | b :: l' =>
    if (created_at a <=? created_at b)%Z then a :: l
    else b :: insert_by_time a l'
  end.

Definition sort_by_time (l : list apart) : list apart :=
  fold_right insert_by_time [] l.

Definition matches (mn mx : option Z) (rs : option (list Z))
  (since_ : option Z) (a : apart) : bool :=
  match since_ with Some t => (t <? created_at a)%Z | None => true end
  && match mn with Some m => (m <=? a_price a)%Z | None => true end
  && match mx with Some m => (a_price a <=? m)%Z | None => true end
  && match rs with
     | Some (_ :: _ as l) => existsb (Z.eqb (a_rooms a)) l
     | _ => true
     end.

(** Modelled from the spec: [queryNewer]. *)
Definition store_query : GetNewAparts store := fun mn mx rs since_ limit db =>
  Ok (take (Z.to_nat limit)
           (sort_by_time (List.filter (matches mn mx rs since_) (rows db)))).

(** Three fragments of a page: the second has no readable id. *)
Definition flat_101 : Parser.item :=
  {| Parser.item_id := Some (u "101");
     Parser.item_title := Some (u "2-к квартира, 60 м², 7/12 эт.");
     Parser.item_price := Some (Some (u "45000"));
     Parser.item_specific_params := Some (u "залог 30 000 · без комиссии");
     Parser.item_location :=
       [[u "ул. Гастелло, 10"]; [u ""; u "Сокольники"; u "10–15 мин."]];
     Parser.item_link := Some (Some (u "/moskva/kvartiry/101")) |}.

Definition flat_without_id : Parser.item :=
  {| Parser.item_id := Some (u "n/a");
     Parser.item_title := Some (u "1-к квартира, 38 м², 2/9 эт.");
     Parser.item_price := Some (Some (u "40000"));
     Parser.item_specific_params := None;
     Parser.item_location := [];
     Parser.item_link := Some (Some (u "/moskva/kvartiry/x")) |}.

Definition flat_102 : Parser.item :=
  {| Parser.item_id := Some (u "102");
     Parser.item_title := Some (u "Студия, 25 м², 5/10 эт.");
     Parser.item_price := Some (Some (u "30000"));
     Parser.item_specific_params := Some (u "без залога · комиссия 15 000");
     Parser.item_location := [];
     Parser.item_link := Some (Some (u "https://www.avito.ru/moskva/kvartiry/102")) |}.

(** The listing of [flat_101] once more on the same page. *)
Definition flat_101_again : Parser.item :=
  {| Parser.item_id := Some (u "101");
     Parser.item_title := Some (u "2-к квартира, 60 м², 7/12 эт.");
     Parser.item_price := Some (Some (u "45000"));
     Parser.item_specific_params := None;
     Parser.item_location := [];
     Parser.item_link := Some (Some (u "/moskva/kvartiry/101?promo")) |}.

Definition empty_store : store := {| rows := []; clock := 1000000%Z |}.

(** A store holding one listing observed at second 990, a subscriber
    without filters, and nothing else. *)
Definition listing_990 : apart :=
  {| a_id := 101; a_title := u "2-к квартира, 60 м², 7/12 эт.";
     a_link := u "https://www.avito.ru/moskva/kvartiry/101";
     a_price := 45000; a_rooms := 2; created_at := 990000000 |}.

Definition store_990 : store :=
  {| rows := [listing_990]; clock := 990000000%Z |}.

Definition no_subscribers : world :=
  {| user_states := ∅; tasks := []; delivered := [] |}.

Definition all_sent : nat → bool := fun _ => true.
Definition none_sent : nat → bool := fun _ => false.

(** Subscriber 7 starts at second 1000, is served once, stops at
    second 1010 and starts again at second 1020; the loop spawned
    by the second start then wakes. *)
Definition start_1000 : event (DB:=store) :=
  Callback 7 "start_search" 1000000000 true.
Definition wake_1000 : event (DB:=store) :=
  Wake 0 1000000000 store_990 all_sent.
Definition stop_1010 : event (DB:=store) :=
  Callback 7 "stop_search" 1010000000 true.
Definition start_1020 : event (DB:=store) :=
  Callback 7 "start_search" 1020000000 true.
Definition wake_1020 : event (DB:=store) :=
  Wake 1 1020000000 store_990 all_sent.

Definition notice_990 : Z * apart * str :=
  (7%Z, listing_990,
   message_text (a_price listing_990) (a_rooms listing_990)
                (a_title listing_990) (a_link listing_990)).

End Concrete.

(** ** The specification's words, for comparison with the code *)

Module Spec.
Import Py Ext.

(** "The first run of digits", blanks inside included: from the first
    decimal digit on, as far as decimal digits and whitespace go. *)
Definition first_number (p : str) : option str :=
  match drop_while (fun c => negb (isdecimal c)) p with
  | [] => None
  | d :: rest =>
    Some (d :: take_while (fun c => isdecimal c || isspace c) rest)
  end.

Section rules.
Context `{!Lower}.

(** What one clause says about one field: [Some v] when the clause
    applies and sets the field to [v].  [no_kw] is the phrase that
    forces zero and [kw] the one that announces an amount; an amount
    that does not read as a number leaves the field alone. *)
Definition clause_sets (no_kw kw : str) (clause : str) : option Z :=
  let p := replace [160] (u " ") (strip clause) in
  if contains no_kw (lower p) then Some 0%Z
  else if contains kw (lower p) then
    match first_number p with
    | Some digits =>
      match int_of_str (replace (u " ") [] digits) with
      | Ok v => Some v
      | Raise _ => None
      end
    | None => None
    end
  else None.

(** "Last applicable clause wins", zero when none applies. *)
Definition last_applicable (rule : str → option Z) (clauses : list str) : Z :=
  default 0%Z (last (omap rule clauses)).

Definition split_deposit_commission (text : str) : Z * Z :=
  let clauses := split (u " · ") text in
  (last_applicable (clause_sets (u "без залога") (u "залог")) clauses,
   last_applicable (clause_sets (u "без комиссии") (u "комис")) clauses).

End rules.

(** The tokens of [maxIntegerToken]: split on whitespace, the en-dash
    counting as a separator. *)
Definition tokens (text : str) : list str :=
  split_ws (replace [8211] [32] text).

(** The number read from a token made of digits only. *)
Definition token_value (t : str) : option Z :=
  if forallb isdigit t
  then match int_of_str t with Ok v => Some v | Raise _ => None end
  else None.

(** The largest of the numbers, or 0. *)
Definition max_or_zero (l : list Z) : Z := fold_right Z.max 0%Z l.

(** The number of failures at the end of a history of cycles ([true]
    is a failed cycle). *)
Fixpoint leading_failures (h : list bool) : nat :=
  match h with
  | true :: h' => S (leading_failures h')
  | _ => O
  end.

Definition trailing_failures (history : list bool) : nat :=
  leading_failures (rev history).

(** A fragment whose id is absent or does not read as an integer. *)
Definition malformed (g : Parser.item) : Prop :=
  ∃ e, int_of_str (default [] (Parser.item_id g)) = Raise e.

(** A fragment with a readable id whose link can be made absolute. *)
Definition well_formed `{!UrlJoin} (g : Parser.item) : Prop :=
  (∃ v, int_of_str (default [] (Parser.item_id g)) = Ok v)
  ∧ (∃ l, Parser.item_href g = Ok l).

(** The id of a fragment, when it reads as an integer. *)
Definition item_int_id (g : Parser.item) : option Z :=
  match int_of_str (default [] (Parser.item_id g)) with
  | Ok v => Some v
  | Raise _ => None
  end.

(** A cycle fails when [fetch_html] raises or the page holds no
    fragment. *)
Definition cycle_fails (c : Parser.cycle) : bool :=
  match c with
  | Raise _ => true
  | Ok [] => true
  | Ok (_ :: _) => false
  end.

(** [m] is the maximum of the non-empty list [l]. *)
Definition is_max (m : Z) (l : list Z) : Prop :=
  In m l ∧ ∀ x, In x l → (x <= m)%Z.

End Spec.

(** ** Invariants of the matcher, used in the proofs below *)

Module Inv.
Import Py Re.

(** The texts a pattern matches. *)
Inductive lang : regex → str → Prop :=
| lang_chr p c : p c = true → lang (Chr p) [c]
| lang_cat r1 r2 t1 t2 : lang r1 t1 → lang r2 t2 → lang (Cat r1 r2) (t1 ++ t2)
| lang_star_nil r : lang (Star r) []
| lang_star_more r t1 t2 : lang r t1 → lang (Star r) t2 → lang (Star r) (t1 ++ t2)
| lang_opt_none r : lang (Opt r) []
| lang_opt_some r t : lang r t → lang (Opt r) t
| lang_group n r t : lang r t → lang (Group n r) t.

(** Each capturing group of [r] only takes texts that [Q] admits for
    its number. *)
Fixpoint groups_sat (Q : nat → str → Prop) (r : regex) : Prop :=
  match r with
  | Chr _ => True
  | Cat r1 r2 => groups_sat Q r1 ∧ groups_sat Q r2
  | Star r1 | Opt r1 => groups_sat Q r1
  | Group n r1 => (∀ t, lang r1 t → Q n t) ∧ groups_sat Q r1
  end.

Definition caps_sat (Q : nat → str → Prop) (caps : captures) : Prop :=
  Forall (fun x => Q (fst x) (snd x)) caps.

(** A text without a minus sign. *)
Definition no_minus (t : str) : Prop := Forall (fun c => c ≠ 45) t.

(** Decimal digits, with an optional fraction after a point or a
    comma. *)
Definition numeral (t : str) : Prop :=
  ∃ ip, ip ≠ [] ∧ forallb isdecimal ip = true
        ∧ (t = ip
           ∨ ∃ sep fp, t = ip ++ sep :: fp ∧ (sep = 46 ∨ sep = 44)
                       ∧ fp ≠ [] ∧ forallb isdecimal fp = true).

End Inv.

(** ** bot.py: keyboards, [/start] and text messages *)

Module Handlers.
Import Py Ext Bot.

(** An [InlineKeyboardButton]: its label and its callback data. *)
Record button := {
  text : str;
  callback_data : string
}.

(** An [InlineKeyboardMarkup]: the rows of [inline_keyboard]. *)
Definition keyboard := list (list button).

(** The truth value of an [int | None]: [None] and [0] are false. *)
Definition truthy (x : option Z) : bool :=
  match x with
  | Some n => negb (n =? 0)%Z
  | None => false
  end.

(** [sep.join(parts)]. *)
Fixpoint join (sep : str) (parts : list str) : str :=
  match parts with
  | [] => []
  | p :: rest =>
    match rest with
    | [] => p
    | _ :: _ => p ++ sep ++ join sep rest
    end
  end.

(** What [parts.append(f"... {bound}")] adds under [if bound:]. *)
Definition bound_part (word : str) (bound : option Z) : list str :=
  match bound with
  | Some n => if (n =? 0)%Z then [] else [word ++ str_of_int n]
  | None => []
  end.

Definition price_text (state : UserState) : str :=
  if truthy (min_price state) || truthy (max_price state)
  then
    let parts := bound_part (u "от ") (min_price state)
                 ++ bound_part (u "до ") (max_price state) in
    u "💲 Цена: " ++ join (u " ") parts
  else u "💲 Установить цену".

(** The list comprehension over the rooms, joined. *)
Definition rooms_str (l : list Z) : str :=
  join (u ", ")
       (List.map (fun r => if (r =? 0)%Z then u "студия" else str_of_int r) l).

Definition rooms_text (state : UserState) : str :=
  match rooms state with
  | Some (r :: l) => u "🏠 Комнаты: " ++ rooms_str (r :: l)
  | _ => u "🏠 Установить комнаты"
  end.

Definition main_keyboard (state : UserState) : keyboard :=
  [ [ {| text := price_text state; callback_data := "set_price" |} ];
    [ {| text := rooms_text state; callback_data := "set_rooms" |} ];
    [ {| text := u "▶️ Запустить поиск"; callback_data := "start_search" |} ] ].

Definition stop_keyboard : keyboard :=
  [ [ {| text := u "⛔ Остановить поиск"; callback_data := "stop_search" |} ] ].

(** The callback data for which [main] registers [on_callback]. *)
Definition registered_data : list string :=
  [ "set_price"; "set_rooms"; "start_search"; "stop_search" ].

(** What a handler hands to [message.answer]. *)
Record reply := {
  r_text : str;
  reply_markup : option keyboard
}.

(** [cmd_start]: the registry after [get_state], and the greeting. *)
Definition cmd_start (chat_id : Z) (w : world) : world * reply :=
  let w := update_state chat_id (fun st => st) w in
  let state := state_of chat_id w in
  (w, {| r_text :=
           u "Привет! Я бот, который шлёт новые объявления о недвижимости с Авито."
           ++ [10; 10] ++ u "Настрой фильтры и запусти поиск!";
         reply_markup := Some (main_keyboard state) |}).

Definition set_min_price (p : option Z) (st : UserState) : UserState :=
  {| waiting_for_price := waiting_for_price st; min_price := p;
     max_price := max_price st; waiting_for_rooms := waiting_for_rooms st;
     rooms := rooms st; searching := searching st; since := since st |}.

Definition set_max_price (p : option Z) (st : UserState) : UserState :=
  {| waiting_for_price := waiting_for_price st; min_price := min_price st;
     max_price := p; waiting_for_rooms := waiting_for_rooms st;
     rooms := rooms st; searching := searching st; since := since st |}.

Definition set_rooms (r : option (list Z)) (st : UserState) : UserState :=
  {| waiting_for_price := waiting_for_price st; min_price := min_price st;
     max_price := max_price st; waiting_for_rooms := waiting_for_rooms st;
     rooms := r; searching := searching st; since := since st |}.

(** [s.split(sep, maxsplit=1)] for a non-empty separator: the text is
    cut at the first occurrence of [sep], if there is one. *)
Fixpoint cut_at (sep : str) (cur : str) (s : str) : option (str * str) :=
  match s with
  | [] => None
  | c :: s' =>
    if is_prefix sep s then Some (rev cur, drop (length sep) s)
    else cut_at sep (c :: cur) s'
  end.

Definition split_once (sep s : str) : list str :=
  match cut_at sep [] s with
  | Some (l, r) => [l; r]
  | None => [s]
  end.

(** [try: x = int(t) / except ValueError: x = None]. *)
Definition int_or_None (t : str) : result (option Z) :=
  try_except (v ← int_of_str t; Ok (Some v)) (Parser.only_ValueError None).

(** Lines 239-258: the two bounds read from the text without its
    blanks.  Unpacking a list that does not hold two values raises
    [ValueError]. *)
Definition price_bounds (raw : str) : result (option Z * option Z) :=
  if contains (u "-") raw
  then
    match split_once (u "-") raw with
    | [left_; right_] =>
      min_p ← match left_ with
              | _ :: _ => int_or_None left_
              | [] => Ok None
              end;
      max_p ← match right_ with
              | _ :: _ => int_or_None right_
              | [] => Ok None
              end;
      Ok (min_p, max_p)
    | _ => Raise ValueError
    end
  else
    min_p ← int_or_None raw;
    Ok (min_p, None).

(** Lines 278-288: the rooms read from the text without its blanks. *)
Definition rooms_of (raw : str) : result (list Z) :=
  match raw with
  | _ :: _ =>
    for_each (fun rooms_list part =>
                match part with
                | [] => Ok rooms_list
                | _ :: _ =>
                  try_except (val ← int_of_str part; Ok (rooms_list ++ [val]))
                             (Parser.only_ValueError rooms_list)
                end)
             (split (u ",") raw) []
  | [] => Ok []
  end.

(** [bound or '—'] inside an f-string. *)
Definition or_dash (bound : option Z) : str :=
  match bound with
  | Some n => if (n =? 0)%Z then u "—" else str_of_int n
  | None => u "—"
  end.

Definition price_reply (state : UserState) : reply :=
  {| r_text := u "Фильтр по цене обновлён." ++ [10]
               ++ u "Минимум: " ++ or_dash (min_price state) ++ [10]
               ++ u "Максимум: " ++ or_dash (max_price state);
     reply_markup := Some (main_keyboard state) |}.

Definition rooms_reply (state : UserState) : reply :=
  {| r_text :=
       match rooms state with
       | Some (r :: l) =>
         u "Фильтр по комнатам обновлён." ++ [10]
         ++ u "Комнаты: " ++ rooms_str (r :: l)
       | _ => u "Фильтр по комнатам сброшен."
       end;
     reply_markup := Some (main_keyboard state) |}.

Definition error_reply : reply :=
  {| r_text := u "Ошибка обработки. Попробуйте снова.";
     reply_markup := None |}.

(** [on_message]: the registry after the handler, and the first reply
    it hands to [message.answer].  The state is assigned before the
    reply is sent, so what Telegram does with the reply does not
    change it. *)
Definition on_message (chat_id : Z) (txt : str) (w : world) : world * reply :=
  let w := update_state chat_id (fun st => st) w in
  let state := state_of chat_id w in
  if bool_decide (txt = u "/start") then cmd_start chat_id w
  else if waiting_for_price state then
    let raw := replace (u " ") [] txt in
    match price_bounds raw with
    | Ok (min_p, max_p) =>
      let w := update_state chat_id (set_min_price min_p) w in
      let w := update_state chat_id (set_max_price max_p) w in
      let w := update_state chat_id
                 (fun st => set_waiting false (waiting_for_rooms st) st) w in
      (w, price_reply (state_of chat_id w))
    | Raise _ => (w, error_reply)
    end
  else if waiting_for_rooms state then
    let raw := replace (u " ") [] txt in
    match rooms_of raw with
    | Ok rooms_list =>
      let w := update_state chat_id
                 (set_rooms (match rooms_list with
                             | [] => None
                             | _ :: _ => Some rooms_list
                             end)) w in
      let w := update_state chat_id
                 (fun st => set_waiting (waiting_for_price st) false st) w in
      (w, rooms_reply (state_of chat_id w))
    | Raise _ => (w, error_reply)
    end
  else (w, {| r_text := u "Используй /start для начала.";
              reply_markup := None |}).

Section activity.
Context {DB : Type} `{!GetNewAparts DB}.

(** What the process does between two points where it waits: it serves
    a callback or lets a loop run to its sleep ([Core]), or it serves a
    [/start] command or a text message. *)
Inductive activity :=
| Core (e : event (DB:=DB))
| Start (chat_id : Z)
| Text (chat_id : Z) (txt : str).

Definition handle (w : world) (x : activity) : world :=
  match x with
  | Core e => step w e
  | Start chat_id => fst (cmd_start chat_id w)
  | Text chat_id txt => fst (on_message chat_id txt w)
  end.

Definition serve (xs : list activity) (w : world) : world :=
  fold_left handle xs w.

End activity.

(** [user_states = {}] and no task: the process as it starts. *)
Definition fresh_world : world :=
  {| user_states := ∅; tasks := []; delivered := [] |}.

End Handlers.

(** ** Views of a run, used to state properties *)

Module Views.
Import Py Ext Parser Bot Handlers.

Section rows.
Context `{!Lower, !UrlJoin}.

(** The rows of the records that can be built from the fragments, in
    the order of the fragments. *)
Definition rows_of (items : list item) : list (gmap string pyval) :=
  flat_map (fun g => match build_ad g with
                     | Ok (Some ad) => [ad_row ad]
                     | _ => []
                     end) items.

End rows.

(** The fragments of the pages that the cycles fetched, in order. *)
Definition fetched (cycles : list cycle) : list item :=
  flat_map (fun c => match c with Ok items => items | Raise _ => [] end) cycles.

(** What [int] reads from a text, if anything. *)
Definition read_int (t : str) : option Z :=
  match int_of_str t with
  | Ok v => Some v
  | Raise _ => None
  end.

(** What [on_message] does to the state of the chat it is called
    for. *)
Definition message_effect (txt : str) (st : UserState) : UserState :=
  if bool_decide (txt = u "/start") then st
  else if waiting_for_price st then
    match price_bounds (replace (u " ") [] txt) with
    | Ok (min_p, max_p) =>
      (fun st => set_waiting false (waiting_for_rooms st) st)
        (set_max_price max_p (set_min_price min_p st))
    | Raise _ => st
    end
  else if waiting_for_rooms st then
    match rooms_of (replace (u " ") [] txt) with
    | Ok rooms_list =>
      (fun st => set_waiting (waiting_for_price st) false st)
        (set_rooms (match rooms_list with
                    | [] => None
                    | _ :: _ => Some rooms_list
                    end) st)
    | Raise _ => st
    end
  else st.

(** What [on_callback] does to the state of the chat it is called
    for. *)
Definition callback_effect (data : string) (now : Z) (st : UserState)
  : UserState :=
  if String.eqb data "set_price" then set_waiting true false st
  else if String.eqb data "set_rooms" then set_waiting false true st
  else if String.eqb data "start_search" then
    if searching st then st
    else set_since (Some (now - one_minute)%Z) (set_searching true st)
  else if String.eqb data "stop_search" then
    if searching st then set_searching false st else st
  else st.

Section subject.
Context {DB : Type} `{!GetNewAparts DB}.

(** The chat an activity is about: the sender of the callback, the
    command or the message, or the subscriber of the loop that
    wakes. *)
Definition subject (x : activity (DB:=DB)) (w : world) : option Z :=
  match x with
  | Core (Callback chat_id _ _ _) => Some chat_id
  | Core (Wake i _ _ _) => t_chat <$> tasks w !! i
  | Start chat_id => Some chat_id
  | Text chat_id _ => Some chat_id
  end.

(** A press of the stop button by the chat. *)
Definition is_stop (c : Z) (x : activity (DB:=DB)) : bool :=
  match x with
  | Core (Callback chat_id data _ _) =>
    (chat_id =? c)%Z && String.eqb data "stop_search"
  | _ => false
  end.

End subject.

(** Between two states of a chat, nothing but the watermark differs,
    and a watermark that was set is still set. *)
Definition only_since (st st' : UserState) : Prop :=
  st' = set_since (since st') st ∧ (since st ≠ None → since st' ≠ None).

(** What holds of every state the handlers leave behind. *)
Definition state_ok (st : UserState) : Prop :=
  waiting_for_price st && waiting_for_rooms st = false
  ∧ rooms st ≠ Some []
  ∧ (∀ n, min_price st = Some n → (0 <= n)%Z)
  ∧ (searching st = true → since st ≠ None).

Definition world_ok (w : world) : Prop :=
  (∀ c, state_ok (state_of c w))
  ∧ (∀ t, In t (tasks w) → since (state_of (t_chat t) w) ≠ None).

(** The number of live loops of a chat. *)
Definition loops_of (c : Z) (w : world) : nat :=
  length (List.filter (fun t => (t_chat t =? c)%Z) (tasks w)).

End Views.

(** ** bot.py: the loop step by step

    [search_loop] gives up control at every [await]: while one of its
    sends or its sleep is pending, callbacks, messages and other loops
    (of the same chat, too) run.  Here a loop advances from one [await]
    to the next, and what happens in between is left open.

    The handlers stay single steps.  Each of them does all its
    assignments to the state before its first [await], and
    [on_callback] calls [create_task] after its last; a loop that has
    been created does nothing before its first step, so it makes no
    difference to the other steps when exactly it is created. *)

Module Steps.
Import Py Ext Bot Handlers.

(** Where a [search_loop] coroutine is suspended. *)
Inductive position :=
(** scheduled by [create_task]; nothing of its body has run *)
| Created
(** at the [await bot.send_message] of the [for] loop: [ads] is what
    the query returned to this pass, [todo] the row whose send is
    pending followed by the rows still to be sent *)
| Sending (ads : list apart) (todo : list apart)
(** at one of the two [await asyncio.sleep] *)
| Sleeping
(** left the [while] *)
| Ended.

Record loop := {
  l_chat : Z;
  l_at : position
}.

(** The registry [user_states], the [search_loop] coroutines in the
    order of their creation, and the notifications that
    [bot.send_message] accepted. *)
Record system := {
  users : gmap Z UserState;
  loops : list loop;
  sent : list (Z * apart * str)
}.

(** The registry and the log as the handlers and the pieces of the loop
    see them; none of them looks at the tasks. *)
Definition view (s : system) : world :=
  {| user_states := users s; tasks := []; delivered := sent s |}.

(** The system after a handler has run on [view s]: a task it created
    is a loop that has yet to run. *)
Definition merge (s : system) (w : world) : system :=
  {| users := user_states w;
     loops := loops s
              ++ List.map (fun t => {| l_chat := t_chat t; l_at := Created |})
                          (tasks w);
     sent := delivered w |}.

(** The system after a piece of a loop has run on [view s]. *)
Definition write (w : world) (s : system) : system :=
  {| users := user_states w; loops := loops s; sent := delivered w |}.

(** Loop [i] is suspended at [at_] from now on. *)
Definition place (i : nat) (chat_id : Z) (at_ : position) (s : system)
  : system :=
  {| users := users s;
     loops := <[i := {| l_chat := chat_id; l_at := at_ |}]> (loops s);
     sent := sent s |}.

(** [bot.send_message] accepted the notification of [ad]. *)
Definition log (chat_id : Z) (ad : apart) (s : system) : system :=
  {| users := users s; loops := loops s;
     sent := sent s
             ++ [(chat_id, ad,
                  message_text (a_price ad) (a_rooms ad) (a_title ad)
                               (a_link ad))] |}.

Section steps.
Context {DB : Type} `{!GetNewAparts DB}.

(** Lines 339-354 and 373-377: from the top of the [while] to the next
    [await].  A pass that fetched rows suspends at the send of the
    first; one that fetched none, or whose query raised, sleeps. *)
Definition loop_top (i : nat) (chat_id : Z) (db : DB) (s : system) : system :=
  let state := state_of chat_id (view s) in
  if searching state
  then
    match get_new_aparts (min_price state) (max_price state) (rooms state)
                         (since state) 100 db with
    | Ok (ad :: rest) => place i chat_id (Sending (ad :: rest) (ad :: rest)) s
    | Ok [] => place i chat_id Sleeping s
    | Raise _ => place i chat_id Sleeping s
    end
  else place i chat_id Ended s.

(** Lines 367-373, after the [for] loop: the watermark becomes the
    largest [created_at] of the rows of this pass, and the loop sleeps.
    (With no rows the block under [if ads] is not entered, and the loop
    sleeps as well.) *)
Definition after_sends (i : nat) (chat_id : Z) (ads : list apart)
  (s : system) : system :=
  match ads with
  | ad :: rest =>
    let max_created_at := max_of (created_at ad) (List.map created_at rest) in
    place i chat_id Sleeping
          (write (update_state chat_id (set_since (Some max_created_at))
                               (view s)) s)
  | [] => place i chat_id Sleeping s
  end.

(** Loop [i] gets its turn and runs to its next [await].  [now] is the
    reading of the clock and [db] the store at that moment; [ok] tells
    whether the send that was pending returned (a send that raised is
    only logged). *)
Definition resume (i : nat) (now : Z) (db : DB) (ok : bool) (s : system)
  : system :=
  match loops s !! i with
  | None => s
  | Some l =>
    let chat_id := l_chat l in
    match l_at l with
    | Created =>
      loop_top i chat_id db (write (search_loop_enter chat_id now (view s)) s)
    | Sleeping => loop_top i chat_id db s
    | Sending ads todo =>
      match todo with
      | ad :: later =>
        let s := if ok then log chat_id ad s else s in
        match later with
        | _ :: _ => place i chat_id (Sending ads later) s
        | [] => after_sends i chat_id ads s
        end
      | [] => after_sends i chat_id ads s
      end
    | Ended => s
    end
  end.

(** What happens, one thing at a time: a callback, a [/start] command
    or a text message is served, or a loop gets its turn. *)
Inductive occurrence :=
| Press (chat_id : Z) (data : string) (now : Z) (tg_ok : bool)
| Command (chat_id : Z)
| Message (chat_id : Z) (txt : str)
| Resume (i : nat) (now : Z) (db : DB) (ok : bool).

Definition occur (s : system) (x : occurrence) : system :=
  match x with
  | Press chat_id data now tg_ok =>
    merge s (on_callback chat_id data now tg_ok (view s))
  | Command chat_id => merge s (fst (cmd_start chat_id (view s)))
  | Message chat_id txt => merge s (fst (on_message chat_id txt (view s)))
  | Resume i now db ok => resume i now db ok s
  end.

Definition proceed (xs : list occurrence) (s : system) : system :=
  fold_left occur xs s.

(** A pass of loop [i] in which nothing else gets a turn: the loop
    runs from its sleep (or its creation) to its next sleep, [ok k]
    telling whether its [k]-th send returns. *)
Definition pass_steps (i : nat) (now : Z) (db : DB) (ok : nat → bool)
  (n : nat) : list occurrence :=
  Resume i now db true
  :: List.map (fun k => Resume i now db (ok k)) (seq 0 n).

(** A press of the start button by the chat. *)
Definition is_start (c : Z) (x : occurrence) : bool :=
  match x with
  | Press chat_id data _ _ => (chat_id =? c)%Z && String.eqb data "start_search"
  | _ => false
  end.

(** A turn of loop [i]. *)
Definition is_turn (i : nat) (x : occurrence) : bool :=
  match x with
  | Resume j _ _ _ => (j =? i)%nat
  | _ => false
  end.

(** What may happen while loop [i] of chat [c] is suspended, short of
    a turn of that loop and a press of start by the chat. *)
Definition aside (i : nat) (c : Z) (x : occurrence) : bool :=
  negb (is_start c x) && negb (is_turn i x).

(** The turns that loop [i] gets once it waits for a send, each after
    a stretch of other occurrences and with the clock and the store of
    its moment; the flag tells whether the send that was pending
    returned. *)
Fixpoint turns_among (i : nat)
  (turns : list (list occurrence * (Z * DB * bool))) : list occurrence :=
  match turns with
  | [] => []
  | (gap, (now, db, ok)) :: rest =>
    gap ++ Resume i now db ok :: turns_among i rest
  end.

End steps.

(** The process as it starts. *)
Definition boot : system := {| users := ∅; loops := []; sent := [] |}.

(** A loop between its query and its watermark update. *)
Definition in_flight (p : position) : bool :=
  match p with
  | Sending _ _ => true
  | _ => false
  end.

Definition ended (p : position) : bool :=
  match p with
  | Ended => true
  | _ => false
  end.

(** No loop of the chat is between its query and its watermark
    update. *)
Definition settled (c : Z) (s : system) : bool :=
  forallb (fun l => negb ((l_chat l =? c)%Z && in_flight (l_at l))) (loops s).

(** The loops of the chat that have not ended. *)
Definition live_loops (c : Z) (s : system) : list loop :=
  List.filter (fun l => (l_chat l =? c)%Z && negb (ended (l_at l))) (loops s).

End Steps.

(** ** What holds along a run of steps, used in the proofs below *)

Module StepInv.
Import Py Ext Bot Handlers Steps.

(** The watermark of the chat is not below [b], and every row of a
    pass of the chat that is in flight was observed after [b]. *)
Definition above (c b : Z) (s : system) : Prop :=
  (∃ m, watermark c (view s) = Some m ∧ (b <= m)%Z)
  ∧ ∀ i l, loops s !! i = Some l → l_chat l = c →
      match l_at l with
      | Sending ads todo =>
        Forall (fun a => (b < created_at a)%Z) ads
        ∧ Forall (fun a => (b < created_at a)%Z) todo
      | _ => True
      end.

(** The chat has at most one loop that has not ended. *)
Definition alone (c : Z) (s : system) : Prop :=
  ∀ i j l l', loops s !! i = Some l → loops s !! j = Some l' →
    l_chat l = c → l_chat l' = c →
    ended (l_at l) = false → ended (l_at l') = false → i = j.

(** The chat has at most one live loop and a watermark; the rows of its
    pass in flight, if there is one, were observed after the watermark;
    and every row of [new] logged for the chat is a row of that pass or
    was observed no later than the watermark. *)
Definition tidy (c : Z) (new : list (Z * apart * str)) (s : system) : Prop :=
  alone c s
  ∧ ∃ m, watermark c (view s) = Some m
     ∧ (∀ i l, loops s !! i = Some l → l_chat l = c →
          match l_at l with
          | Sending ads todo =>
            Forall (fun a => (m < created_at a)%Z) ads ∧ incl todo ads
          | _ => True
          end)
     ∧ (∀ e, In e new → fst (fst e) = c →
          (created_at (snd (fst e)) <= m)%Z
          ∨ ∃ i l ads todo, loops s !! i = Some l ∧ l_chat l = c
                            ∧ l_at l = Sending ads todo
                            ∧ In (snd (fst e)) ads).

(** [s'] has the watermark of the chat and its loops as [s] has
    them. *)
Definition same_for (c : Z) (s s' : system) : Prop :=
  watermark c (view s') = watermark c (view s)
  ∧ ∀ j l, l_chat l = c → (loops s' !! j = Some l ↔ loops s !! j = Some l).

(** From [s] to [s'] the log has grown, [tidy] holds of what was logged
    since [new] began, and the watermark of the chat has not gone
    down. *)
Definition advance (c : Z) (new : list (Z * apart * str)) (s s' : system)
  : Prop :=
  (∃ added, sent s' = sent s ++ added ∧ tidy c (new ++ added) s')
  ∧ ∃ m m', watermark c (view s) = Some m
            ∧ watermark c (view s') = Some m' ∧ (m <= m')%Z.

End StepInv.

(** ** Further sample inputs *)

Module Samples.
Import Py Ext Parser Bot Handlers Concrete.

(** A fragment with a readable id whose link [urljoin] rejects. *)
Definition flat_bad_link : item :=
  {| item_id := Some (u "103");
     item_title := Some (u "1-к квартира, 38 м², 2/9 эт.");
     item_price := Some (Some (u "40000"));
     item_specific_params := None;
     item_location := [];
     item_link := Some (Some (u "//[avito")) |}.

(** Chat 5 has pressed the price button, or the rooms button. *)
Definition asked_for_price : world :=
  on_callback 5 "set_price" 0 true fresh_world.

Definition asked_for_rooms : world :=
  on_callback 5 "set_rooms" 0 true fresh_world.

(** Subscriber 7 after its start at second 1000. *)
Definition started_1000 : world :=
  @run store store_query [start_1000] no_subscribers.

(** The loop of subscriber 7 wakes at second 1300, and so does a
    second loop. *)
Definition poll_1300 : nat * poll (DB:=store) :=
  (0%nat, (1300000000%Z, store_990, all_sent)).

Definition poll_1300_second : nat * poll (DB:=store) :=
  (1%nat, (1300000000%Z, store_990, all_sent)).

(** A second listing, observed at second 995, and the store that holds
    both. *)
Definition listing_995 : apart :=
  {| a_id := 102; a_title := u "Студия, 25 м², 5/10 эт.";
     a_link := u "https://www.avito.ru/moskva/kvartiry/102";
     a_price := 30000; a_rooms := 0; created_at := 995000000 |}.

Definition store_995 : store :=
  {| rows := [listing_990; listing_995]; clock := 995000000%Z |}.

(** Subscriber 7 starts at second 1000, stops and starts again at
    once: two loops.  The first queries while the store holds one
    listing and waits for its send; the second queries when the store
    holds two, sends both and moves the watermark; then the send of the
    first returns. *)
Definition two_loops : list (Steps.occurrence (DB:=store)) :=
  [ Steps.Press 7 "start_search" 1000000000 true;
    Steps.Press 7 "stop_search" 1001000000 true;
    Steps.Press 7 "start_search" 1002000000 true;
    Steps.Resume 0 1003000000 store_990 true;
    Steps.Resume 1 1004000000 store_995 true;
    Steps.Resume 1 1004000000 store_995 true;
    Steps.Resume 1 1004000000 store_995 true ].

Definition first_loop_returns : Steps.occurrence (DB:=store) :=
  Steps.Resume 0 1005000000 store_995 true.

(** Subscriber 7 starts at second 1000; its loop queries and sends,
    chat 5 presses a button in between; at second 1300 the loop wakes
    again; then subscriber 7 stops and starts again. *)
Definition one_loop_first_pass : list (Steps.occurrence (DB:=store)) :=
  [ Steps.Resume 0 1000000000 store_990 true;
    Steps.Press 5 "set_price" 1000500000 true;
    Steps.Resume 0 1001000000 store_990 true ].

Definition one_loop_second_pass : list (Steps.occurrence (DB:=store)) :=
  [ Steps.Resume 0 1300000000 store_995 true;
    Steps.Message 5 (u "1000-2000");
    Steps.Resume 0 1301000000 store_995 true ].

Definition started_at_1000 : Steps.system :=
  @Steps.proceed store store_query
    [Steps.Press 7 "start_search" 1000000000 true] Steps.boot.

(** After a stop and a second start, the first loop wakes and runs a
    pass, and the loop of the second start runs one. *)
Definition after_restart : list (Steps.occurrence (DB:=store)) :=
  [ Steps.Resume 0 1300000000 store_995 true;
    Steps.Resume 0 1300000000 store_995 true;
    Steps.Resume 0 1300000000 store_995 true;
    Steps.Resume 1 1301000000 store_995 true ].

End Samples.

(** * Properties *)

(** ** Facts about the runtime *)

Module PyFacts.
Import Py.

Lemma isdecimal_not_minus (c : char) : isdecimal c = true → c ≠ 45.
Proof. intros H ->. vm_compute in H. discriminate. Qed.

Lemma isspace_not_minus (c : char) : isspace c = true → c ≠ 45.
Proof. intros H ->. vm_compute in H. discriminate. Qed.

Lemma isdecimal_isdigit (c : char) : isdecimal c = true → isdigit c = true.
Proof. intros H. unfold isdigit. rewrite H. reflexivity. Qed.

Lemma decimal_value_nonneg (c : char) : (0 <= decimal_value c)%Z.
Proof.
  unfold decimal_value.
  destruct (List.find _ decimal_ranges); [apply N2Z.is_nonneg | reflexivity].
Qed.

Lemma int_digits_nonneg (s : str) :
  ∀ acc n a v k, (0 <= acc)%Z → int_digits acc n a s = Some (v, k) → (0 <= v)%Z.
Proof.
  induction s as [|c s IH]; intros acc n a v k Hacc H; simpl in H.
  - destruct a; [|discriminate]. simplify_eq. exact Hacc.
  - destruct (isdecimal c).
    + eapply IH; [|exact H]. pose proof (decimal_value_nonneg c). lia.
    + destruct ((c =? 95) && a); [|discriminate].
      eapply IH; [exact Hacc | exact H].
Qed.

Lemma Forall_drop_while (P : char → Prop) p (s : str) :
  Forall P s → Forall P (drop_while p s).
Proof.
  induction 1 as [|c s Hc Hs IH]; simpl; [constructor|].
  destruct (p c); [exact IH | constructor; assumption].
Qed.

Lemma Forall_take_while (P : char → Prop) p (s : str) :
  Forall P s → Forall P (take_while p s).
Proof.
  induction 1 as [|c s Hc Hs IH]; simpl; [constructor|].
  destruct (p c); constructor; assumption.
Qed.

Lemma Forall_strip_with (P : char → Prop) p (s : str) :
  Forall P s → Forall P (strip_with p s).
Proof.
  intros H. unfold strip_with.
  apply Forall_rev, Forall_drop_while, Forall_rev, Forall_drop_while, H.
Qed.

Lemma Forall_replace_aux (P : char → Prop) (old new : str) (s : str) :
  Forall P new → Forall P s → ∀ skip, Forall P (replace_aux old new skip s).
Proof.
  intros Hnew. induction 1 as [|c s Hc Hs IH]; intros skip; simpl.
  - constructor.
  - destruct skip; [|apply IH].
    destruct (is_prefix old (c :: s)).
    + apply Forall_app. split; [exact Hnew | apply IH].
    + constructor; [exact Hc | apply IH].
Qed.

Lemma Forall_replace (P : char → Prop) (old new s : str) :
  Forall P new → Forall P s → Forall P (replace old new s).
Proof.
  intros Hnew Hs. unfold replace. destruct old.
  - apply Forall_app. split; [exact Hnew|].
    induction Hs; simpl; [constructor|].
    constructor; [assumption|]. apply Forall_app. split; assumption.
  - apply Forall_replace_aux; assumption.
Qed.

(** A text without a minus sign never reads as a negative number. *)
Lemma int_of_str_nonneg (s : str) (v : Z) :
  Forall (fun c => c ≠ 45) s → int_of_str s = Ok v → (0 <= v)%Z.
Proof.
  intros Hs. unfold int_of_str.
  pose proof (Forall_strip_with _ int_space s Hs) as Ht.
  destruct (strip_with int_space s) as [|c t].
  - discriminate.
  - unfold int_sign. destruct (c =? 43) eqn:E43; cbn [fst snd].
    + destruct (int_digits 0 0 false t) as [[w n]|] eqn:Ed; [|discriminate].
      destruct (int_max_str_digits <? n)%nat; [discriminate|].
      intros [= <-]. eapply int_digits_nonneg; [|exact Ed]. lia.
    + destruct (c =? 45) eqn:E45.
      * apply N.eqb_eq in E45. inversion Ht; subst. congruence.
      * cbn [fst snd].
        destruct (int_digits 0 0 false (c :: t)) as [[w n]|] eqn:Ed; [|discriminate].
        destruct (int_max_str_digits <? n)%nat; [discriminate|].
        intros [= <-]. eapply int_digits_nonneg; [|exact Ed]. lia.
Qed.

(** [int] raises nothing but [ValueError] on a [str]. *)
Lemma int_of_str_raises (s : str) (e : exn) :
  int_of_str s = Raise e → e = ValueError.
Proof.
  unfold int_of_str.
  destruct (int_digits 0 0 false _) as [[w n]|]; [|congruence].
  destruct (int_max_str_digits <? n)%nat; congruence.
Qed.

Lemma for_each_invariant {A S} (I : S → Prop) (body : S → A → result S)
  (l : list A) :
  (∀ s a s', I s → body s a = Ok s' → I s') →
  ∀ s r, I s → for_each body l s = Ok r → I r.
Proof.
  intros Hbody. induction l as [|a l IH]; intros s r Hs H; simpl in H.
  - injection H as <-. exact Hs.
  - destruct (body s a) as [s'|e] eqn:Eb; simpl in H; [|discriminate].
    eapply IH; [|exact H]. eapply Hbody; eassumption.
Qed.

End PyFacts.

(** ** Facts about the matcher *)

Module ReFacts.
Import Py Re Inv.

Lemma search_eq r (s : str) :
  search r s =
  match rmatch r s [] with
  | x :: _ => Some (snd x)
  | [] => match s with [] => None | _ :: s' => search r s' end
  end.
Proof. destruct s; reflexivity. Qed.

Lemma star_loop_lang r m :
  (∀ s caps x, In x (m s caps) → ∃ t, s = t ++ fst x ∧ lang r t) →
  ∀ fuel s caps x, In x (star_loop m fuel s caps) →
    ∃ t, s = t ++ fst x ∧ lang (Star r) t.
Proof.
  intros Hm fuel. induction fuel as [|f IH]; intros s caps x Hx; simpl in Hx.
  - destruct Hx as [<-|[]]. exists []. split; [reflexivity | constructor].
  - apply in_app_iff in Hx. destruct Hx as [Hx|[<-|[]]].
    + apply in_flat_map in Hx. destruct Hx as (y & Hy & Hx).
      destruct (length (fst y) <? length s)%nat; [|destruct Hx].
      destruct (Hm _ _ _ Hy) as (t1 & -> & H1).
      destruct (IH _ _ _ Hx) as (t2 & E2 & H2).
      exists (t1 ++ t2). split.
      * rewrite E2 at 1. apply app_assoc.
      * constructor; assumption.
    + exists []. split; [reflexivity | constructor].
Qed.

(** What a match consumes is a text of the pattern. *)
Lemma rmatch_lang r :
  ∀ s caps x, In x (rmatch r s caps) → ∃ t, s = t ++ fst x ∧ lang r t.
Proof.
  induction r as [p|r1 IH1 r2 IH2|r1 IH1|r1 IH1|n r1 IH1]; simpl.
  - intros [|c s] caps x Hx; simpl in Hx; [destruct Hx|].
    destruct (p c) eqn:Ec; [|destruct Hx]. destruct Hx as [<-|[]].
    exists [c]. split; [reflexivity|]. constructor. exact Ec.
  - intros s caps x Hx.
    apply in_flat_map in Hx. destruct Hx as (y & Hy & Hx).
    destruct (IH1 _ _ _ Hy) as (t1 & -> & H1).
    destruct (IH2 _ _ _ Hx) as (t2 & E2 & H2).
    exists (t1 ++ t2). split.
    + rewrite E2 at 1. apply app_assoc.
    + constructor; assumption.
  - intros s caps x Hx. eapply star_loop_lang; [exact IH1 | exact Hx].
  - intros s caps x Hx. apply in_app_iff in Hx. destruct Hx as [Hx|[<-|[]]].
    + destruct (IH1 _ _ _ Hx) as (t & E & Ht). exists t. split; [exact E|].
      constructor. exact Ht.
    + exists []. split; [reflexivity | constructor].
  - intros s caps x Hx. apply in_map_iff in Hx. destruct Hx as (y & <- & Hy).
    destruct (IH1 _ _ _ Hy) as (t & E & Ht). exists t. split; [exact E|].
    constructor. exact Ht.
Qed.

Section invariants.
Variable Q : nat → str → Prop.

Lemma star_loop_caps m :
  (∀ s caps x, caps_sat Q caps → In x (m s caps) → caps_sat Q (snd x)) →
  ∀ fuel s caps x, caps_sat Q caps → In x (star_loop m fuel s caps) →
    caps_sat Q (snd x).
Proof.
  intros Hm fuel. induction fuel as [|f IH]; intros s caps x Hc Hx; simpl in Hx.
  - destruct Hx as [<-|[]]. exact Hc.
  - apply in_app_iff in Hx. destruct Hx as [Hx|[<-|[]]]; [|exact Hc].
    apply in_flat_map in Hx. destruct Hx as (y & Hy & Hx).
    destruct (length (fst y) <? length s)%nat; [|destruct Hx].
    eapply IH; [|exact Hx]. eapply Hm; eassumption.
Qed.

(** A match only records texts its groups admit. *)
Lemma rmatch_caps r :
  groups_sat Q r →
  ∀ s caps x, caps_sat Q caps → In x (rmatch r s caps) → caps_sat Q (snd x).
Proof.
  induction r as [p|r1 IH1 r2 IH2|r1 IH1|r1 IH1|n r1 IH1]; simpl; intros Hr.
  - intros [|c s] caps x Hc Hx; simpl in Hx; [destruct Hx|].
    destruct (p c); [|destruct Hx]. destruct Hx as [<-|[]]. exact Hc.
  - destruct Hr as [Hr1 Hr2]. intros s caps x Hc Hx.
    apply in_flat_map in Hx. destruct Hx as (y & Hy & Hx).
    eapply IH2; [exact Hr2| |exact Hx]. eapply IH1; eassumption.
  - intros s caps x Hc Hx.
    eapply star_loop_caps; [apply IH1, Hr | exact Hc | exact Hx].
  - intros s caps x Hc Hx. apply in_app_iff in Hx. destruct Hx as [Hx|[<-|[]]].
    + eapply IH1; eassumption.
    + exact Hc.
  - destruct Hr as [Hr1 Hr2]. intros s caps x Hc Hx.
    apply in_map_iff in Hx. destruct Hx as (y & <- & Hy). simpl.
    constructor.
    + simpl. destruct (rmatch_lang r1 _ _ _ Hy) as (t & -> & Ht).
      rewrite length_app, Nat.add_sub, take_app_length. apply Hr1, Ht.
    + eapply IH1; eassumption.
Qed.

Lemma search_caps r (s : str) (m : captures) :
  groups_sat Q r → search r s = Some m → caps_sat Q m.
Proof.
  intros Hr. induction s as [|c s IH]; rewrite search_eq.
  - destruct (rmatch r _ _) as [|x l] eqn:E; [discriminate|].
    intros [= <-]. apply (rmatch_caps r Hr [] [] x); [constructor|].
    rewrite E. left. reflexivity.
  - destruct (rmatch r _ _) as [|x l] eqn:E; [exact IH|].
    intros [= <-]. apply (rmatch_caps r Hr (c :: s) [] x); [constructor|].
    rewrite E. left. reflexivity.
Qed.

Lemma group_sat (n : nat) (m : captures) (t : str) :
  caps_sat Q m → group n m = Some t → Q n t.
Proof.
  induction 1 as [|[k w] m Hw Hm IH]; simpl; [discriminate|].
  destruct (k =? n)%nat eqn:E; [|exact IH].
  apply Nat.eqb_eq in E. subst k. intros [= <-]. exact Hw.
Qed.

(** What [re.search] hands out as group [n]. *)
Lemma search_group r (s : str) (m : captures) (n : nat) (t : str) :
  groups_sat Q r → search r s = Some m → group n m = Some t → Q n t.
Proof. intros Hr Hs. apply group_sat. eapply search_caps; eassumption. Qed.

End invariants.

(** Runs of one character class. *)
Lemma lang_star_chr p (t : str) : lang (Star (Chr p)) t → forallb p t = true.
Proof.
  intros H. remember (Star (Chr p)) as r eqn:E.
  induction H as [| | |r t1 t2 H1 _ H2 IH2| | |]; try discriminate.
  - reflexivity.
  - injection E as ->. inversion H1; subst. cbn [app forallb].
    rewrite IH2 by reflexivity. rewrite andb_true_r. assumption.
Qed.

Lemma lang_plus_chr p (t : str) :
  lang (Plus (Chr p)) t → t ≠ [] ∧ forallb p t = true.
Proof.
  intros H. inversion H as [|r1 r2 t1 t2 H1 H2| | | | |]; subst.
  inversion H1; subst. apply lang_star_chr in H2.
  split; [discriminate|]. cbn [app forallb]. rewrite H2, andb_true_r. assumption.
Qed.

Lemma rmatch_Cat r1 r2 (s : str) (caps : captures) :
  rmatch (Cat r1 r2) s caps
  = flat_map (fun x => rmatch r2 (fst x) (snd x)) (rmatch r1 s caps).
Proof. reflexivity. Qed.

Lemma rmatch_Group n r (s : str) (caps : captures) :
  rmatch (Group n r) s caps
  = List.map (fun x => (fst x, (n, take (length s - length (fst x)) s) :: snd x))
             (rmatch r s caps).
Proof. reflexivity. Qed.

Lemma rmatch_Star r (s : str) (caps : captures) :
  rmatch (Star r) s caps = star_loop (rmatch r) (length s) s caps.
Proof. reflexivity. Qed.

Lemma rmatch_Chr_cons q (c : char) (s : str) (caps : captures) :
  rmatch (Chr q) (c :: s) caps = if q c then [(s, caps)] else [].
Proof. reflexivity. Qed.

(** The head of a greedy run of one character class. *)
Lemma star_chr_head (q : char → bool) (fuel : nat) :
  ∀ (s : str) caps, (length s <= fuel)%nat →
    ∃ tl, star_loop (rmatch (Chr q)) fuel s caps = (drop_while q s, caps) :: tl.
Proof.
  induction fuel as [|f IH]; intros s caps Hlen.
  - destruct s; [|simpl in Hlen; lia]. exists []. reflexivity.
  - destruct s as [|c s]; [exists []; reflexivity|].
    cbn [star_loop drop_while].
    change (rmatch (Chr q) (c :: s) caps) with (if q c then [(s, caps)] else []).
    destruct (q c).
    + cbn [flat_map fst snd]. simpl in Hlen.
      replace (length s <? length (c :: s))%nat with true
        by (symmetry; apply Nat.ltb_lt; simpl; lia).
      destruct (IH s caps ltac:(lia)) as (tl & ->).
      eexists. rewrite app_nil_r. reflexivity.
    + exists []. reflexivity.
Qed.

End ReFacts.

(** ** The field extractors *)

Module ExtractorProofs.
Import Py Re Ext Parser Spec Inv PyFacts ReFacts.

Lemma decimals_no_minus (t : str) : forallb isdecimal t = true → no_minus t.
Proof.
  intros H. apply List.Forall_forall. intros c Hc.
  apply isdecimal_not_minus. rewrite forallb_forall in H. apply H, Hc.
Qed.

Lemma re_number_groups : groups_sat (fun _ t => no_minus t) re_number.
Proof.
  split; [|exact (conj I I)]. intros t Ht.
  inversion Ht as [|r1 r2 t1 t2 H1 H2| | | | |]; subst.
  inversion H1; subst. apply lang_star_chr in H2.
  constructor; [apply isdecimal_not_minus; assumption|].
  apply List.Forall_forall. intros d Hd.
  rewrite forallb_forall in H2. specialize (H2 d Hd).
  apply orb_true_iff in H2. destruct H2 as [H2|H2];
    [apply isdecimal_not_minus, H2 | apply isspace_not_minus, H2].
Qed.

Lemma re_rooms_groups : groups_sat (fun _ t => no_minus t) re_rooms.
Proof.
  split; [|exact (conj I I)]. split; [|exact (conj I I)].
  intros t Ht. apply lang_plus_chr in Ht. apply decimals_no_minus, Ht.
Qed.

Lemma re_floors_groups : groups_sat (fun _ t => no_minus t) re_floors.
Proof.
  split; [split; [|exact (conj I I)]|].
  - intros t Ht. apply lang_plus_chr in Ht. apply decimals_no_minus, Ht.
  - split; [exact I|]. split; [exact I|]. split; [exact I|].
    split; [|exact (conj I I)].
    intros t Ht. apply lang_plus_chr in Ht. apply decimals_no_minus, Ht.
Qed.

(** The area pattern captures a numeral. *)
Lemma re_area_groups : groups_sat (fun _ t => numeral t) re_area.
Proof.
  split; [|repeat split]. split; [|repeat split].
  intros t Ht. inversion Ht as [|r1 r2 ip rest Hip Hrest| | | | |]; subst.
  apply lang_plus_chr in Hip. destruct Hip as [Hne Hip].
  exists ip. split; [exact Hne|]. split; [exact Hip|].
  inversion Hrest as [| | | |r|r t' Hfr|]; subst.
  - left. apply app_nil_r.
  - right. inversion Hfr as [|r1 r2 t1 fp Hsep Hfp| | | | |]; subst.
    inversion Hsep as [p c Hc| | | | | |]; subst.
    apply lang_plus_chr in Hfp. destruct Hfp as [Hfne Hfp].
    exists c, fp. split; [reflexivity|]. split; [|split; assumption].
    apply orb_true_iff in Hc. destruct Hc as [Hc|Hc]; apply N.eqb_eq in Hc; auto.
Qed.

(** A captured group read by [int] is never negative. *)
Lemma group_int_nonneg r (s : str) (m : captures) (n : nat) (g : str) (v : Z) :
  groups_sat (fun _ t => no_minus t) r → search r s = Some m →
  group n m = Some g → int_of_str g = Ok v → (0 <= v)%Z.
Proof.
  intros Hr Hs Hg. apply int_of_str_nonneg.
  exact (search_group _ r s m n g Hr Hs Hg).
Qed.

Lemma digits_value_nonneg (s : str) : (0 <= digits_value s)%Z.
Proof.
  unfold digits_value.
  assert (∀ acc, (0 <= acc → 0 <= fold_left (fun a c => a * 10 + decimal_value c) s acc)%Z) as H.
  { induction s as [|c s IH]; intros acc Hacc; simpl; [exact Hacc|].
    apply IH. pose proof (decimal_value_nonneg c). lia. }
  apply H. lia.
Qed.

Lemma float_of_str_nonneg (s : str) (q : Q) :
  float_of_str s = Ok q → (0 <= q)%Q.
Proof.
  unfold float_of_str.
  destruct (take_while isdecimal s) as [|d ip]; [discriminate|].
  destruct (drop_while isdecimal s) as [|c fp].
  - intros [= <-]. unfold Qle, inject_Z. cbn [Qnum Qden].
    rewrite !Z.mul_1_r. apply digits_value_nonneg.
  - destruct (_ && _); [|discriminate].
    intros [= <-]. unfold Qle. cbn [Qnum Qden].
    rewrite Z.mul_1_r. apply digits_value_nonneg.
Qed.

(** [float] reads every numeral: the texts [split_title] hands to it
    lie inside the model of [float]. *)
Lemma replace_comma (t : str) :
  replace (u ",") (u ".") t = List.map (fun c => if c =? 44 then 46 else c) t.
Proof.
  change (replace (u ",") (u ".") t) with (replace_aux [44] [46] 0 t).
  induction t as [|c t IH]; [reflexivity|].
  cbn [replace_aux is_prefix List.map length Nat.pred].
  rewrite andb_true_r, N.eqb_sym.
  destruct (c =? 44); cbn [app]; rewrite IH; reflexivity.
Qed.

Lemma map_comma_decimals (t : str) :
  forallb isdecimal t = true →
  List.map (fun c => if c =? 44 then 46 else c) t = t.
Proof.
  induction t as [|c t IH]; [reflexivity|]. cbn [forallb List.map].
  intros H. apply andb_true_iff in H. destruct H as [Hc Ht].
  rewrite IH by exact Ht.
  destruct (c =? 44) eqn:E; [|reflexivity].
  apply N.eqb_eq in E. subst c. vm_compute in Hc. discriminate.
Qed.

Lemma span_decimals (ip rest : str) :
  forallb isdecimal ip = true →
  match rest with [] => True | c :: _ => isdecimal c = false end →
  take_while isdecimal (ip ++ rest) = ip
  ∧ drop_while isdecimal (ip ++ rest) = rest.
Proof.
  induction ip as [|d ip IH]; cbn [forallb app take_while drop_while].
  - intros _ Hrest. destruct rest as [|c rest]; [split; reflexivity|].
    cbn [take_while drop_while]. rewrite Hrest. split; reflexivity.
  - intros H Hrest. apply andb_true_iff in H. destruct H as [Hd Hip].
    rewrite Hd. destruct (IH Hip Hrest) as [-> ->]. split; reflexivity.
Qed.

Lemma ok_exists {A} (r : result A) :
  match r with Ok _ => True | Raise _ => False end → ∃ a, r = Ok a.
Proof. destruct r as [a|e]; [eauto | intros []]. Qed.

Lemma float_of_numeral (t : str) :
  numeral t → ∃ q, float_of_str (replace (u ",") (u ".") t) = Ok q.
Proof.
  intros (ip & Hne & Hip & [->|(sep & fp & -> & Hsep & Hfne & Hfp)]);
    apply ok_exists; rewrite replace_comma.
  - rewrite map_comma_decimals by exact Hip. unfold float_of_str.
    destruct (span_decimals ip [] Hip I) as [E1 E2].
    rewrite app_nil_r in E1, E2. rewrite E1, E2.
    destruct ip; [congruence | exact I].
  - rewrite map_app. cbn [List.map].
    rewrite !map_comma_decimals by assumption.
    replace (if sep =? 44 then 46 else sep) with 46
      by (destruct Hsep as [->| ->]; reflexivity).
    unfold float_of_str.
    destruct (span_decimals ip (46 :: fp) Hip eq_refl) as [E1 E2].
    unfold str, char in *. rewrite E1, E2, Hfp.
    destruct ip; [congruence|]. destruct fp; [congruence|].
    exact I.
Qed.

Section extractors.
Context `{!Lower}.

(** The area of a title whose pattern matches is what [float] reads
    from the captured numeral. *)
Lemma title_squares_float (t : str) (m : captures) (g : str) :
  search re_area t = Some m → group 1 m = Some g →
  ∃ q, float_of_str (replace (u ",") (u ".") g) = Ok q
       ∧ title_squares t = Ok q.
Proof.
  intros Hs Hg. unfold title_squares, group_str. rewrite Hs, Hg.
  destruct (float_of_numeral g) as (q & Hq).
  { exact (search_group _ re_area t m 1 g re_area_groups Hs Hg). }
  exists q. cbn [mbind result_bind]. rewrite Hq. split; reflexivity.
Qed.

Lemma in_digits_ok (s : str) : in_digits s = Ok (forallb isdigit s).
Proof. reflexivity. Qed.

Lemma refactor_time_to_metro_total (s : str) :
  ∃ n, refactor_time_to_metro s = Ok n ∧ (0 <= n)%Z.
Proof.
  unfold refactor_time_to_metro.
  destruct (for_each _ _ _) as [r|e] eqn:E; simpl.
  - exists r. split; [reflexivity|].
    revert E. apply (for_each_invariant (fun r => (0 <= r)%Z)); [|lia].
    intros res t res' Hres. rewrite in_digits_ok. simpl.
    destruct (forallb isdigit t); [|intros [= <-]; exact Hres].
    destruct (int_of_str t) as [d|]; simpl; [|discriminate].
    intros [= <-]. destruct (d >? res)%Z eqn:Ed; lia.
  - exists 0%Z. split; [reflexivity | lia].
Qed.

Lemma amount_or_nonneg (p : str) (old v : Z) :
  (0 <= old)%Z → amount_or p old = Ok v → (0 <= v)%Z.
Proof.
  intros Hold. unfold amount_or.
  destruct (search re_number p) as [m|] eqn:Es; [|intros [= <-]; exact Hold].
  unfold group_str. destruct (group 1 m) as [g|] eqn:Eg; simpl; [|discriminate].
  destruct (int_of_str _) as [w|e] eqn:Ei; simpl.
  - intros [= <-]. eapply int_of_str_nonneg; [|exact Ei].
    apply Forall_replace; [constructor|].
    exact (search_group _ re_number p m 1 g re_number_groups Es Eg).
  - destruct e; simpl; try discriminate. intros [= <-]. exact Hold.
Qed.

Lemma split_add_clause_nonneg (acc acc' : Z * Z) (p : str) :
  (0 <= fst acc ∧ 0 <= snd acc)%Z → split_add_clause acc p = Ok acc' →
  (0 <= fst acc' ∧ 0 <= snd acc')%Z.
Proof.
  intros [Hd Hc]. unfold split_add_clause.
  set (q := replace [160] (u " ") (strip p)).
  set (dep := if contains (u "без залога") (lower q) then _ else _).
  set (com := if contains (u "без комиссии") (lower q) then _ else _).
  destruct dep as [d|] eqn:Ed; simpl; [|discriminate].
  destruct com as [c|] eqn:Ec; simpl; [|discriminate].
  intros [= <-]. simpl. split.
  - unfold dep in Ed.
    destruct (contains (u "без залога") _) in Ed; [injection Ed as <-; lia|].
    destruct (contains (u "залог") _) in Ed; [|injection Ed as <-; exact Hd].
    eapply amount_or_nonneg; [exact Hd | exact Ed].
  - unfold com in Ec.
    destruct (contains (u "без комиссии") _) in Ec; [injection Ec as <-; lia|].
    destruct (contains (u "комис") _) in Ec; [|injection Ec as <-; exact Hc].
    eapply amount_or_nonneg; [exact Hc | exact Ec].
Qed.

Lemma split_add_total (s : str) :
  ∃ d c, split_add s = Ok (d, c) ∧ (0 <= d)%Z ∧ (0 <= c)%Z.
Proof.
  unfold split_add.
  destruct (for_each _ _ _) as [[d c]|e] eqn:E; simpl.
  - exists d, c. split; [reflexivity|].
    revert E.
    apply (for_each_invariant (fun a : Z * Z => (0 <= fst a ∧ 0 <= snd a)%Z) split_add_clause).
    + intros a p a' Ha Hb. eapply split_add_clause_nonneg; eassumption.
    + simpl. lia.
  - exists 0%Z, 0%Z. repeat split; lia.
Qed.

Lemma only_ValueError_ok {A} (dflt : A) (e : exn) (a : A) :
  only_ValueError dflt e = Ok a → a = dflt.
Proof. destruct e; simpl; congruence. Qed.

Lemma title_squares_nonneg (t : str) (q : Q) :
  title_squares t = Ok q → (0 <= q)%Q.
Proof.
  unfold title_squares.
  destruct (search re_area t) as [m|]; [|intros [= <-]; apply Qle_refl].
  destruct (group_str 1 m AttributeError) as [g|]; simpl; [|discriminate].
  destruct (float_of_str _) as [w|e] eqn:Ef; simpl.
  - intros [= <-]. eapply float_of_str_nonneg, Ef.
  - intros Hq. apply only_ValueError_ok in Hq. subst q. apply Qle_refl.
Qed.

Lemma title_rooms_nonneg (t : str) (r : Z) :
  title_rooms t = Ok r → (0 <= r)%Z.
Proof.
  unfold title_rooms, group_str.
  destruct (contains _ _); [intros [= <-]; lia|].
  destruct (search re_rooms t) as [m|] eqn:Es; [|intros [= <-]; lia].
  destruct (group 1 m) as [g|] eqn:Eg; simpl; [|discriminate].
  destruct (int_of_str g) as [v|e] eqn:Ei; simpl.
  - intros [= <-].
    eapply group_int_nonneg; [apply re_rooms_groups | exact Es | exact Eg | exact Ei].
  - intros Hr. apply only_ValueError_ok in Hr. lia.
Qed.

Lemma title_floors_nonneg (t : str) (a h : Z) :
  title_floors t = Ok (a, h) → (0 <= a)%Z ∧ (0 <= h)%Z.
Proof.
  unfold title_floors, group_str.
  destruct (search re_floors t) as [m|] eqn:Es; [|intros [= <- <-]; lia].
  destruct (group 1 m) as [g1|] eqn:Eg1; simpl; [|discriminate].
  destruct (int_of_str g1) as [v1|e1] eqn:Ei1; simpl.
  - assert (0 <= v1)%Z as Hv1.
    { eapply group_int_nonneg;
        [apply re_floors_groups | exact Es | exact Eg1 | exact Ei1]. }
    destruct (group 2 m) as [g2|] eqn:Eg2; simpl; [|discriminate].
    destruct (int_of_str g2) as [v2|e2] eqn:Ei2; simpl.
    + intros [= <- <-]. split; [exact Hv1|].
      eapply group_int_nonneg;
        [apply re_floors_groups | exact Es | exact Eg2 | exact Ei2].
    + destruct (only_ValueError 0%Z e2) as [w|] eqn:Ew; simpl; [|discriminate].
      apply only_ValueError_ok in Ew. intros [= <- <-]. lia.
  - destruct (only_ValueError None e1) as [w|] eqn:Ew; simpl; [|discriminate].
    apply only_ValueError_ok in Ew. subst w. intros [= <- <-]. lia.
Qed.

Lemma split_title_total (s : str) :
  ∃ r a f h, split_title s = Ok (r, a, f, h)
             ∧ (0 <= r)%Z ∧ (0 <= a)%Q ∧ (0 <= f)%Z ∧ (0 <= h)%Z.
Proof.
  unfold split_title.
  set (t := replace [160] (u " ") _).
  destruct (title_squares t) as [q|] eqn:Eq; simpl;
    [|exists 0%Z, 0%Q, 0%Z, 0%Z; repeat split; (lia || apply Qle_refl)].
  destruct (title_rooms t) as [r|] eqn:Er; simpl;
    [|exists 0%Z, 0%Q, 0%Z, 0%Z; repeat split; (lia || apply Qle_refl)].
  destruct (title_floors t) as [[a h]|] eqn:Ef; simpl;
    [|exists 0%Z, 0%Q, 0%Z, 0%Z; repeat split; (lia || apply Qle_refl)].
  exists r, q, a, h. split; [reflexivity|].
  apply title_squares_nonneg in Eq. apply title_rooms_nonneg in Er.
  apply title_floors_nonneg in Ef. tauto.
Qed.


End extractors.

(** *** [in_digits] *)

Lemma in_digits_true_iff (text : str) :
  in_digits text = Ok true ↔ ∀ c, In c text → isdigit c = true.
Proof.
  rewrite in_digits_ok. rewrite <- forallb_forall.
  split; [intros [= ->]; reflexivity | intros ->; reflexivity].
Qed.

(** On Basic Latin the digits of [isdigit] are the ten decimal digits
    0..9. *)
Lemma isdigit_ascii (c : char) :
  c < 178 → isdigit c = (48 <=? c) && (c <=? 57).
Proof.
  intros Hc. unfold isdigit, isdecimal, in_ranges.
  cbv [decimal_ranges digit_only_ranges existsb fst snd].
  repeat match goal with
         | |- context [(?lo <=? c)] =>
           lazymatch lo with
           | 48 => fail
           | _ => rewrite (proj2 (N.leb_gt lo c)) by lia
           end
         end.
  cbn [andb orb]. rewrite !orb_false_r. reflexivity.
Qed.

(** C9, as the code has it.  [in_digits] returns, and it returns true
    exactly when every character is a digit in the sense of
    [str.isdigit]: a decimal digit of any script or another Unicode
    digit character such as a superscript; below U+00B2 these are the
    ten digits 0..9.  On the empty text it is true, on "12a" false and
    on "007" true. *)
Theorem in_digits_isdigit (text : str) :
  (∃ b : bool, in_digits text = Ok b
               ∧ (b = true ↔ ∀ c, In c text → isdigit c = true))
  ∧ (∀ c, isdecimal c = true → isdigit c = true)
  ∧ (∀ c, c < 178 → isdigit c = (48 <=? c) && (c <=? 57))
  ∧ in_digits (u "") = Ok true
  ∧ in_digits (u "12a") = Ok false
  ∧ in_digits (u "007") = Ok true.
Proof.
  split.
  { exists (forallb isdigit text). split; [apply in_digits_ok|].
    rewrite <- in_digits_true_iff, in_digits_ok.
    split; [intros ->; reflexivity | intros [= ->]; reflexivity]. }
  split; [exact isdecimal_isdigit|].
  split; [exact isdigit_ascii|].
  repeat split; vm_compute; reflexivity.
Qed.

(** C9, against the claim as it is worded: the superscript two is no
    decimal digit, and [in_digits] accepts the text made of it. *)
Lemma in_digits_superscript_two :
  in_digits (u "²") = Ok true ∧ forallb isdecimal (u "²") = false.
Proof. split; vm_compute; reflexivity. Qed.

(** *** [refactor_time_to_metro] *)

Lemma time_loop_max (l : list str) :
  (∀ t, In t l → forallb isdigit t = true → ∃ v, int_of_str t = Ok v) →
  ∀ res, (0 <= res)%Z →
    for_each (fun res t =>
                d ← in_digits t;
                if d : bool
                then (tdigit ← int_of_str t;
                      Ok (if (tdigit >? res)%Z then tdigit else res))
                else Ok res) l res
    = Ok (Z.max res (max_or_zero (omap token_value l))).
Proof.
  induction l as [|t l IH]; intros Hl res Hres.
  - change (omap token_value []) with (@nil Z).
    unfold max_or_zero. cbn [for_each fold_right]. f_equal. lia.
  - change (omap token_value (t :: l))
      with (match token_value t with
            | Some y => y :: omap token_value l
            | None => omap token_value l
            end).
    cbn [for_each]. rewrite in_digits_ok. unfold token_value at 1.
    cbn [mbind result_bind].
    destruct (forallb isdigit t) eqn:Et.
    + destruct (Hl t (or_introl eq_refl) Et) as (v & Ev). rewrite Ev.
      cbn [mbind result_bind].
      rewrite IH; [|intros; apply Hl; [right|]; assumption|
                    destruct (v >? res)%Z eqn:E; lia].
      f_equal. unfold max_or_zero. cbn [fold_right].
      destruct (v >? res)%Z eqn:E; lia.
    + cbn [mbind result_bind].
      rewrite IH; [reflexivity | intros; apply Hl; [right|]; assumption | exact Hres].
Qed.

(** Where [int] reads every token that [in_digits] lets through, the
    result is the largest of the numbers read, or 0. *)
Lemma refactor_time_to_metro_max (text : str) :
  (∀ t, In t (tokens text) → forallb isdigit t = true → ∃ v, int_of_str t = Ok v) →
  refactor_time_to_metro text = Ok (max_or_zero (omap token_value (tokens text))).
Proof.
  intros H. unfold refactor_time_to_metro.
  change (split_ws (replace (u "–") (u " ") text)) with (tokens text).
  rewrite (time_loop_max _ H 0%Z ltac:(lia)). cbn [try_except]. f_equal.
  assert (∀ l, (0 <= max_or_zero l)%Z) as Hm.
  { induction l; unfold max_or_zero in *; cbn [fold_right]; lia. }
  specialize (Hm (omap token_value (tokens text))). lia.
Qed.

(** C10.  On "15 ²" the tokens are "15" and "²"; [in_digits] lets both
    through, [int] reads 15 from the first and raises on the second,
    and the handler answers 0 although 15 was found.  The claim's three
    examples hold. *)
Theorem refactor_time_to_metro_superscript :
  tokens (u "15 ²") = [u "15"; u "²"]
  ∧ in_digits (u "15") = Ok true ∧ int_of_str (u "15") = Ok 15%Z
  ∧ in_digits (u "²") = Ok true ∧ int_of_str (u "²") = Raise ValueError
  ∧ refactor_time_to_metro (u "15 ²") = Ok 0%Z
  ∧ refactor_time_to_metro (u "10–15 min walk") = Ok 15%Z
  ∧ refactor_time_to_metro (u "walk") = Ok 0%Z
  ∧ refactor_time_to_metro (u "") = Ok 0%Z.
Proof. repeat split; vm_compute; reflexivity. Qed.

(** *** [split_add] *)

Lemma take_drop_while (q : char → bool) (s : str) :
  take (length s - length (drop_while q s)) s = take_while q s.
Proof.
  induction s as [|c s IH]; [reflexivity|].
  cbn [drop_while take_while]. destruct (q c).
  - assert (length (drop_while q s) <= length s)%nat as Hle.
    { clear. induction s as [|d s IH]; simpl; [lia|].
      destruct (q d); simpl; lia. }
    cbn [length]. rewrite Nat.sub_succ_l by exact Hle.
    cbn [take]. f_equal. exact IH.
  - rewrite Nat.sub_diag. reflexivity.
Qed.

(** [re.search] with the number pattern finds the first run of
    digits. *)
Lemma search_re_number (p : str) :
  search re_number p = (fun digits => [(1%nat, digits)]) <$> first_number p.
Proof.
  induction p as [|c p IH]; rewrite search_eq; [reflexivity|].
  unfold first_number. cbn [drop_while].
  unfold re_number. rewrite rmatch_Group, rmatch_Cat, rmatch_Chr_cons.
  destruct (isdecimal c) eqn:Ec; cbn [negb].
  - cbn [flat_map fst snd]. rewrite app_nil_r, rmatch_Star.
    destruct (star_chr_head (fun c => isdecimal c || isspace c) (length p) p []
                ltac:(lia)) as (tl & ->).
    cbn [List.map fst snd fmap option_fmap option_map]. do 3 f_equal.
    change (take (length (c :: p) - length (drop_while ?q p)) (c :: p))
      with (take (S (length p) - length (drop_while q p)) (c :: p)).
    assert (length (drop_while (fun c => isdecimal c || isspace c) p) <= length p)%nat as Hle.
    { clear. induction p as [|d p IH]; simpl; [lia|].
      destruct (_ || _); simpl; lia. }
    rewrite Nat.sub_succ_l by exact Hle. cbn [take]. f_equal.
    apply take_drop_while.
  - cbn [flat_map List.map]. fold re_number. rewrite IH. reflexivity.
Qed.

Section split_add.
Context `{!Lower}.

(** What the shared block computes. *)
Lemma amount_or_eq (p : str) (old : Z) :
  amount_or p old =
  Ok (match first_number p with
      | Some digits =>
        match int_of_str (replace (u " ") [] digits) with
        | Ok v => v
        | Raise _ => old
        end
      | None => old
      end).
Proof.
  unfold amount_or. rewrite search_re_number.
  destruct (first_number p) as [digits|]; [|reflexivity].
  cbn [fmap option_fmap option_map]. unfold group_str, group. cbn [Nat.eqb].
  cbn [mbind result_bind].
  destruct (int_of_str _) as [v|e] eqn:E; [reflexivity|].
  apply int_of_str_raises in E. subst e. reflexivity.
Qed.

Lemma split_add_clause_eq (acc : Z * Z) (p : str) :
  split_add_clause acc p =
  Ok (default (fst acc) (clause_sets (u "без залога") (u "залог") p),
      default (snd acc) (clause_sets (u "без комиссии") (u "комис") p)).
Proof.
  unfold split_add_clause, clause_sets. rewrite !amount_or_eq.
  set (q := replace [160] (u " ") (strip p)).
  destruct (contains (u "без залога") (lower q));
    destruct (contains (u "залог") (lower q));
    destruct (contains (u "без комиссии") (lower q));
    destruct (contains (u "комис") (lower q));
    cbn [mbind result_bind default];
    try reflexivity;
    destruct (first_number q) as [digits|]; try reflexivity;
    destruct (int_of_str _); reflexivity.
Qed.

Lemma default_last_cons (a v : Z) (l : list Z) :
  default a (last (v :: l)) = default v (last l).
Proof.
  destruct l as [|z l]; [reflexivity|].
  change (last (v :: z :: l)) with (last (z :: l)).
  assert (∃ y, last (z :: l) = Some y) as (y & ->); [|reflexivity].
  clear. revert z. induction l as [|w l IH]; intros z; [eexists; reflexivity|].
  exact (IH w).
Qed.

Lemma clauses_fold (rd rc : str → option Z) (l : list str) :
  ∀ acc : Z * Z,
    fold_left (fun a p => (default (fst a) (rd p), default (snd a) (rc p))) l acc
    = (default (fst acc) (last (omap rd l)), default (snd acc) (last (omap rc l))).
Proof.
  induction l as [|p l IH]; intros [d c]; [reflexivity|].
  cbn [fold_left]. rewrite IH. cbn [fst snd].
  change (omap rd (p :: l))
    with (match rd p with Some y => y :: omap rd l | None => omap rd l end).
  change (omap rc (p :: l))
    with (match rc p with Some y => y :: omap rc l | None => omap rc l end).
  destruct (rd p), (rc p); cbn [default]; rewrite ?default_last_cons; reflexivity.
Qed.

Lemma for_each_total {A S} (f : S → A → S) (body : S → A → result S)
  (l : list A) :
  (∀ s a, body s a = Ok (f s a)) →
  ∀ s, for_each body l s = Ok (fold_left f l s).
Proof.
  intros Hb. induction l as [|a l IH]; intros s; [reflexivity|].
  cbn [for_each fold_left]. rewrite Hb. cbn [mbind result_bind]. apply IH.
Qed.

Lemma split_add_eq (text : str) :
  split_add text = Ok (split_deposit_commission text).
Proof.
  unfold split_add, split_deposit_commission, last_applicable.
  rewrite (for_each_total _ _ _ split_add_clause_eq).
  cbn [try_except]. rewrite clauses_fold. reflexivity.
Qed.

End split_add.

(** C7, as the code has it.  [split_add] cuts the text at " · " and
    goes through the clauses from the left; for each field the last
    clause that applies decides, and the field is 0 when none does.  A
    clause whose lower-cased text contains "без залога" sets the
    deposit to 0; otherwise one that contains "залог" sets it to the
    first run of digits of the clause, the blanks inside dropped,
    provided that reads as a number; the commission goes by
    "без комиссии" and "комис" in the same way.  So
    "без залога · комиссия 15 000" gives (0, 15000), "залог 30 000"
    gives (30000, 0) and the empty text (0, 0). *)
Theorem split_add_last_applicable :
  (∀ (L : Lower) (text : str),
      split_add text = Ok (split_deposit_commission text))
  ∧ @split_add Concrete.lower_basic (u "без залога · комиссия 15 000")
    = Ok (0%Z, 15000%Z)
  ∧ @split_add Concrete.lower_basic (u "залог 30 000") = Ok (30000%Z, 0%Z)
  ∧ @split_add Concrete.lower_basic (u "") = Ok (0%Z, 0%Z).
Proof.
  split; [intros L text; apply split_add_eq|].
  repeat split; vm_compute; reflexivity.
Qed.

(** C7, against the claim as it is worded: the phrases the code looks
    for are the Russian ones, so the claim's own examples come out as
    (0, 0). *)
Lemma split_add_english_clauses :
  @split_add Concrete.lower_basic (u "no deposit · commission 15 000")
    = Ok (0%Z, 0%Z)
  ∧ @split_add Concrete.lower_basic (u "deposit 30 000") = Ok (0%Z, 0%Z).
Proof. split; vm_compute; reflexivity. Qed.

End ExtractorProofs.

(** ** The record assembler and the ingestion cycle *)

Module IngestionProofs.
Import Py Re Ext Parser Spec PyFacts ExtractorProofs.

Section assembler.
Context `{!Lower, !UrlJoin}.

Lemma build_ad_malformed (g : item) : malformed g → build_ad g = Ok None.
Proof.
  intros (e & He). unfold build_ad. rewrite He.
  apply int_of_str_raises in He. subst e. reflexivity.
Qed.

Lemma item_metro_total (g : item) : ∃ m, item_metro g = Ok m.
Proof.
  unfold item_metro. destruct (item_location g !! 1%nat) as [spans|]; [|eauto].
  destruct (spans !! 2%nat) as [t|]; cbn [mbind result_bind]; [|eauto].
  destruct (refactor_time_to_metro_total t) as (n & -> & _).
  cbn [mbind result_bind]. eauto.
Qed.

Lemma price_total (s : str) :
  ∃ p, try_except (int_of_str s)
         (fun e => match e with
                   | ValueError | TypeError => Ok 0%Z
                   | _ => Raise e
                   end) = Ok p.
Proof.
  destruct (int_of_str s) as [v|e] eqn:E; cbn [try_except]; [eauto|].
  apply int_of_str_raises in E. subst e. eauto.
Qed.

(** What [build_ad] puts into the record. *)
Lemma build_ad_fields (g : item) (ad : Ad) :
  build_ad g = Ok (Some ad) →
  int_of_str (default [] (item_id g)) = Ok (ad_id ad)
  ∧ ad_title ad = default [] (item_title g)
  ∧ split_title (default [] (item_title g))
    = Ok (ad_rooms ad, ad_squares ad, ad_apart_floor ad, ad_house_floor ad)
  ∧ split_add (default [] (item_specific_params g))
    = Ok (ad_deposit ad, ad_comission ad)
  ∧ item_metro g = Ok (ad_metro ad, ad_time_to_metro ad)
  ∧ item_href g = Ok (ad_link ad).
Proof.
  unfold build_ad.
  destruct (int_of_str (default [] (item_id g))) as [v|e] eqn:Ei.
  2: { apply int_of_str_raises in Ei. subst e. discriminate. }
  destruct (split_title _) as [[[[r a] f] h]|] eqn:Et; cbn [mbind result_bind];
    [|discriminate].
  destruct (try_except _ _) as [p|]; cbn [mbind result_bind]; [|discriminate].
  destruct (split_add _) as [[d c]|] eqn:Ea; cbn [mbind result_bind];
    [|discriminate].
  destruct (item_metro g) as [[m t]|] eqn:Em; cbn [mbind result_bind];
    [|discriminate].
  destruct (item_href g) as [l|] eqn:El; cbn [mbind result_bind];
    [|discriminate].
  intros [= <-]. cbn. repeat split; reflexivity.
Qed.

Lemma build_ad_well_formed (g : item) :
  well_formed g → ∃ ad, build_ad g = Ok (Some ad).
Proof.
  intros [(v & Hv) (l & Hl)].
  enough (match build_ad g with Ok (Some _) => True | _ => False end) as Hb.
  { destruct (build_ad g) as [[ad|]|]; [eauto | destruct Hb..]. }
  unfold build_ad. rewrite Hv.
  destruct (split_title_total (default [] (item_title g)))
    as (r & a & f & h & -> & _).
  cbn [mbind result_bind].
  match goal with
  | |- context [try_except (int_of_str ?x) _] =>
    destruct (price_total x) as (p & ->)
  end.
  cbn [mbind result_bind].
  destruct (split_add_total (default [] (item_specific_params g)))
    as (d & c & -> & _).
  cbn [mbind result_bind].
  destruct (item_metro_total g) as ([m t] & ->). cbn [mbind result_bind].
  rewrite Hl. cbn [mbind result_bind]. exact I.
Qed.

End assembler.

Section batch.
Context `{!Lower, !UrlJoin, !Interval} {DB : Type} `{!AddApart DB}.

Lemma parse_item_malformed (b : batch DB) (g : item) :
  malformed g → parse_item b g = b.
Proof.
  intros Hg. unfold parse_item. rewrite build_ad_malformed by exact Hg.
  reflexivity.
Qed.

Lemma fold_parse_item_skip (l1 l2 : list item) (bad : item) (b : batch DB) :
  malformed bad →
  fold_left parse_item (l1 ++ bad :: l2) b = fold_left parse_item (l1 ++ l2) b.
Proof.
  intros Hg. rewrite !fold_left_app. cbn [fold_left].
  rewrite parse_item_malformed by exact Hg. reflexivity.
Qed.

(** With a store that takes every row made from a record, a pass over
    well-formed fragments hands over and counts one row each. *)
Lemma fold_parse_item_count (l : list item) :
  Forall well_formed l →
  (∀ ad db, snd (add_apart (ad_row ad) db) = Ok tt) →
  ∀ b : batch DB,
    added (fold_left parse_item l b) = (added b + length l)%nat
    ∧ length (passed (fold_left parse_item l b))
      = (length (passed b) + length l)%nat.
Proof.
  intros Hl Hs. induction Hl as [|g l Hg Hl IH]; intros b.
  - cbn. lia.
  - cbn [fold_left length].
    destruct (IH (parse_item b g)) as [-> ->].
    unfold parse_item. destruct (build_ad_well_formed g Hg) as (ad & ->).
    specialize (Hs ad (b_db b)).
    destruct (add_apart (ad_row ad) (b_db b)) as [db' r]. cbn in Hs. subst r.
    cbn [added passed]. rewrite length_app. cbn [length]. lia.
Qed.

(** Every row handed to [add_apart] is the row of a record built from
    one of the fragments. *)
Lemma fold_parse_item_passed (l : list item) :
  ∀ b : batch DB,
    ∀ row, In row (passed (fold_left parse_item l b)) →
      In row (passed b)
      ∨ ∃ g ad, In g l ∧ build_ad g = Ok (Some ad) ∧ row = ad_row ad.
Proof.
  induction l as [|g l IH]; intros b row Hrow; [left; exact Hrow|].
  cbn [fold_left] in Hrow. destruct (IH _ _ Hrow) as [Hb|(g' & ad & Hg & Hb & ->)].
  - unfold parse_item in Hb.
    destruct (build_ad g) as [[ad|]|] eqn:Eg; [|left; exact Hb..].
    destruct (add_apart (ad_row ad) (b_db b)) as [db' r]. cbn [passed] in Hb.
    apply in_app_iff in Hb. destruct Hb as [Hb|[<-|[]]]; [left; exact Hb|].
    right. exists g, ad. repeat split; [left; reflexivity | exact Eg].
  - right. exists g', ad. repeat split; [right; exact Hg | exact Hb].
Qed.

(** The rows that reach the store. *)
Lemma parse_items_passed (items : list item) (db : DB) (row : gmap string pyval) :
  In row (passed (parse_items items db)) →
  ∃ g ad, In g items ∧ build_ad g = Ok (Some ad) ∧ row = ad_row ad.
Proof.
  intros Hrow. unfold parse_items in Hrow.
  destruct (fold_parse_item_passed _ _ _ Hrow) as [[]|Hg]. exact Hg.
Qed.

End batch.

Lemma ad_row_dom (ad : Ad) :
  dom (ad_row ad) = ({[ "id"; "title"; "link"; "price"; "rooms" ]} : gset string).
Proof. unfold ad_row. rewrite !dom_insert_L, dom_empty_L. set_solver. Qed.

Lemma ad_row_five (ad ad' : Ad) :
  ad_id ad = ad_id ad' → ad_title ad = ad_title ad' → ad_link ad = ad_link ad' →
  ad_price ad = ad_price ad' → ad_rooms ad = ad_rooms ad' →
  ad_row ad = ad_row ad'.
Proof. intros H1 H2 H3 H4 H5. unfold ad_row. rewrite H1, H2, H3, H4, H5. reflexivity. Qed.

Lemma send_all_text (chat_id : Z) (ok : nat → bool)
  (ads : list Bot.apart) :
  ∀ k x, In x (Bot.send_all chat_id ok k ads) →
    In (snd (fst x)) ads
    ∧ snd x = Bot.message_text (Bot.a_price (snd (fst x))) (Bot.a_rooms (snd (fst x)))
                               (Bot.a_title (snd (fst x))) (Bot.a_link (snd (fst x))).
Proof.
  induction ads as [|ad ads IH]; intros k x Hx; [destruct Hx|].
  cbn [Bot.send_all] in Hx. apply in_app_iff in Hx. destruct Hx as [Hx|Hx].
  - destruct (ok k); [|destruct Hx]. destruct Hx as [<-|[]].
    split; [left; reflexivity | reflexivity].
  - destruct (IH _ _ Hx) as [Hin Ht]. split; [right; exact Hin | exact Ht].
Qed.

Lemma store_add_accepts (ad : Ad) (db : Concrete.store) :
  snd (Concrete.store_add (ad_row ad) db) = Ok tt.
Proof.
  unfold Concrete.store_add.
  assert (∃ a, Concrete.row_apart (ad_row ad) (Concrete.clock db) = Some a)
    as (a & ->) by (eexists; reflexivity).
  destruct (existsb _ _); reflexivity.
Qed.

Lemma trailing_failures_snoc (h : list bool) (b : bool) :
  trailing_failures (h ++ [b])
  = if b then S (trailing_failures h) else O.
Proof.
  unfold trailing_failures. rewrite rev_app_distr. cbn [rev app].
  destruct b; reflexivity.
Qed.

Section cycle.
Context `{!Lower, !UrlJoin, !Interval} {DB : Type} `{!AddApart DB}.

Lemma run_cycle_ok (c : cycle) (db : DB) :
  cycle_fails c = false → snd (run_cycle c db) = Ok tt.
Proof. destruct c as [[|g l]|e]; [discriminate | reflexivity | discriminate]. Qed.

Lemma run_cycle_raise (c : cycle) (db : DB) :
  cycle_fails c = true → ∃ e, snd (run_cycle c db) = Raise e.
Proof. destruct c as [[|g l]|e]; [eexists; reflexivity | discriminate | eexists; reflexivity]. Qed.

(** One turn of the [while], by the outcome of its cycle. *)
Lemma parse_loop_from_cons (n : Z) (c : cycle) (rest : list cycle) (db : DB) :
  parse_loop_from n (c :: rest) db =
  if cycle_fails c
  then if (n + 1 >=? max_consecutive_errors)%Z
       then (fst (run_cycle c db), [], Stopped RuntimeError)
       else let r := parse_loop_from (n + 1) rest (fst (run_cycle c db)) in
            (fst (fst r), PARSE_INTERVAL :: snd (fst r), snd r)
  else let r := parse_loop_from 0 rest (fst (run_cycle c db)) in
       (fst (fst r), PARSE_INTERVAL :: snd (fst r), snd r).
Proof.
  cbn [parse_loop_from]. destruct (cycle_fails c) eqn:Ec.
  - destruct (run_cycle_raise c db Ec) as (e & He).
    destruct (run_cycle c db) as [db1 r]. cbn [fst snd] in *. subst r.
    destruct (n + 1 >=? max_consecutive_errors)%Z; [reflexivity|].
    destruct (parse_loop_from (n + 1) rest db1) as [[? ?] ?]. reflexivity.
  - pose proof (run_cycle_ok c db Ec) as He.
    destruct (run_cycle c db) as [db1 r]. cbn [fst snd] in *. subst r.
    destruct (parse_loop_from 0 rest db1) as [[? ?] ?]. reflexivity.
Qed.

Lemma parse_loop_from_app (l l' : list cycle) :
  ∀ n db,
    parse_loop_from n (l ++ l') db =
    match snd (parse_loop_from n l db) with
    | Stopped e => parse_loop_from n l db
    | Idle k =>
      let r := parse_loop_from k l' (fst (fst (parse_loop_from n l db))) in
      (fst (fst r), snd (fst (parse_loop_from n l db)) ++ snd (fst r), snd r)
    end.
Proof.
  induction l as [|c l IH]; intros n db.
  - cbn. destruct (parse_loop_from n l' db) as [[? ?] ?]. reflexivity.
  - rewrite <- app_comm_cons, !parse_loop_from_cons.
    destruct (cycle_fails c).
    + destruct (n + 1 >=? max_consecutive_errors)%Z; [reflexivity|].
      cbn zeta. rewrite IH.
      destruct (parse_loop_from (n + 1) l _) as [[d sl] [e|k]]; reflexivity.
    + cbn zeta. rewrite IH.
      destruct (parse_loop_from 0 l _) as [[d sl] [e|k]]; reflexivity.
Qed.

(** What a run from the start has reached. *)
Lemma parse_loop_reached (cycles : list cycle) (db : DB) :
  match snd (parse_loop cycles db) with
  | Idle k =>
    k = Z.of_nat (trailing_failures (List.map cycle_fails cycles))
    ∧ (k < max_consecutive_errors)%Z
    ∧ snd (fst (parse_loop cycles db)) = repeat PARSE_INTERVAL (length cycles)
    ∧ (∀ i, (trailing_failures (take i (List.map cycle_fails cycles)) < 5)%nat)
  | Stopped e =>
    e = RuntimeError
    ∧ ∃ i, (i <= length cycles)%nat
           ∧ trailing_failures (take i (List.map cycle_fails cycles)) = 5%nat
           ∧ (∀ j, (j < i)%nat →
                   (trailing_failures (take j (List.map cycle_fails cycles)) < 5)%nat)
           ∧ snd (fst (parse_loop cycles db)) = repeat PARSE_INTERVAL (i - 1)
  end.
Proof.
  unfold parse_loop.
  induction cycles as [|c l IH] using rev_ind.
  - cbn. repeat split; try lia. intros i. rewrite take_nil. cbn. lia.
  - rewrite parse_loop_from_app, map_app. cbn [List.map].
    set (h := List.map cycle_fails l) in *.
    assert (length h = length l) as Hlen by apply length_map.
    destruct (snd (parse_loop_from 0 l db)) as [e|k] eqn:Est.
    + rewrite Est. destruct IH as (-> & i & Hi & H5 & Hlt & Hsl).
      split; [reflexivity|]. exists i.
      rewrite length_app. cbn [length]. split; [lia|].
      rewrite take_app_le by lia. split; [exact H5|]. split; [|exact Hsl].
      intros j Hj. rewrite take_app_le by lia. apply Hlt, Hj.
    + destruct IH as (Hk & Hk5 & Hsl & Hall).
      rewrite parse_loop_from_cons. cbn [parse_loop_from].
      assert (∀ i, (i <= length l)%nat → take i (h ++ [cycle_fails c]) = take i h)
        as Hle by (intros; apply take_app_le; lia).
      assert (∀ i, (length l < i)%nat →
                   take i (h ++ [cycle_fails c]) = h ++ [cycle_fails c])
        as Hgt by (intros; apply take_ge; rewrite length_app; cbn; lia).
      destruct (cycle_fails c) eqn:Ec.
      * destruct (k + 1 >=? max_consecutive_errors)%Z eqn:E5; cbn [fst snd].
        -- split; [reflexivity|]. exists (length (l ++ [c])).
           split; [lia|]. rewrite length_app. cbn [length].
           rewrite Hgt by lia. rewrite trailing_failures_snoc.
           unfold max_consecutive_errors in *.
           split; [lia|]. split.
           ++ intros j Hj. rewrite Hle by lia. apply Hall.
           ++ rewrite Hsl, app_nil_r. f_equal. lia.
        -- rewrite trailing_failures_snoc. unfold max_consecutive_errors in *.
           split; [lia|]. split; [lia|]. split.
           ++ rewrite Hsl, length_app. cbn [length].
              rewrite Nat.add_1_r. symmetry. apply repeat_cons.
           ++ intros i. destruct (le_lt_dec i (length l)).
              ** rewrite Hle by lia. apply Hall.
              ** rewrite Hgt by lia. rewrite trailing_failures_snoc. lia.
      * cbn [fst snd]. rewrite trailing_failures_snoc.
        unfold max_consecutive_errors in *.
        split; [reflexivity|]. split; [lia|]. split.
        -- rewrite Hsl, length_app. cbn [length].
           rewrite Nat.add_1_r. symmetry. apply repeat_cons.
        -- intros i. destruct (le_lt_dec i (length l)).
           ++ rewrite Hle by lia. apply Hall.
           ++ rewrite Hgt by lia. rewrite trailing_failures_snoc. lia.
Qed.

End cycle.

(** Against the store of the specification: a pass over well-formed
    fragments with distinct ids, none of them stored yet, adds one
    stored record for each. *)
Lemma spec_store_rows `{!Lower, !UrlJoin} (l : list item) :
  Forall well_formed l →
  ∀ b : batch Concrete.store,
    NoDup (omap item_int_id l ++ List.map Bot.a_id (Concrete.rows (b_db b))) →
    List.map Bot.a_id
      (Concrete.rows
         (b_db (fold_left (parse_item (AddApart0:=Concrete.store_add)) l b)))
    = List.map Bot.a_id (Concrete.rows (b_db b)) ++ omap item_int_id l.
Proof.
  induction 1 as [|g l Hg Hl IH]; intros b Hnd.
  - cbn. rewrite app_nil_r. reflexivity.
  - cbn [fold_left].
    destruct (build_ad_well_formed g Hg) as (ad & Hb).
    pose proof (build_ad_fields g ad Hb) as (Hid & _).
    change (omap item_int_id (g :: l))
      with (match item_int_id g with
            | Some y => y :: omap item_int_id l
            | None => omap item_int_id l
            end) in *.
    unfold item_int_id at 1 in Hnd. unfold item_int_id at 1.
    rewrite Hid in *. cbn [app] in Hnd. apply NoDup_cons in Hnd.
    destruct Hnd as [Hfresh Hnd].
    assert (Concrete.rows (b_db (parse_item (AddApart0:=Concrete.store_add) b g))
            = Concrete.rows (b_db b)
              ++ [{| Bot.a_id := ad_id ad; Bot.a_title := ad_title ad;
                     Bot.a_link := ad_link ad; Bot.a_price := ad_price ad;
                     Bot.a_rooms := ad_rooms ad;
                     Bot.created_at := Concrete.clock (b_db b) |}]) as Erows.
    { unfold parse_item. rewrite Hb.
      unfold add_apart, Concrete.store_add.
      assert (Concrete.row_apart (ad_row ad) (Concrete.clock (b_db b))
              = Some {| Bot.a_id := ad_id ad; Bot.a_title := ad_title ad;
                        Bot.a_link := ad_link ad; Bot.a_price := ad_price ad;
                        Bot.a_rooms := ad_rooms ad;
                        Bot.created_at := Concrete.clock (b_db b) |}) as ->
        by reflexivity.
      cbn [Bot.a_id].
      assert (existsb (fun r => (Bot.a_id r =? ad_id ad)%Z) (Concrete.rows (b_db b))
              = false) as ->.
      { apply not_true_is_false. intros Hex. apply existsb_exists in Hex.
        destruct Hex as (r & Hr & Er). apply Z.eqb_eq in Er.
        apply Hfresh. apply elem_of_app. right.
        apply list_elem_of_In, in_map_iff. exists r. split; assumption. }
      reflexivity. }
    rewrite IH.
    + rewrite Erows, map_app. cbn [List.map Bot.a_id].
      rewrite <- app_assoc. reflexivity.
    + rewrite Erows, map_app. cbn [List.map Bot.a_id].
      apply NoDup_app. apply NoDup_app in Hnd. destruct Hnd as (N1 & N2 & N3).
      split; [exact N1|]. split.
      * intros x Hx Hin. apply elem_of_app in Hin. destruct Hin as [Hin|Hin].
        -- exact (N2 x Hx Hin).
        -- apply list_elem_of_singleton in Hin. subst x.
           apply Hfresh. apply elem_of_app. left. exact Hx.
      * apply NoDup_app. split; [exact N3|]. split.
        -- intros x Hx Hin. apply list_elem_of_singleton in Hin. subst x.
           apply Hfresh. apply elem_of_app. right. exact Hx.
        -- apply NoDup_singleton.
Qed.

Section claims.
Context `{!Lower, !UrlJoin, !Interval} {DB : Type} `{!AddApart DB}.



(** C3.  In a run of [parse_loop] the counter stands at the number of
    cycles that failed in a row up to now: a failed cycle adds one, a
    successful one sets it back to 0.  While fewer than 5 cycles in a
    row have failed the loop goes on, and every cycle, failed or not,
    is followed by the same sleep of [PARSE_INTERVAL] seconds.  With
    the fifth failure in a row the loop raises [RuntimeError] and runs
    no further cycle. *)
Theorem ingestion_failure_counter (cycles : list cycle) (db : DB) :
  match snd (parse_loop cycles db) with
  | Idle k =>
    k = Z.of_nat (trailing_failures (List.map cycle_fails cycles))
    ∧ (k < 5)%Z
    ∧ snd (fst (parse_loop cycles db)) = repeat PARSE_INTERVAL (length cycles)
    ∧ (∀ i, (trailing_failures (take i (List.map cycle_fails cycles)) < 5)%nat)
  | Stopped e =>
    e = RuntimeError
    ∧ ∃ i, (i <= length cycles)%nat
           ∧ trailing_failures (take i (List.map cycle_fails cycles)) = 5%nat
           ∧ (∀ j, (j < i)%nat →
                   (trailing_failures (take j (List.map cycle_fails cycles)) < 5)%nat)
           ∧ snd (fst (parse_loop cycles db)) = repeat PARSE_INTERVAL (i - 1)
  end
  ∧ (∀ n c rest d, cycle_fails c = false →
       parse_loop_from n (c :: rest) d
       = let r := parse_loop_from 0 rest (fst (run_cycle c d)) in
         (fst (fst r), PARSE_INTERVAL :: snd (fst r), snd r))
  ∧ (∀ n c rest d, cycle_fails c = true → (n + 1 < 5)%Z →
       parse_loop_from n (c :: rest) d
       = let r := parse_loop_from (n + 1) rest (fst (run_cycle c d)) in
         (fst (fst r), PARSE_INTERVAL :: snd (fst r), snd r))
  ∧ (∀ n c rest d, cycle_fails c = true → (5 <= n + 1)%Z →
       parse_loop_from n (c :: rest) d
       = (fst (run_cycle c d), [], Stopped RuntimeError)).
Proof.
  split; [exact (parse_loop_reached cycles db)|].
  split; [|split]; intros n c rest d Hc; rewrite parse_loop_from_cons, Hc.
  - reflexivity.
  - intros Hn. unfold max_consecutive_errors.
    destruct (n + 1 >=? 5)%Z eqn:E; [lia | reflexivity].
  - intros Hn. unfold max_consecutive_errors.
    destruct (n + 1 >=? 5)%Z eqn:E; [reflexivity | lia].
Qed.

End claims.

End IngestionProofs.

(** ** The subscriber registry and the notification loop *)

Module BotProofs.
Import Py Ext Bot Spec.
Local Open Scope Z_scope.

(** *** The registry *)

Lemma state_of_update (c : Z) (f : UserState → UserState) (w : world) :
  state_of c (update_state c f w) = f (state_of c w).
Proof.
  unfold state_of, update_state, get_state.
  destruct (user_states w !! c) as [st|] eqn:E; cbn [user_states fst snd];
    rewrite lookup_insert_eq; reflexivity.
Qed.

Lemma state_of_update_ne (c c' : Z) (f : UserState → UserState) (w : world) :
  c ≠ c' → state_of c' (update_state c f w) = state_of c' w.
Proof.
  intros Hne. unfold state_of, update_state, get_state.
  destruct (user_states w !! c) as [st|] eqn:E; cbn [user_states fst snd];
    rewrite !lookup_insert_ne by exact Hne;
    destruct (user_states w !! c'); reflexivity.
Qed.

Lemma delivered_update (c : Z) f (w : world) :
  delivered (update_state c f w) = delivered w.
Proof. unfold update_state. destruct (get_state _ _). reflexivity. Qed.

Lemma tasks_update (c : Z) f (w : world) :
  tasks (update_state c f w) = tasks w.
Proof. unfold update_state. destruct (get_state _ _). reflexivity. Qed.

Lemma state_of_touch (c c' : Z) (w : world) :
  state_of c' (update_state c (fun st => st) w) = state_of c' w.
Proof.
  destruct (decide (c = c')) as [->|Hne];
    [apply state_of_update | apply state_of_update_ne, Hne].
Qed.

Lemma state_of_spawn (c : Z) (t : task) (w : world) :
  state_of c (spawn t w) = state_of c w.
Proof. reflexivity. Qed.

(** *** Commands *)

Lemma on_callback_start (c : Z) (now : Z) (tg_ok : bool) (w : world) :
  searching (state_of c w) = false →
  searching (state_of c (on_callback c "start_search" now tg_ok w)) = true
  ∧ watermark c (on_callback c "start_search" now tg_ok w)
    = Some (now - one_minute).
Proof.
  intros Hs. unfold on_callback, watermark. cbn [String.eqb Ascii.eqb Bool.eqb].
  rewrite state_of_touch, Hs.
  destruct tg_ok; rewrite ?state_of_spawn, !state_of_update; split; reflexivity.
Qed.

Lemma on_callback_start_searching (c : Z) (now : Z) (tg_ok : bool) (w : world) :
  searching (state_of c (on_callback c "start_search" now tg_ok w)) = true.
Proof.
  destruct (searching (state_of c w)) eqn:Hs.
  - unfold on_callback. cbn [String.eqb Ascii.eqb Bool.eqb].
    rewrite state_of_touch, Hs, state_of_touch. exact Hs.
  - apply on_callback_start, Hs.
Qed.

Lemma on_callback_stop (c : Z) (now : Z) (tg_ok : bool) (w : world) :
  searching (state_of c (on_callback c "stop_search" now tg_ok w)) = false.
Proof.
  unfold on_callback. cbn [String.eqb Ascii.eqb Bool.eqb].
  rewrite state_of_touch.
  destruct (searching (state_of c w)) eqn:Hs; cbn [negb].
  - rewrite state_of_update. reflexivity.
  - rewrite state_of_touch. exact Hs.
Qed.

(** *** The maximum *)

Lemma max_of_ge (l : list Z) : ∀ x, x <= max_of x l.
Proof.
  unfold max_of. induction l as [|y l IH]; intros x; cbn [fold_left]; [lia|].
  specialize (IH (Z.max x y)). lia.
Qed.

Lemma max_of_is_max (l : list Z) : ∀ x, is_max (max_of x l) (x :: l).
Proof.
  unfold max_of, is_max. induction l as [|y l IH]; intros x; cbn [fold_left].
  - split; [left; reflexivity|]. intros z [<-|[]]. lia.
  - destruct (IH (Z.max x y)) as [Hin Hle]. split.
    + destruct Hin as [Hin|Hin]; [|right; right; exact Hin].
      cbn [In]. rewrite <- Hin. lia.
    + intros z [<-|[<-|Hz]].
      * specialize (Hle (Z.max x y) (or_introl eq_refl)). lia.
      * specialize (Hle (Z.max x y) (or_introl eq_refl)). lia.
      * apply Hle. right. exact Hz.
Qed.

(** *** One wake-up *)

Lemma send_all_chat (c : Z) (ok : nat → bool) (ads : list apart) :
  ∀ k x, In x (send_all c ok k ads) → fst (fst x) = c ∧ In (snd (fst x)) ads.
Proof.
  induction ads as [|ad ads IH]; intros k x Hx; [destruct Hx|].
  cbn [send_all] in Hx. apply in_app_iff in Hx. destruct Hx as [Hx|Hx].
  - destruct (ok k); [|destruct Hx]. destruct Hx as [<-|[]].
    split; [reflexivity | left; reflexivity].
  - destruct (IH _ _ Hx) as [Hc Hin]. split; [exact Hc | right; exact Hin].
Qed.

Lemma send_all_sent (c : Z) (ok : nat → bool) (ads : list apart) :
  ∀ k j ad, ads !! j = Some ad → ok (k + j)%nat = true →
    In (c, ad, message_text (a_price ad) (a_rooms ad) (a_title ad) (a_link ad))
       (send_all c ok k ads).
Proof.
  induction ads as [|a ads IH]; intros k j ad Hj Hok; [discriminate|].
  cbn [send_all]. apply in_app_iff. destruct j as [|j].
  - injection Hj as <-. rewrite Nat.add_0_r in Hok. rewrite Hok.
    left. left. reflexivity.
  - right. apply (IH (S k) j); [exact Hj|].
    rewrite <- Hok. f_equal. lia.
Qed.

Section loop.
Context {DB : Type} `{!GetNewAparts DB}.

(** What a pass does to its own subscriber, to the others, and to the
    log of notifications. *)
Lemma search_iteration_spec (c : Z) (db : DB) (ok : nat → bool) (w : world) :
  tasks (search_iteration c db ok w) = tasks w
  ∧ (∀ c', c' ≠ c → state_of c' (search_iteration c db ok w) = state_of c' w)
  ∧ match fetch c db w with
    | Ok (ad :: rest) =>
      state_of c (search_iteration c db ok w)
      = set_since (Some (max_of (created_at ad) (List.map created_at rest)))
                  (state_of c w)
      ∧ delivered (search_iteration c db ok w)
        = delivered w ++ send_all c ok 0 (ad :: rest)
    | _ => search_iteration c db ok w = w
    end.
Proof.
  unfold search_iteration.
  destruct (fetch c db w) as [[|ad rest]|e];
    [repeat split; reflexivity| |repeat split; reflexivity].
  rewrite tasks_update, delivered_update, state_of_update. cbn [tasks delivered].
  repeat split. intros c' Hne. rewrite state_of_update_ne by congruence.
  reflexivity.
Qed.

Lemma search_loop_enter_spec (c : Z) (now : Z) (w : world) :
  tasks (search_loop_enter c now w) = tasks w
  ∧ delivered (search_loop_enter c now w) = delivered w
  ∧ (∀ c', c' ≠ c → state_of c' (search_loop_enter c now w) = state_of c' w)
  ∧ (since (state_of c w) ≠ None →
     state_of c (search_loop_enter c now w) = state_of c w)
  ∧ searching (state_of c (search_loop_enter c now w)) = searching (state_of c w).
Proof.
  unfold search_loop_enter. rewrite state_of_touch.
  destruct (since (state_of c w)) eqn:E.
  - rewrite tasks_update, delivered_update. repeat split.
    + intros c' _. apply state_of_touch.
    + intros _. apply state_of_touch.
    + rewrite state_of_touch. reflexivity.
  - rewrite !tasks_update, !delivered_update. repeat split.
    + intros c' Hne. rewrite state_of_update_ne by congruence. apply state_of_touch.
    + intros Hn. congruence.
    + rewrite state_of_update, state_of_touch. reflexivity.
Qed.

Lemma state_of_users (c : Z) (w w' : world) :
  user_states w' = user_states w → state_of c w' = state_of c w.
Proof. intros E. unfold state_of. rewrite E. reflexivity. Qed.

(** A wake-up changes nobody's [searching], and only appends to the
    log. *)
Lemma wake_searching (i : nat) (now : Z) (db : DB) (ok : nat → bool)
  (w : world) (c : Z) :
  searching (state_of c (wake i now db ok w)) = searching (state_of c w).
Proof.
  unfold wake. destruct (tasks w !! i) as [t|]; [|reflexivity].
  set (w1 := if t_fresh t then search_loop_enter (t_chat t) now w else w).
  assert (searching (state_of c w1) = searching (state_of c w)) as E1.
  { subst w1. destruct (t_fresh t); [|reflexivity].
    destruct (search_loop_enter_spec (t_chat t) now w) as (_ & _ & Hne & _ & Hs).
    destruct (decide (c = t_chat t)) as [->|Hc]; [exact Hs|].
    rewrite Hne by exact Hc. reflexivity. }
  destruct (searching (state_of (t_chat t) w1)); [|exact E1].
  rewrite <- E1.
  destruct (search_iteration_spec (t_chat t) db ok w1) as (_ & Hne & Hit).
  change (searching (state_of c (search_iteration (t_chat t) db ok w1))
          = searching (state_of c w1)).
  destruct (decide (c = t_chat t)) as [->|Hc]; [|rewrite Hne by exact Hc; reflexivity].
  destruct (fetch (t_chat t) db w1) as [[|ad rest]|e];
    [rewrite Hit; reflexivity| |rewrite Hit; reflexivity].
  destruct Hit as [-> _]. reflexivity.
Qed.

Lemma run_app (es1 es2 : list (event (DB:=DB))) (w : world) :
  run (es1 ++ es2) w = run es2 (run es1 w).
Proof. apply fold_left_app. Qed.

(** C8.  In one pass that fetched a batch, every row whose own
    [send_message] returns is delivered, whatever becomes of the other
    sends; and the watermark moves to the largest [created_at] of the
    batch just as it does when every send returns and when none
    does. *)
Theorem delivery_failures_isolated (c : Z) (db : DB) (ok : nat → bool)
  (w : world) (ad : apart) (rest : list apart) :
  fetch c db w = Ok (ad :: rest) →
  (∀ j a, (ad :: rest) !! j = Some a → ok j = true →
     In (c, a, message_text (a_price a) (a_rooms a) (a_title a) (a_link a))
        (delivered (search_iteration c db ok w)))
  ∧ (∃ m, watermark c (search_iteration c db ok w) = Some m
          ∧ is_max m (List.map created_at (ad :: rest)))
  ∧ watermark c (search_iteration c db ok w)
    = watermark c (search_iteration c db (fun _ => true) w)
  ∧ watermark c (search_iteration c db ok w)
    = watermark c (search_iteration c db (fun _ => false) w).
Proof.
  intros Hf. unfold watermark.
  pose proof (search_iteration_spec c db ok w) as (_ & _ & Hit).
  pose proof (search_iteration_spec c db (fun _ => true) w) as (_ & _ & Hit1).
  pose proof (search_iteration_spec c db (fun _ => false) w) as (_ & _ & Hit0).
  rewrite Hf in Hit, Hit1, Hit0.
  destruct Hit as [Es Ed], Hit1 as [Es1 _], Hit0 as [Es0 _].
  rewrite Es, Es1, Es0. repeat split.
  - intros j a Hj Hok. rewrite Ed. apply in_app_iff. right.
    apply (send_all_sent c ok (ad :: rest) 0 j a Hj Hok).
  - eexists. split; [reflexivity | apply max_of_is_max].
Qed.

End loop.

(** The store of the specification keeps its promise. *)
Lemma in_take_in {A} (x : A) (l : list A) :
  ∀ n, In x (take n l) → In x l.
Proof.
  induction l as [|b l IH]; intros [|n] Hin; cbn in Hin; try tauto.
  destruct Hin as [<-|Hin]; [left; reflexivity | right; eapply IH, Hin].
Qed.

Lemma in_insert_by_time (a b : apart) (l : list apart) :
  In a (Concrete.insert_by_time b l) → a = b ∨ In a l.
Proof.
  induction l as [|d l IH]; cbn [Concrete.insert_by_time].
  - intros [<-|[]]. left. reflexivity.
  - destruct (created_at b <=? created_at d).
    + intros [<-|Hin]; [left; reflexivity | right; exact Hin].
    + intros [<-|Hin]; [right; left; reflexivity|].
      destruct (IH Hin) as [->|Hl]; [left; reflexivity | right; right; exact Hl].
Qed.

Lemma in_sort_by_time (a : apart) (l : list apart) :
  In a (Concrete.sort_by_time l) → In a l.
Proof.
  induction l as [|b l IH]; [intros []|].
  cbn [Concrete.sort_by_time fold_right]. intros Hin.
  apply in_insert_by_time in Hin.
  destruct Hin as [->|Hin]; [left; reflexivity | right; apply IH, Hin].
Qed.

Lemma store_query_newer mn mx rs t limit (db : Concrete.store) ads :
  Concrete.store_query mn mx rs (Some t) limit db = Ok ads →
  Forall (fun a => t < created_at a) ads.
Proof.
  unfold Concrete.store_query. intros [= <-]. apply List.Forall_forall.
  intros a Ha. apply in_take_in, in_sort_by_time, filter_In in Ha.
  destruct Ha as [_ Hf]. unfold Concrete.matches in Hf.
  apply andb_true_iff in Hf. destruct Hf as [Hf _].
  apply andb_true_iff in Hf. destruct Hf as [Hf _].
  apply andb_true_iff in Hf. destruct Hf as [Hf _]. lia.
Qed.

End BotProofs.

(** ** The theorems at work on concrete runs *)

Module Examples.
Import Py Ext Parser Bot Spec Concrete.
Local Open Scope Z_scope.

#[local] Existing Instance lower_basic.
#[local] Existing Instance urljoin_origin.
#[local] Existing Instance five_minutes.
#[local] Existing Instance store_add.
#[local] Existing Instance store_query.

(** C2, against the claim as it is worded: the listing observed at
    second 990 is delivered before the stop; the second start, at
    second 1020, puts the watermark at second 960, and the next pass
    delivers the same listing once more. *)
Lemma restart_redelivers :
  delivered (run [start_1000; wake_1000; stop_1010] no_subscribers)
    = [notice_990]
  ∧ watermark 7 (run [start_1000; wake_1000; stop_1010] no_subscribers)
    = Some 990000000
  ∧ watermark 7 (run [start_1000; wake_1000; stop_1010; start_1020] no_subscribers)
    = Some 960000000
  ∧ delivered (run [start_1000; wake_1000; stop_1010; start_1020; wake_1020]
                   no_subscribers)
    = [notice_990; notice_990].
Proof. repeat split; vm_compute; reflexivity. Qed.

(** C8 at work: a pass in which every send fails still moves the
    watermark to the [created_at] of the listing fetched. *)
Lemma delivery_failures_isolated_witness :
  ∃ m, watermark 7 (search_iteration 7 store_990 none_sent
                      (run [start_1000] no_subscribers)) = Some m
       ∧ is_max m [created_at listing_990].
Proof.
  exact (proj1 (proj2 (@BotProofs.delivery_failures_isolated store store_query
                         7 store_990 none_sent
                         (run [start_1000] no_subscribers)
                         listing_990 [] eq_refl))).
Defined.



(** The records built from the sample fragments, and what of them
    reaches the store. *)
Example build_flat_101 :
  build_ad flat_101
  = Ok (Some {| ad_id := 101; ad_title := u "2-к квартира, 60 м², 7/12 эт.";
                ad_link := u "https://www.avito.ru/moskva/kvartiry/101";
                ad_price := 45000; ad_comission := 0; ad_squares := 60;
                ad_apart_floor := 7; ad_house_floor := 12; ad_rooms := 2;
                ad_deposit := 30000; ad_metro := u "Сокольники";
                ad_time_to_metro := 15 |}).
Proof. vm_compute. reflexivity. Qed.

Example ingestion_stops_at_five :
  parse_loop [Raise OtherError; Ok [flat_101]; Raise OtherError; Ok [];
              Raise OtherError; Raise OtherError; Ok []; Ok [flat_102]]
             empty_store
  = ({| rows := rows (b_db (parse_items [flat_101] empty_store));
        clock := 1000000 |},
     [300; 300; 300; 300; 300; 300], Stopped RuntimeError).
Proof. vm_compute. reflexivity. Qed.

(** The assertions of the repository's [test.py] on the extractors. *)
Example test_in_digits :
  in_digits (u "12345") = Ok true ∧ in_digits (u "0") = Ok true
  ∧ in_digits (u "123abc") = Ok false ∧ in_digits (u "12 34") = Ok false.
Proof. repeat split; vm_compute; reflexivity. Qed.

Example test_refactor_time_to_metro :
  refactor_time_to_metro (u "10–15 минут") = Ok 15
  ∧ refactor_time_to_metro (u "5 мин") = Ok 5
  ∧ refactor_time_to_metro (u "пешком") = Ok 0
  ∧ refactor_time_to_metro (u "") = Ok 0.
Proof. repeat split; vm_compute; reflexivity. Qed.

Example test_split_add :
  split_add (u "залог 30 000 · комиссия 15 000") = Ok (30000, 15000)
  ∧ split_add (u "залог 50000") = Ok (50000, 0)
  ∧ split_add (u "") = Ok (0, 0)
  ∧ split_add (u "какой-то текст") = Ok (0, 0).
Proof. repeat split; vm_compute; reflexivity. Qed.

Example test_split_title :
  split_title (u "2-к квартира, 60 м², 7/12 эт.") = Ok (2, 60%Q, 7, 12)
  ∧ split_title (u "Студия, 25 м², 5/10 эт.") = Ok (0, 25%Q, 5, 10)
  ∧ split_title (u "") = Ok (0, 0%Q, 0, 0)
  ∧ split_title (u "квартира") = Ok (0, 0%Q, 0, 0).
Proof. repeat split; vm_compute; reflexivity. Qed.

End Examples.

(** ** Further properties of [parser.py] *)

Module ParserMore.
Import Py Re Ext Parser Spec Inv PyFacts ReFacts ExtractorProofs.

(** *** [int] on plain decimal numerals *)

Lemma strip_with_id (p : char → bool) (s : str) :
  Forall (fun c => p c = false) s → strip_with p s = s.
Proof.
  intros H. unfold strip_with.
  assert (∀ t : str, Forall (fun c => p c = false) t → drop_while p t = t) as Hd.
  { intros t Ht. destruct Ht as [|c t Hc Ht]; [reflexivity|].
    cbn [drop_while]. rewrite Hc. reflexivity. }
  rewrite (Hd s H), Hd by (apply Forall_rev, H). apply rev_involutive.
Qed.

Lemma int_digits_decimals (s : str) :
  Forall (fun c => isdecimal c = true) s →
  ∀ acc n, int_digits acc n true s
           = Some (fold_left (fun a c => (a * 10 + decimal_value c)%Z) s acc,
                   (n + length s)%nat).
Proof.
  induction 1 as [|c s Hc Hs IH]; intros acc n; cbn [int_digits fold_left length].
  - rewrite Nat.add_0_r. reflexivity.
  - rewrite Hc, IH. do 2 f_equal. lia.
Qed.

(** A non-empty run of at most 4300 decimal digits, none of them
    counting as a blank, reads as the number it denotes. *)
Lemma int_of_decimals (t : str) :
  t ≠ [] → (length t <= 4300)%nat →
  Forall (fun c => isdecimal c = true) t →
  Forall (fun c => isspace c = false) t →
  int_of_str t = Ok (digits_value t).
Proof.
  intros Hne Hlen Hd Hs. unfold int_of_str.
  rewrite strip_with_id.
  2:{ eapply Forall_impl; [exact Hs|]. intros c Hc. unfold int_space.
      rewrite Hc. reflexivity. }
  destruct t as [|c t]; [congruence|].
  inversion Hd as [|? ? Hc Hd']; subst.
  assert (int_sign (c :: t) = (false, c :: t)) as ->.
  { unfold int_sign.
    destruct (c =? 43) eqn:E1; [apply N.eqb_eq in E1; subst; vm_compute in Hc; discriminate|].
    destruct (c =? 45) eqn:E2; [apply N.eqb_eq in E2; subst; vm_compute in Hc; discriminate|].
    reflexivity. }
  cbn [fst snd int_digits]. rewrite Hc, int_digits_decimals by exact Hd'.
  cbn [length] in Hlen.
  destruct (int_max_str_digits <? 1 + length t)%nat eqn:E.
  - apply Nat.ltb_lt in E. unfold int_max_str_digits in E. lia.
  - reflexivity.
Qed.

(** *** The tokens of [split()] *)

Lemma split_ws_aux_tokens (P : char → Prop) (s : str) :
  ∀ cur, Forall P cur → Forall P s →
    Forall (fun c => isspace c = false) cur →
    Forall (fun t => t ≠ [] ∧ Forall P t
                     ∧ Forall (fun c => isspace c = false) t
                     ∧ (length t <= length cur + length s)%nat)
           (split_ws_aux cur s).
Proof.
  induction s as [|c s IH]; intros cur Hcur Hs Hsp; cbn [split_ws_aux].
  - destruct cur as [|d cur]; constructor; [|constructor].
    repeat split.
    + intros E. apply (f_equal (@length _)) in E.
      rewrite length_rev in E. discriminate.
    + apply Forall_rev, Hcur.
    + apply Forall_rev, Hsp.
    + rewrite length_rev. lia.
  - inversion Hs as [|? ? Hc Hs']; subst.
    destruct (isspace c) eqn:Ec.
    + assert (Forall (fun t => t ≠ [] ∧ Forall P t
                               ∧ Forall (fun c => isspace c = false) t
                               ∧ (length t <= length cur + length (c :: s))%nat)
                     (split_ws_aux [] s)) as Hrest.
      { eapply Forall_impl; [apply (IH []); [constructor | exact Hs' | constructor]|].
        cbn [length]. intros t (? & ? & ? & ?). repeat split; [assumption..|lia]. }
      destruct cur as [|d cur]; [exact Hrest|].
      constructor; [|exact Hrest]. repeat split.
      * intros E. apply (f_equal (@length _)) in E.
        rewrite length_rev in E. discriminate.
      * apply Forall_rev, Hcur.
      * apply Forall_rev, Hsp.
      * rewrite length_rev. lia.
    + eapply Forall_impl;
        [apply (IH (c :: cur)); [constructor; assumption | exact Hs'
                                 | constructor; assumption]|].
      cbn [length]. intros t (? & ? & ? & ?). repeat split; [assumption..|lia].
Qed.

Lemma replace_char (a b : char) (t : str) :
  replace [a] [b] t = List.map (fun c => if c =? a then b else c) t.
Proof.
  unfold replace.
  induction t as [|c t IH]; [reflexivity|].
  cbn [replace_aux is_prefix length Nat.pred List.map].
  rewrite andb_true_r, (N.eqb_sym a c).
  destruct (c =? a); cbn [app]; f_equal; exact IH.
Qed.

(** The tokens [refactor_time_to_metro] looks at: each is a non-empty
    run of characters of the text without a blank. *)
Lemma tokens_of_text (P : char → Prop) (text : str) :
  P 32 → Forall P text →
  Forall (fun t => t ≠ [] ∧ Forall P t
                   ∧ Forall (fun c => isspace c = false) t
                   ∧ (length t <= length text)%nat)
         (tokens text).
Proof.
  intros Hsp Ht. unfold tokens, split_ws.
  eapply Forall_impl.
  - apply (split_ws_aux_tokens P); [constructor| |constructor].
    apply Forall_replace; [repeat constructor; exact Hsp | exact Ht].
  - cbn [length]. intros t (? & ? & ? & Hl). repeat split; [assumption..|].
    change [8211] with [8211 : char] in Hl.
    rewrite replace_char, length_map in Hl. exact Hl.
Qed.

Section decimal_tokens.
Context `{!Lower}.

Lemma omap_token_value (l : list str) :
  (∀ t, In t l → forallb isdigit t = true → int_of_str t = Ok (digits_value t)) →
  omap token_value l
  = List.map digits_value (List.filter (fun t => forallb isdigit t) l).
Proof.
  induction l as [|t l IH]; intros Hl; [reflexivity|].
  change (omap token_value (t :: l))
    with (match token_value t with
          | Some y => y :: omap token_value l
          | None => omap token_value l
          end).
  cbn [List.filter]. unfold token_value at 1.
  destruct (forallb isdigit t) eqn:Et.
  - rewrite (Hl t (or_introl eq_refl) Et). cbn [List.map]. f_equal.
    apply IH. intros; apply Hl; [right|]; assumption.
  - apply IH. intros; apply Hl; [right|]; assumption.
Qed.

(** X1.  On a text of at most 4300 characters in which every digit
    character is a decimal digit (any ASCII text, for one),
    [refactor_time_to_metro] returns the largest of the numbers that
    its all-digit tokens denote, and 0 when there is no such token. *)
Theorem refactor_time_to_metro_decimal (text : str) :
  (length text <= 4300)%nat →
  forallb (fun c => implb (isdigit c) (isdecimal c)) text = true →
  refactor_time_to_metro text
  = Ok (max_or_zero
          (List.map digits_value
                    (List.filter (fun t => forallb isdigit t) (tokens text)))).
Proof.
  intros Hlen Hdec.
  assert (∀ t, In t (tokens text) → forallb isdigit t = true →
               int_of_str t = Ok (digits_value t)) as Hint.
  { intros t Hin Hdig.
    pose proof (tokens_of_text (fun c => implb (isdigit c) (isdecimal c) = true)
                  text eq_refl) as Htok.
    rewrite forallb_forall in Hdec.
    specialize (Htok (proj2 (List.Forall_forall _ _) Hdec)).
    rewrite List.Forall_forall in Htok. specialize (Htok t Hin).
    destruct Htok as (Hne & Himp & Hsp & Hl).
    apply int_of_decimals; [exact Hne | lia | | exact Hsp].
    rewrite forallb_forall in Hdig. rewrite List.Forall_forall in Himp.
    apply List.Forall_forall. intros c Hc.
    specialize (Hdig c Hc). specialize (Himp c Hc).
    rewrite Hdig in Himp. exact Himp. }
  rewrite refactor_time_to_metro_max.
  - rewrite omap_token_value by exact Hint. reflexivity.
  - intros t Hin Hdig. eexists. apply Hint; assumption.
Qed.

End decimal_tokens.

(** *** Texts without a decimal digit *)

Lemma int_of_str_needs_decimal (s : str) (v : Z) :
  Forall (fun c => isdecimal c = false) s → int_of_str s = Ok v → False.
Proof.
  intros Hs. unfold int_of_str.
  pose proof (Forall_strip_with _ int_space s Hs) as Ht.
  assert (Forall (fun c => isdecimal c = false) (snd (int_sign (strip_with int_space s))))
    as Hd.
  { destruct (strip_with int_space s) as [|c t]; [constructor|].
    inversion Ht; subst. unfold int_sign.
    destruct (c =? 43); [assumption|]. destruct (c =? 45); assumption. }
  destruct Hd as [|c t Hc Hd]; cbn [int_digits]; [discriminate|].
  rewrite Hc, andb_false_r. discriminate.
Qed.

Lemma split_aux_pieces (P : char → Prop) (sep s : str) :
  Forall P s → ∀ skip cur, Forall P cur →
    Forall (Forall P) (split_aux sep skip cur s).
Proof.
  induction 1 as [|c s Hc Hs IH]; intros skip cur Hcur; cbn [split_aux].
  - constructor; [apply Forall_rev, Hcur | constructor].
  - destruct skip; [|apply IH, Hcur].
    destruct (is_prefix sep (c :: s)).
    + constructor; [apply Forall_rev, Hcur | apply IH; constructor].
    + apply IH. constructor; assumption.
Qed.

Lemma split_pieces (P : char → Prop) (sep s : str) :
  Forall P s → Forall (Forall P) (split sep s).
Proof. intros Hs. apply split_aux_pieces; [exact Hs | constructor]. Qed.

Lemma first_number_none (p : str) :
  Forall (fun c => isdecimal c = false) p → first_number p = None.
Proof.
  intros Hp. unfold first_number.
  assert (drop_while (fun c => negb (isdecimal c)) p = []) as ->; [|reflexivity].
  induction Hp as [|c p Hc Hp IH]; [reflexivity|].
  cbn [drop_while]. rewrite Hc. exact IH.
Qed.

Lemma search_none r (s : str) :
  (∀ (t : str) caps, match t with
                     | c :: _ => isdecimal c = false
                     | [] => True
                     end → rmatch r t caps = []) →
  Forall (fun c => isdecimal c = false) s → search r s = None.
Proof.
  intros Hr. induction 1 as [|c s Hc Hs IH]; rewrite search_eq.
  - rewrite Hr by exact I. reflexivity.
  - rewrite Hr by exact Hc. exact IH.
Qed.

Lemma rmatch_plus_decimal (t : str) (caps : captures) :
  match t with c :: _ => isdecimal c = false | [] => True end →
  rmatch (Plus (Chr isdecimal)) t caps = [].
Proof.
  intros Ht. unfold Plus. rewrite rmatch_Cat.
  destruct t as [|c t]; [reflexivity|].
  rewrite rmatch_Chr_cons, Ht. reflexivity.
Qed.

Lemma search_re_area_none (s : str) :
  Forall (fun c => isdecimal c = false) s → search re_area s = None.
Proof.
  apply search_none. intros t caps Ht. unfold re_area.
  rewrite rmatch_Cat, rmatch_Group, rmatch_Cat, rmatch_plus_decimal by exact Ht.
  reflexivity.
Qed.

Lemma search_re_rooms_none (s : str) :
  Forall (fun c => isdecimal c = false) s → search re_rooms s = None.
Proof.
  apply search_none. intros t caps Ht. unfold re_rooms.
  rewrite rmatch_Cat, rmatch_Group, rmatch_plus_decimal by exact Ht.
  reflexivity.
Qed.

Lemma search_re_floors_none (s : str) :
  Forall (fun c => isdecimal c = false) s → search re_floors s = None.
Proof.
  apply search_none. intros t caps Ht. unfold re_floors.
  rewrite rmatch_Cat, rmatch_Group, rmatch_plus_decimal by exact Ht.
  reflexivity.
Qed.

Lemma last_applicable_zero (rule : str → option Z) (l : list str) :
  Forall (fun p => rule p = Some 0%Z ∨ rule p = None) l →
  last_applicable rule l = 0%Z.
Proof.
  unfold last_applicable. intros Hl.
  assert (Forall (fun v => v = 0%Z) (omap rule l)) as Hz.
  { induction Hl as [|p l Hp Hl IH]; [constructor|].
    change (omap rule (p :: l))
      with (match rule p with Some y => y :: omap rule l | None => omap rule l end).
    destruct Hp as [-> | ->]; [constructor; [reflexivity|]|]; exact IH. }
  induction Hz as [|v l' Hv Hz IH]; [reflexivity|].
  subst v. destruct l' as [|v' l'']; [reflexivity|]. exact IH.
Qed.

Section no_digits.
Context `{!Lower}.

Lemma clause_sets_no_digits (no_kw kw p : str) :
  Forall (fun c => isdecimal c = false) p →
  clause_sets no_kw kw p = Some 0%Z ∨ clause_sets no_kw kw p = None.
Proof.
  intros Hp. unfold clause_sets.
  destruct (contains no_kw _); [left; reflexivity|].
  destruct (contains kw _); [|right; reflexivity].
  rewrite first_number_none; [right; reflexivity|].
  apply Forall_replace; [repeat constructor | apply Forall_strip_with, Hp].
Qed.

Lemma split_add_no_digits (text : str) :
  Forall (fun c => isdecimal c = false) text → split_add text = Ok (0%Z, 0%Z).
Proof.
  intros Ht. rewrite split_add_eq. unfold split_deposit_commission.
  pose proof (split_pieces _ (u " · ") text Ht) as Hp.
  rewrite !last_applicable_zero; [reflexivity|..];
    (eapply Forall_impl; [exact Hp|]; intros p Hq; apply clause_sets_no_digits, Hq).
Qed.

Lemma split_title_no_digits (text : str) :
  Forall (fun c => isdecimal c = false) text →
  split_title text = Ok (0%Z, 0%Q, 0%Z, 0%Z).
Proof.
  intros Ht. unfold split_title.
  set (t := replace [160] (u " ") _).
  assert (Forall (fun c => isdecimal c = false) t) as Hd.
  { subst t. apply Forall_replace; [repeat constructor|].
    apply Forall_replace; [constructor|]. apply Forall_replace; [constructor|].
    exact Ht. }
  unfold title_squares, title_rooms, title_floors.
  rewrite search_re_area_none, search_re_rooms_none, search_re_floors_none
    by exact Hd.
  cbn [mbind result_bind]. destruct (contains _ _); reflexivity.
Qed.

Lemma refactor_time_to_metro_no_digits (text : str) :
  Forall (fun c => isdecimal c = false) text →
  refactor_time_to_metro text = Ok 0%Z.
Proof.
  intros Ht. unfold refactor_time_to_metro.
  change (split_ws (replace (u "–") (u " ") text)) with (tokens text).
  pose proof (tokens_of_text (fun c => isdecimal c = false) text eq_refl Ht) as Htok.
  destruct (for_each _ _ _) as [r|e] eqn:E; cbn [try_except]; [|reflexivity].
  f_equal. revert E.
  generalize 0%Z. induction Htok as [|t l (_ & Hd & _) Hl IH]; intros z.
  - cbn [for_each]. congruence.
  - cbn [for_each]. rewrite in_digits_ok. cbn [mbind result_bind].
    destruct (forallb isdigit t); [|apply IH].
    destruct (int_of_str t) as [v|] eqn:Ev; cbn [mbind result_bind]; [|discriminate].
    destruct (int_of_str_needs_decimal t v Hd Ev).
Qed.


(** X4.  The two fields are told apart by the clause only: when every
    clause that names one of them names the other as well, as in
    "залог 30 000, комиссия 15 000" written with a comma, both get the
    same value. *)
Theorem split_add_shared_amount (text : str) :
  forallb (fun p0 =>
             let pl := lower (replace [160] (u " ") (strip p0)) in
             Bool.eqb (contains (u "без залога") pl) (contains (u "без комиссии") pl)
             && Bool.eqb (contains (u "залог") pl) (contains (u "комис") pl))
          (split (u " · ") text) = true →
  ∃ v, split_add text = Ok (v, v).
Proof.
  intros Hall. rewrite split_add_eq. unfold split_deposit_commission, last_applicable.
  assert (omap (clause_sets (u "без залога") (u "залог")) (split (u " · ") text)
          = omap (clause_sets (u "без комиссии") (u "комис")) (split (u " · ") text))
    as ->; [|eexists; reflexivity].
  induction (split (u " · ") text) as [|p l IH]; [reflexivity|].
  cbn [forallb] in Hall. apply andb_prop in Hall. destruct Hall as [Hp Hl].
  apply andb_prop in Hp. destruct Hp as [H1 H2].
  apply eqb_prop in H1, H2.
  change (omap ?f (p :: l))
    with (match f p with Some y => y :: omap f l | None => omap f l end).
  rewrite (IH Hl).
  assert (clause_sets (u "без залога") (u "залог") p
          = clause_sets (u "без комиссии") (u "комис") p) as ->; [|reflexivity].
  unfold clause_sets. rewrite H1, H2. reflexivity.
Qed.

End no_digits.

End ParserMore.

(** ** Further properties of the assembler and the ingestion cycle *)

Module IngestionMore.
Import Py Re Ext Parser Spec Views PyFacts ExtractorProofs IngestionProofs ParserMore.

Section assembler.
Context `{!Lower, !UrlJoin}.

Lemma build_ad_href_raises (g : item) (v : Z) (e : exn) :
  int_of_str (default [] (item_id g)) = Ok v → item_href g = Raise e →
  build_ad g = Raise e.
Proof.
  intros Hv Hl. unfold build_ad. rewrite Hv.
  destruct (split_title_total (default [] (item_title g)))
    as (r & a & f & h & -> & _).
  cbn [mbind result_bind].
  match goal with
  | |- context [try_except (int_of_str ?x) _] =>
    destruct (price_total x) as (p & ->)
  end.
  cbn [mbind result_bind].
  destruct (split_add_total (default [] (item_specific_params g)))
    as (d & c & -> & _).
  cbn [mbind result_bind].
  destruct (item_metro_total g) as ([m t] & ->). cbn [mbind result_bind].
  rewrite Hl. reflexivity.
Qed.

Lemma item_href_shape (g : item) (l : str) :
  item_href g = Ok l →
  l = [] ∨ startswith l (u "http") = true
  ∨ ∃ href, href ≠ [] ∧ urljoin (u "https://www.avito.ru") href = Ok l.
Proof.
  unfold item_href.
  destruct (match item_link g with Some a => default [] a | None => [] end)
    as [|c href] eqn:E; [intros [= <-]; left; reflexivity|].
  destruct (startswith (c :: href) (u "http")) eqn:Es; cbn [negb].
  - intros [= <-]. right. left. exact Es.
  - intros Hu. right. right. exists (c :: href). split; [discriminate | exact Hu].
Qed.

(** X5.  Whatever the fragment, the record built from it has rooms,
    area, floors, deposit, commission and minutes to the metro that
    are not negative, and its link is empty, or starts with [http], or
    is what [urljoin] made of a non-empty reference. *)
Theorem build_ad_ranges (g : item) (ad : Ad) :
  build_ad g = Ok (Some ad) →
  (0 <= ad_rooms ad)%Z ∧ (0 <= ad_squares ad)%Q
  ∧ (0 <= ad_apart_floor ad)%Z ∧ (0 <= ad_house_floor ad)%Z
  ∧ (0 <= ad_deposit ad)%Z ∧ (0 <= ad_comission ad)%Z
  ∧ (0 <= ad_time_to_metro ad)%Z
  ∧ (ad_link ad = [] ∨ startswith (ad_link ad) (u "http") = true
     ∨ ∃ href, href ≠ []
               ∧ urljoin (u "https://www.avito.ru") href = Ok (ad_link ad)).
Proof.
  intros Hb. destruct (build_ad_fields g ad Hb) as (_ & _ & Ht & Ha & Hm & Hl).
  destruct (split_title_total (default [] (item_title g)))
    as (r & a & f & h & Et & Hr & Hq & Hf & Hh).
  rewrite Et in Ht. injection Ht as <- <- <- <-.
  destruct (split_add_total (default [] (item_specific_params g)))
    as (d & c & Ea & Hd & Hc).
  rewrite Ea in Ha. injection Ha as <- <-.
  repeat (split; [assumption|]).
  split; [|apply (item_href_shape g), Hl].
  revert Hm. unfold item_metro.
  destruct (item_location g !! 1%nat) as [spans|]; [|intros [= _ <-]; lia].
  destruct (spans !! 2%nat) as [t|]; cbn [mbind result_bind];
    [|intros [= _ <-]; lia].
  destruct (refactor_time_to_metro_total t) as (n & -> & Hn).
  cbn [mbind result_bind]. intros [= _ <-]. exact Hn.
Qed.

(** X6.  A fragment that carries nothing but a readable id is not
    skipped: its record has that id, an empty title and link, price 0
    and zero in every other field. *)
Theorem build_ad_bare (id_attr : str) (v : Z) :
  int_of_str id_attr = Ok v →
  build_ad {| item_id := Some id_attr; item_title := None; item_price := None;
              item_specific_params := None; item_location := [];
              item_link := None |}
  = Ok (Some {| ad_id := v; ad_title := []; ad_link := []; ad_price := 0;
                ad_comission := 0; ad_squares := 0; ad_apart_floor := 0;
                ad_house_floor := 0; ad_rooms := 0; ad_deposit := 0;
                ad_metro := []; ad_time_to_metro := 0 |}).
Proof.
  intros Hv. unfold build_ad.
  cbn [item_id item_title item_price item_specific_params].
  change (default [] (Some id_attr)) with id_attr.
  change (default [] (@None str)) with (@nil char).
  rewrite Hv, split_title_no_digits, split_add_no_digits by constructor.
  reflexivity.
Qed.

End assembler.

Section batch.
Context `{!Lower, !UrlJoin, !Interval} {DB : Type} `{!AddApart DB}.

Lemma fold_parse_item_rows (l : list item) :
  ∀ b : batch DB,
    passed (fold_left parse_item l b) = passed b ++ rows_of l
    ∧ (added (fold_left parse_item l b) <= added b + length (rows_of l))%nat.
Proof.
  induction l as [|g l IH]; intros b; cbn [fold_left rows_of flat_map].
  - rewrite app_nil_r. split; [reflexivity | cbn; lia].
  - destruct (IH (parse_item b g)) as [-> Hle]. fold (rows_of l).
    rewrite length_app. unfold parse_item in *.
    destruct (build_ad g) as [[ad|]|]; [|split; [reflexivity | cbn [length app]; lia]..].
    destruct (add_apart (ad_row ad) (b_db b)) as [db' r].
    cbn [passed added] in *. rewrite <- app_assoc. split; [reflexivity|].
    cbn [length]. destruct r; lia.
Qed.



Lemma b_db_fold (l : list item) :
  ∀ b b' : batch DB, b_db b = b_db b' →
    b_db (fold_left parse_item l b) = b_db (fold_left parse_item l b').
Proof.
  induction l as [|g l IH]; intros b b' E; [exact E|].
  cbn [fold_left]. apply IH. unfold parse_item.
  destruct (build_ad g) as [[ad|]|]; [|exact E..].
  rewrite E. destruct (add_apart (ad_row ad) (b_db b')). reflexivity.
Qed.

Lemma parse_items_app (l1 l2 : list item) (db : DB) :
  b_db (parse_items (l1 ++ l2) db)
  = b_db (parse_items l2 (b_db (parse_items l1 db))).
Proof.
  unfold parse_items. rewrite fold_left_app. apply b_db_fold. reflexivity.
Qed.

Lemma run_cycle_store (c : cycle) (db : DB) :
  fst (run_cycle c db)
  = b_db (parse_items (match c with Ok items => items | Raise _ => [] end) db).
Proof. destruct c as [[|g items]|e]; reflexivity. Qed.

Lemma parse_loop_from_store (cycles : list cycle) :
  ∀ n db,
    fst (fst (parse_loop_from n cycles db))
    = b_db (parse_items
              (fetched (take (length (snd (fst (parse_loop_from n cycles db))))
                             cycles)) db).
Proof.
  induction cycles as [|c rest IH]; intros n db; [reflexivity|].
  rewrite parse_loop_from_cons.
  assert (∀ k, fst (fst (let r := parse_loop_from k rest (fst (run_cycle c db)) in
                         (fst (fst r), PARSE_INTERVAL :: snd (fst r), snd r)))
               = b_db (parse_items
                         (fetched
                            (take (length
                                     (snd (fst (let r := parse_loop_from k rest
                                                           (fst (run_cycle c db)) in
                                                (fst (fst r),
                                                 PARSE_INTERVAL :: snd (fst r),
                                                 snd r)))))
                                  (c :: rest))) db)) as Hgo.
  { intros k. cbn [fst snd length take fetched flat_map].
    rewrite IH. fold (fetched (take (length (snd (fst (parse_loop_from k rest
      (fst (run_cycle c db)))))) rest)).
    rewrite parse_items_app, <- run_cycle_store. reflexivity. }
  destruct (cycle_fails c) eqn:Ec; [|apply Hgo].
  destruct (n + 1 >=? max_consecutive_errors)%Z; [|apply Hgo].
  cbn [fst snd length take fetched flat_map].
  destruct c as [[|g items]|e]; [reflexivity | discriminate | reflexivity].
Qed.


End batch.

End IngestionMore.

(** ** Properties of the handlers of [bot.py] *)

Module HandlerProofs.
Import Py Ext Bot Handlers Views Spec PyFacts BotProofs ParserMore.
Local Open Scope Z_scope.

(** *** The registry *)

(** X10.  [get_state] is get-or-create: the state it returns is the
    one the registry holds afterwards, a second call returns the same
    state and registry, no other entry is touched, a chat not seen
    before gets [UserState()], and what is assigned through the state
    is what the next call returns. *)
Theorem get_state_get_or_create (c : Z) (us : gmap Z UserState) :
  snd (get_state c us) !! c = Some (fst (get_state c us))
  ∧ get_state c (snd (get_state c us)) = get_state c us
  ∧ (∀ c', c' ≠ c → snd (get_state c us) !! c' = us !! c')
  ∧ (us !! c = None → fst (get_state c us) = UserState_new)
  ∧ (∀ f w, fst (get_state c (user_states (update_state c f w)))
            = f (fst (get_state c (user_states w)))).
Proof.
  assert (snd (get_state c us) !! c = Some (fst (get_state c us))) as Hl.
  { unfold get_state. destruct (us !! c) eqn:E; cbn [fst snd];
      [exact E | apply lookup_insert_eq]. }
  split; [exact Hl|]. split; [|split; [|split]].
  - unfold get_state at 1. rewrite Hl. destruct (get_state c us); reflexivity.
  - intros c' Hne. unfold get_state. destruct (us !! c); cbn [snd];
      [reflexivity | apply lookup_insert_ne; congruence].
  - intros E. unfold get_state. rewrite E. reflexivity.
  - intros f w. exact (state_of_update c f w).
Qed.

(** *** The keyboards *)

(** X11.  Every button of the two keyboards carries callback data for
    which [on_callback] is registered; the main keyboard has the three
    buttons price, rooms and start, in this order.  The price button
    invites to set a price exactly when neither bound is set to a
    number other than 0 (so a bound of 0 is shown as no bound), and the
    rooms button invites to set the rooms exactly when no room is
    selected. *)
Theorem keyboards_buttons (st : UserState) :
  (∀ row b, In row (main_keyboard st ++ stop_keyboard) → In b row →
            In (callback_data b) registered_data)
  ∧ List.map (List.map callback_data) (main_keyboard st)
    = [["set_price"]; ["set_rooms"]; ["start_search"]]%string
  ∧ (price_text st = u "💲 Установить цену"
     ↔ truthy (min_price st) = false ∧ truthy (max_price st) = false)
  ∧ (rooms_text st = u "🏠 Установить комнаты"
     ↔ rooms st = None ∨ rooms st = Some []).
Proof.
  split; [|split; [reflexivity|split]].
  - intros row b Hrow Hb. cbn in Hrow.
    destruct Hrow as [<-|[<-|[<-|[<-|[]]]]]; destruct Hb as [<-|[]]; cbn; tauto.
  - unfold price_text.
    destruct (truthy (min_price st) || truthy (max_price st)) eqn:E.
    + split.
      * intros Heq. exfalso. revert Heq.
        generalize (join (u " ") (bound_part (u "от ") (min_price st)
                                  ++ bound_part (u "до ") (max_price st))).
        intros x Heq. vm_compute in Heq. discriminate.
      * intros [E1 E2]. rewrite E1, E2 in E. discriminate.
    + apply orb_false_elim in E. split; [intros _; exact E | reflexivity].
  - unfold rooms_text. destruct (rooms st) as [[|r l]|].
    + split; [right; reflexivity | reflexivity].
    + split.
      * intros Heq. exfalso. revert Heq. generalize (rooms_str (r :: l)).
        intros x Heq. vm_compute in Heq. discriminate.
      * intros [E|E]; discriminate.
    + split; [left; reflexivity | reflexivity].
Qed.

(** *** Reading the bounds and the rooms *)

Lemma contains_cons (sub : str) (c : char) (s : str) :
  contains sub (c :: s) = is_prefix sub (c :: s) || contains sub s.
Proof. reflexivity. Qed.

Lemma contains_char_false (a : char) (s : str) :
  contains [a] s = false → Forall (fun c => c ≠ a) s.
Proof.
  induction s as [|c s IH]; [constructor|].
  rewrite contains_cons. cbn [is_prefix]. rewrite andb_true_r.
  intros E. apply orb_false_elim in E. destruct E as [E1 E2].
  constructor; [|apply IH, E2].
  apply N.eqb_neq in E1. congruence.
Qed.

Lemma cut_at_char (a : char) (s : str) :
  ∀ cur, contains [a] s = true →
    ∃ l r, cut_at [a] cur s = Some (rev cur ++ l, r)
           ∧ Forall (fun c => c ≠ a) l ∧ s = l ++ a :: r.
Proof.
  induction s as [|c s IH]; intros cur E; [discriminate|].
  rewrite contains_cons in E. cbn [cut_at is_prefix length drop] in *.
  rewrite andb_true_r in *.
  destruct (a =? c)%N eqn:Eac.
  - apply N.eqb_eq in Eac. subst c. exists [], s.
    rewrite app_nil_r. repeat split. constructor.
  - cbn [orb] in E. destruct (IH (c :: cur) E) as (l & r & -> & Hl & ->).
    exists (c :: l), r. cbn [rev]. rewrite <- app_assoc. repeat split.
    constructor; [|exact Hl]. apply N.eqb_neq in Eac. congruence.
Qed.

Lemma int_or_None_eq (t : str) : int_or_None t = Ok (read_int t).
Proof.
  unfold int_or_None, read_int.
  destruct (int_of_str t) as [v|e] eqn:E; cbn [mbind result_bind try_except];
    [reflexivity|].
  apply int_of_str_raises in E. subst e. reflexivity.
Qed.

Lemma read_int_empty : read_int [] = None.
Proof. reflexivity. Qed.

Lemma read_int_nonneg (t : str) (n : Z) :
  Forall (fun c => c ≠ 45%N) t → read_int t = Some n → 0 <= n.
Proof.
  intros Ht. unfold read_int.
  destruct (int_of_str t) as [v|] eqn:E; [|discriminate].
  intros [= <-]. eapply int_of_str_nonneg; eassumption.
Qed.

(** The bounds that [price_bounds] reads: the text is cut at its first
    minus sign, and each side is read by [int]. *)
Lemma price_bounds_eq (raw : str) :
  (contains (u "-") raw = false ∧ Forall (fun c => c ≠ 45%N) raw
   ∧ price_bounds raw = Ok (read_int raw, None))
  ∨ (∃ l r, raw = l ++ 45%N :: r ∧ Forall (fun c => c ≠ 45%N) l
            ∧ price_bounds raw = Ok (read_int l, read_int r)).
Proof.
  unfold price_bounds. change (u "-") with ([45%N] : str).
  destruct (contains [45%N] raw) eqn:E.
  - right. destruct (cut_at_char 45%N raw [] E) as (l & r & Hc & Hl & ->).
    exists l, r. repeat split; [exact Hl|].
    unfold split_once. unfold str, char in *. rewrite Hc. cbn [rev app].
    rewrite !int_or_None_eq.
    destruct l, r; reflexivity.
  - left. repeat split; [apply contains_char_false, E|].
    rewrite int_or_None_eq. reflexivity.
Qed.

Lemma rooms_loop (l : list str) :
  ∀ acc,
    for_each (fun rooms_list part =>
                match part with
                | [] => Ok rooms_list
                | _ :: _ =>
                  try_except (val ← int_of_str part; Ok (rooms_list ++ [val]))
                             (Parser.only_ValueError rooms_list)
                end) l acc
    = Ok (acc ++ omap read_int l).
Proof.
  induction l as [|p l IH]; intros acc; cbn [for_each].
  - change (omap read_int []) with (@nil Z). rewrite app_nil_r. reflexivity.
  - change (omap read_int (p :: l))
      with (match read_int p with Some y => y :: omap read_int l
                             | None => omap read_int l end).
    destruct p as [|c p].
    + cbn [mbind result_bind]. rewrite IH, read_int_empty. reflexivity.
    + unfold read_int at 1.
      destruct (int_of_str (c :: p)) as [v|e] eqn:E;
        cbn [mbind result_bind try_except].
      * rewrite IH, <- app_assoc. reflexivity.
      * apply int_of_str_raises in E. subst e.
        cbn [Parser.only_ValueError mbind result_bind]. apply IH.
Qed.

Lemma rooms_of_eq (raw : str) :
  rooms_of raw = Ok (omap read_int (split (u ",") raw)).
Proof.
  unfold rooms_of. destruct raw as [|c raw]; [reflexivity|].
  apply (rooms_loop _ []).
Qed.

(** *** What each handler changes *)

Lemma lookup_In {A} (l : list A) (i : nat) (x : A) : l !! i = Some x → In x l.
Proof. intros E. apply list_elem_of_In. eapply list_elem_of_lookup_2. exact E. Qed.

Lemma set_since_eta (st : UserState) : set_since (since st) st = st.
Proof. destruct st; reflexivity. Qed.

Lemma only_since_refl (st : UserState) : only_since st st.
Proof. split; [symmetry; apply set_since_eta | tauto]. Qed.

Lemma only_since_eq (st st' : UserState) : st' = st → only_since st st'.
Proof. intros ->. apply only_since_refl. Qed.

Lemma only_since_trans (a b c : UserState) :
  only_since a b → only_since b c → only_since a c.
Proof.
  intros [E1 N1] [E2 N2]. split; [|tauto].
  rewrite E2 at 1. rewrite E1. reflexivity.
Qed.

Lemma only_since_set (s : option Z) (st : UserState) :
  s ≠ None → only_since st (set_since s st).
Proof. intros Hs. split; [reflexivity | intros _; exact Hs]. Qed.

Lemma only_since_ok (st st' : UserState) :
  only_since st st' → state_ok st → state_ok st'.
Proof.
  intros [E N] (H1 & H2 & H3 & H4). rewrite E. unfold state_ok.
  cbn [set_since waiting_for_price waiting_for_rooms rooms min_price searching since].
  repeat split; try assumption. intros Hs. apply N, H4, Hs.
Qed.

Lemma cmd_start_spec (c : Z) (w : world) :
  tasks (fst (cmd_start c w)) = tasks w
  ∧ delivered (fst (cmd_start c w)) = delivered w
  ∧ ∀ c', state_of c' (fst (cmd_start c w)) = state_of c' w.
Proof.
  unfold cmd_start. cbn [fst]. rewrite tasks_update, delivered_update.
  repeat split. intros c'. apply state_of_touch.
Qed.

Lemma on_message_frame (c : Z) (txt : str) (w : world) :
  tasks (fst (on_message c txt w)) = tasks w
  ∧ delivered (fst (on_message c txt w)) = delivered w
  ∧ ∀ c', c' ≠ c → state_of c' (fst (on_message c txt w)) = state_of c' w.
Proof.
  unfold on_message.
  destruct (bool_decide (txt = u "/start")).
  { destruct (cmd_start_spec c (update_state c (fun st => st) w)) as (-> & -> & Hs).
    rewrite tasks_update, delivered_update. repeat split.
    intros c' _. rewrite Hs. apply state_of_touch. }
  destruct (waiting_for_price _).
  { destruct (price_bounds _) as [[mn mx]|]; cbn [fst];
      rewrite !tasks_update, !delivered_update; repeat split;
      intros c' Hne; rewrite ?state_of_update_ne by congruence;
      reflexivity. }
  destruct (waiting_for_rooms _).
  { destruct (rooms_of _) as [l|]; cbn [fst];
      rewrite !tasks_update, !delivered_update; repeat split;
      intros c' Hne; rewrite ?state_of_update_ne by congruence;
      reflexivity. }
  cbn [fst]. rewrite tasks_update, delivered_update. repeat split.
  intros c' _. apply state_of_touch.
Qed.

Lemma on_message_state (c : Z) (txt : str) (w : world) :
  state_of c (fst (on_message c txt w)) = message_effect txt (state_of c w).
Proof.
  unfold on_message, message_effect. rewrite state_of_touch.
  destruct (bool_decide (txt = u "/start")).
  { destruct (cmd_start_spec c (update_state c (fun st => st) w)) as (_ & _ & ->).
    apply state_of_touch. }
  destruct (waiting_for_price (state_of c w)).
  { destruct (price_bounds _) as [[mn mx]|]; cbn [fst];
      rewrite !state_of_update; reflexivity. }
  destruct (waiting_for_rooms (state_of c w)).
  { destruct (rooms_of _) as [l|]; cbn [fst];
      rewrite !state_of_update; reflexivity. }
  cbn [fst]. apply state_of_touch.
Qed.

Lemma on_callback_state (c : Z) (data : string) (now : Z) (tg_ok : bool)
  (w : world) :
  state_of c (on_callback c data now tg_ok w)
  = callback_effect data now (state_of c w).
Proof.
  unfold on_callback, callback_effect. rewrite state_of_touch.
  destruct (String.eqb data "set_price"); [rewrite !state_of_update; reflexivity|].
  destruct (String.eqb data "set_rooms"); [rewrite !state_of_update; reflexivity|].
  destruct (String.eqb data "start_search").
  { destruct (searching (state_of c w)); [apply state_of_touch|].
    destruct tg_ok; rewrite ?state_of_spawn, !state_of_update; reflexivity. }
  destruct (String.eqb data "stop_search"); [|apply state_of_touch].
  destruct (searching (state_of c w)); cbn [negb];
    [rewrite !state_of_update; reflexivity | apply state_of_touch].
Qed.

Lemma on_callback_frame (c : Z) (data : string) (now : Z) (tg_ok : bool)
  (w : world) :
  delivered (on_callback c data now tg_ok w) = delivered w
  ∧ (∀ c', c' ≠ c → state_of c' (on_callback c data now tg_ok w) = state_of c' w)
  ∧ tasks (on_callback c data now tg_ok w)
    = tasks w ++ (if String.eqb data "start_search"
                     && negb (searching (state_of c w)) && tg_ok
                  then [{| t_chat := c; t_fresh := true |}] else []).
Proof.
  unfold on_callback. rewrite state_of_touch.
  assert (∀ f, delivered (update_state c f (update_state c (fun st => st) w))
               = delivered w) as Hd by (intros; rewrite !delivered_update; reflexivity).
  assert (∀ f, tasks (update_state c f (update_state c (fun st => st) w))
               = tasks w) as Ht by (intros; rewrite !tasks_update; reflexivity).
  assert (∀ f c', c' ≠ c →
            state_of c' (update_state c f (update_state c (fun st => st) w))
            = state_of c' w) as Hs.
  { intros f c' Hne. rewrite state_of_update_ne by congruence. apply state_of_touch. }
  destruct (String.eqb_spec data "set_price") as [->|_].
  { cbn [String.eqb Ascii.eqb Bool.eqb andb]. rewrite Hd, Ht, app_nil_r.
    repeat split. intros; apply Hs; assumption. }
  destruct (String.eqb_spec data "set_rooms") as [->|_].
  { cbn [String.eqb Ascii.eqb Bool.eqb andb]. rewrite Hd, Ht, app_nil_r.
    repeat split. intros; apply Hs; assumption. }
  destruct (String.eqb data "start_search").
  { destruct (searching (state_of c w)); cbn [negb andb].
    - rewrite delivered_update, tasks_update, app_nil_r. repeat split.
      intros; apply state_of_touch.
    - destruct tg_ok; unfold spawn; cbn [delivered tasks];
        rewrite ?app_nil_r, !delivered_update, !tasks_update; repeat split;
        intros c' Hne;
        (etransitivity; [|apply (state_of_touch c c' w)]);
        (etransitivity; [|apply (state_of_update_ne c c' (set_searching true)); congruence]);
        (etransitivity; [|apply (state_of_update_ne c c'
                                   (set_since (Some (now - one_minute)))); congruence]);
        reflexivity. }
  cbn [andb]. rewrite app_nil_r.
  destruct (String.eqb data "stop_search").
  - destruct (searching (state_of c w)); cbn [negb].
    + rewrite Hd, Ht. repeat split. intros; apply Hs; assumption.
    + rewrite delivered_update, tasks_update. repeat split.
      intros; apply state_of_touch.
  - rewrite delivered_update, tasks_update. repeat split.
    intros; apply state_of_touch.
Qed.

(** *** Text messages *)

Lemma bool_decide_start (txt : str) :
  txt ≠ u "/start" → bool_decide (txt = u "/start") = false.
Proof. intros Hne. apply bool_decide_eq_false. exact Hne. Qed.

(** X12.  A text message to a chat that is asked for a price always
    sets both bounds, and from the text alone: the text without its
    blanks is cut at its first minus sign and each side is read by
    [int], a side that does not read leaving its bound unset (so a
    message that does not parse clears the filter).  Reading the text
    never raises, so nothing the user writes leads to the branch that
    answers with an error.  The lower bound is never negative, a text
    without a minus sign sets no upper bound, the chat is no longer
    asked for a price, and the reply shows the state as it is after the
    change. *)
Theorem price_message (c : Z) (txt : str) (w : world) :
  txt ≠ u "/start" →
  waiting_for_price (state_of c w) = true →
  ∃ mn mx,
    price_bounds (replace (u " ") [] txt) = Ok (mn, mx)
    ∧ state_of c (fst (on_message c txt w))
      = set_waiting false (waiting_for_rooms (state_of c w))
          (set_max_price mx (set_min_price mn (state_of c w)))
    ∧ (∀ n, mn = Some n → 0 <= n)
    ∧ (contains (u "-") (replace (u " ") [] txt) = false → mx = None)
    ∧ snd (on_message c txt w)
      = price_reply (state_of c (fst (on_message c txt w))).
Proof.
  intros Hne Hw.
  assert (∃ mn mx, price_bounds (replace (u " ") [] txt) = Ok (mn, mx)
                   ∧ (∀ n, mn = Some n → 0 <= n)
                   ∧ (contains (u "-") (replace (u " ") [] txt) = false
                      → mx = None)) as (mn & mx & Hb & Hmn & Hmx).
  { destruct (price_bounds_eq (replace (u " ") [] txt))
      as [(Hc & Hm & Hb)|(l & r & Hraw & Hm & Hb)].
    - exists (read_int (replace (u " ") [] txt)), None.
      split; [exact Hb|]. split; [|reflexivity].
      intros n. apply read_int_nonneg, Hm.
    - exists (read_int l), (read_int r). split; [exact Hb|].
      split; [intros n; apply read_int_nonneg, Hm|].
      intros Hc. exfalso. rewrite Hraw in Hc. clear -Hc.
      change (u "-") with ([45%N] : str) in Hc.
      induction l as [|d l IH]; cbn [app] in Hc; rewrite contains_cons in Hc.
      + cbn in Hc. discriminate.
      + apply orb_false_elim in Hc. apply IH, Hc. }
  exists mn, mx. split; [exact Hb|].
  split; [|split; [exact Hmn|split; [exact Hmx|]]].
  - rewrite on_message_state. unfold message_effect.
    rewrite bool_decide_start, Hw, Hb by exact Hne. reflexivity.
  - unfold on_message. rewrite state_of_touch, bool_decide_start, Hw, Hb by exact Hne.
    reflexivity.
Qed.

(** X13.  A text message to a chat that is asked for rooms (and not
    for a price) sets the rooms to the numbers that [int] reads from
    the comma-separated parts of the text without its blanks, in
    order, parts that do not read being passed over; when no part
    reads, the filter is cleared.  The rooms are never left as an empty
    list, and the reply shows the state as it is after the change. *)
Theorem rooms_message (c : Z) (txt : str) (w : world) :
  txt ≠ u "/start" →
  waiting_for_price (state_of c w) = false →
  waiting_for_rooms (state_of c w) = true →
  state_of c (fst (on_message c txt w))
  = set_waiting false false
      (set_rooms
         (match omap read_int (split (u ",") (replace (u " ") [] txt)) with
          | [] => None
          | r :: l => Some (r :: l)
          end) (state_of c w))
  ∧ rooms (state_of c (fst (on_message c txt w))) ≠ Some []
  ∧ snd (on_message c txt w)
    = rooms_reply (state_of c (fst (on_message c txt w))).
Proof.
  intros Hne Hp Hr.
  assert (state_of c (fst (on_message c txt w))
          = set_waiting false false
              (set_rooms
                 (match omap read_int (split (u ",") (replace (u " ") [] txt)) with
                  | [] => None
                  | r :: l => Some (r :: l)
                  end) (state_of c w))) as Hst.
  { rewrite on_message_state. unfold message_effect.
    rewrite bool_decide_start, Hp, Hr, rooms_of_eq by exact Hne.
    cbn [set_rooms waiting_for_price]. rewrite Hp.
    destruct (omap read_int _); reflexivity. }
  split; [exact Hst|]. split.
  - rewrite Hst. cbn. destruct (omap read_int _); congruence.
  - unfold on_message.
    rewrite state_of_touch, bool_decide_start, Hp, Hr, rooms_of_eq by exact Hne.
    reflexivity.
Qed.

(** *** A range of two decimal numerals *)

Lemma in_ranges_enum (c : char) (tbl : list (N * N)) :
  in_ranges c tbl = true →
  In c (flat_map (fun r => List.map (fun k => (fst r + N.of_nat k)%N)
                                    (seq 0 (S (N.to_nat (snd r - fst r))))) tbl).
Proof.
  unfold in_ranges. induction tbl as [|[a b] tbl IH]; [discriminate|].
  cbn [existsb flat_map fst snd]. intros E. apply in_app_iff.
  apply orb_prop in E. destruct E as [E|E]; [left | right; apply IH, E].
  apply andb_prop in E. destruct E as [E1 E2].
  apply N.leb_le in E1, E2. apply in_map_iff.
  exists (N.to_nat (c - a)). split; [lia|]. apply in_seq. lia.
Qed.

Lemma isdecimal_not_space (c : char) : isdecimal c = true → isspace c = false.
Proof.
  intros Hd. destruct (isspace c) eqn:Es; [|reflexivity].
  apply in_ranges_enum in Es.
  assert (forallb (fun c => negb (isdecimal c))
            (flat_map (fun r => List.map (fun k => (fst r + N.of_nat k)%N)
                                         (seq 0 (S (N.to_nat (snd r - fst r)))))
                      space_ranges) = true) as Hall by (vm_compute; reflexivity).
  rewrite forallb_forall in Hall. specialize (Hall c Es).
  rewrite Hd in Hall. discriminate.
Qed.

Lemma replace_char_del (a : char) (t : str) :
  replace [a] [] t = List.filter (fun c => negb (c =? a)%N) t.
Proof.
  unfold replace.
  induction t as [|c t IH]; [reflexivity|].
  cbn [replace_aux is_prefix length Nat.pred List.filter].
  rewrite andb_true_r, (N.eqb_sym a c).
  destruct (c =? a)%N; cbn [negb app]; [exact IH | f_equal; exact IH].
Qed.

Lemma read_int_decimals (t : str) :
  t ≠ [] → (length t <= 4300)%nat → forallb isdecimal t = true →
  read_int t = Some (Parser.digits_value t).
Proof.
  intros Hne Hlen Hd. unfold read_int.
  rewrite forallb_forall in Hd.
  rewrite int_of_decimals; [reflexivity | exact Hne | exact Hlen | |].
  - apply List.Forall_forall. exact Hd.
  - apply List.Forall_forall. intros ch Hch. apply isdecimal_not_space, Hd, Hch.
Qed.

(** X14.  A range is read as written: when the text without its blanks
    is two runs of decimal digits (of at most 4300 digits each) with a
    minus sign between them, a chat that is asked for a price gets the
    number the first run denotes as its lower bound and the number the
    second denotes as its upper bound. *)
Theorem price_message_range (c : Z) (txt lo hi : str) (w : world) :
  waiting_for_price (state_of c w) = true →
  List.filter (fun ch => negb (ch =? 32)%N) txt = lo ++ u "-" ++ hi →
  lo ≠ [] → hi ≠ [] → (length lo <= 4300)%nat → (length hi <= 4300)%nat →
  forallb isdecimal lo = true → forallb isdecimal hi = true →
  min_price (state_of c (fst (on_message c txt w)))
    = Some (Parser.digits_value lo)
  ∧ max_price (state_of c (fst (on_message c txt w)))
    = Some (Parser.digits_value hi).
Proof.
  intros Hw Htxt Hlo Hhi Llo Lhi Dlo Dhi.
  assert (txt ≠ u "/start") as Hne.
  { intros ->. destruct lo as [|d lo]; [congruence|].
    vm_compute in Htxt. injection Htxt as <- _.
    vm_compute in Dlo. discriminate. }
  assert (Forall (fun ch => ch ≠ 45%N) lo) as Hm.
  { apply ExtractorProofs.decimals_no_minus, Dlo. }
  rewrite on_message_state. unfold message_effect.
  rewrite bool_decide_start, Hw by exact Hne.
  change (u " ") with ([32%N] : str). rewrite replace_char_del, Htxt.
  change (u "-") with ([45%N] : str). cbn [app].
  match goal with
  | |- context [price_bounds ?raw] =>
    destruct (price_bounds_eq raw) as [(_ & Hnm & _)|(l & r & Hraw & Hl & ->)]
  end.
  { exfalso. apply Forall_app in Hnm. destruct Hnm as [_ Hnm].
    inversion Hnm; congruence. }
  assert (l = lo ∧ r = hi) as [-> ->].
  { clear -Hraw Hl Hm. revert l Hraw Hl.
    induction Hm as [|d lo Hd Hm IH]; intros l Hraw Hl.
    - destruct l as [|e l]; [injection Hraw as <-; split; reflexivity|].
      injection Hraw as <- _. inversion Hl; congruence.
    - destruct l as [|e l]; [injection Hraw as -> _; congruence|].
      injection Hraw as <- Hraw. inversion Hl; subst.
      destruct (IH l Hraw) as [-> ->]; [assumption | split; reflexivity]. }
  rewrite !read_int_decimals by assumption. split; reflexivity.
Qed.

Section loop.
Context {DB : Type} `{!GetNewAparts DB}.

Lemma search_loop_enter_only (c : Z) (now : Z) (w : world) (c' : Z) :
  only_since (state_of c' w) (state_of c' (search_loop_enter c now w)).
Proof.
  destruct (decide (c' = c)) as [->|Hne].
  - unfold search_loop_enter. rewrite state_of_touch.
    destruct (since (state_of c w)) eqn:E.
    + apply only_since_eq, state_of_touch.
    + rewrite state_of_update, state_of_touch. apply only_since_set. discriminate.
  - apply only_since_eq.
    destruct (search_loop_enter_spec c now w) as (_ & _ & Hs & _). apply Hs, Hne.
Qed.

Lemma search_iteration_only (c : Z) (db : DB) (ok : nat → bool) (w : world)
  (c' : Z) :
  only_since (state_of c' w) (state_of c' (search_iteration c db ok w)).
Proof.
  destruct (search_iteration_spec c db ok w) as (_ & Hne & Hit).
  destruct (decide (c' = c)) as [->|N]; [|apply only_since_eq, Hne, N].
  destruct (fetch c db w) as [[|ad rest]|e];
    [rewrite Hit; apply only_since_refl| |rewrite Hit; apply only_since_refl].
  destruct Hit as [-> _]. apply only_since_set. discriminate.
Qed.

(** A wake-up changes nothing but watermarks, and unsets none. *)
Lemma wake_only (i : nat) (now : Z) (db : DB) (ok : nat → bool) (w : world)
  (c' : Z) :
  only_since (state_of c' w) (state_of c' (wake i now db ok w)).
Proof.
  unfold wake. destruct (tasks w !! i) as [t|]; [|apply only_since_refl].
  set (w1 := if t_fresh t then search_loop_enter (t_chat t) now w else w).
  assert (only_since (state_of c' w) (state_of c' w1)) as H1.
  { subst w1. destruct (t_fresh t);
      [apply search_loop_enter_only | apply only_since_refl]. }
  destruct (searching (state_of (t_chat t) w1)); [|exact H1].
  apply (only_since_trans _ (state_of c' w1)); [exact H1|].
  exact (search_iteration_only (t_chat t) db ok w1 c').
Qed.

(** A wake-up touches the state of the loop's subscriber only, and
    logs notifications for that subscriber only. *)
Lemma wake_subject (i : nat) (now : Z) (db : DB) (ok : nat → bool) (w : world) :
  (∀ c', t_chat <$> tasks w !! i ≠ Some c' →
         state_of c' (wake i now db ok w) = state_of c' w)
  ∧ ∃ new, delivered (wake i now db ok w) = delivered w ++ new
           ∧ Forall (fun e => t_chat <$> tasks w !! i = Some (fst (fst e))) new.
Proof.
  unfold wake. destruct (tasks w !! i) as [t|].
  2:{ split; [reflexivity|]. exists []. rewrite app_nil_r. split; constructor. }
  cbn [fmap option_fmap option_map].
  set (w1 := if t_fresh t then search_loop_enter (t_chat t) now w else w).
  assert (delivered w1 = delivered w
          ∧ ∀ c', c' ≠ t_chat t → state_of c' w1 = state_of c' w) as [Hd1 Hs1].
  { subst w1. destruct (t_fresh t); [|split; reflexivity].
    destruct (search_loop_enter_spec (t_chat t) now w) as (_ & Hd & Hs & _).
    split; [exact Hd | exact Hs]. }
  destruct (searching (state_of (t_chat t) w1)).
  - destruct (search_iteration_spec (t_chat t) db ok w1) as (_ & Hne & Hit).
    split.
    + intros c' Hc'.
      change (state_of c' (search_iteration (t_chat t) db ok w1) = state_of c' w).
      rewrite Hne by congruence. apply Hs1. congruence.
    + cbn [delivered].
      destruct (fetch (t_chat t) db w1) as [[|ad rest]|e].
      * rewrite Hit, Hd1. exists []. rewrite app_nil_r. split; constructor.
      * destruct Hit as [_ ->]. rewrite Hd1. eexists. split; [reflexivity|].
        apply List.Forall_forall. intros x Hx.
        apply send_all_chat in Hx. destruct Hx as [-> _]. reflexivity.
      * rewrite Hit, Hd1. exists []. rewrite app_nil_r. split; constructor.
  - split.
    + intros c' Hc'. change (state_of c' w1 = state_of c' w). apply Hs1. congruence.
    + cbn [delivered]. rewrite Hd1. exists []. rewrite app_nil_r. split; constructor.
Qed.

(** What a wake-up does to the list of loops: the loop stays where it
    is while its subscriber is searching and goes otherwise. *)
Lemma wake_tasks (i : nat) (now : Z) (db : DB) (ok : nat → bool) (w : world) :
  match tasks w !! i with
  | None => tasks (wake i now db ok w) = tasks w
  | Some t =>
    ∃ l1 l2, tasks w = l1 ++ t :: l2 ∧ length l1 = i
             ∧ tasks (wake i now db ok w)
               = if searching (state_of (t_chat t) w)
                 then l1 ++ {| t_chat := t_chat t; t_fresh := false |} :: l2
                 else l1 ++ l2
  end.
Proof.
  unfold wake. destruct (tasks w !! i) as [t|] eqn:Ht; [|reflexivity].
  set (w1 := if t_fresh t then search_loop_enter (t_chat t) now w else w).
  assert (tasks w1 = tasks w
          ∧ searching (state_of (t_chat t) w1) = searching (state_of (t_chat t) w))
    as [Ht1 Hs1].
  { subst w1. destruct (t_fresh t); [|split; reflexivity].
    destruct (search_loop_enter_spec (t_chat t) now w) as (Ht' & _ & _ & _ & Hs).
    split; [exact Ht' | exact Hs]. }
  exists (take i (tasks w)), (drop (S i) (tasks w)).
  pose proof (lookup_lt_Some _ _ _ Ht) as Hlt.
  split; [symmetry; apply take_drop_middle, Ht|].
  split; [rewrite length_take; lia|].
  rewrite Hs1. destruct (searching (state_of (t_chat t) w)); cbn [tasks].
  - destruct (search_iteration_spec (t_chat t) db ok w1) as (-> & _).
    rewrite Ht1. apply insert_take_drop, Hlt.
  - rewrite Ht1. apply delete_take_drop.
Qed.

Lemma wake_tasks_in (i : nat) (now : Z) (db : DB) (ok : nat → bool) (w : world)
  (t' : task) :
  In t' (tasks (wake i now db ok w)) →
  ∃ t0, In t0 (tasks w) ∧ t_chat t' = t_chat t0.
Proof.
  pose proof (wake_tasks i now db ok w) as Hw.
  destruct (tasks w !! i) as [t|]; [|rewrite Hw; eauto].
  destruct Hw as (l1 & l2 & -> & _ & ->). intros Hin.
  destruct (searching _).
  - apply in_app_iff in Hin. destruct Hin as [Hin|[<-|Hin]].
    + exists t'. split; [apply in_app_iff; left; exact Hin | reflexivity].
    + exists t. split; [apply in_app_iff; right; left; reflexivity | reflexivity].
    + exists t'. split; [apply in_app_iff; right; right; exact Hin | reflexivity].
  - apply in_app_iff in Hin. exists t'. split; [|reflexivity].
    apply in_app_iff. destruct Hin; [left | right; right]; assumption.
Qed.

(** *** What holds after any run from the start of the process *)

Lemma state_ok_new : state_ok UserState_new.
Proof. repeat split; try discriminate. Qed.

Lemma message_effect_since (txt : str) (st : UserState) :
  searching (message_effect txt st) = searching st
  ∧ since (message_effect txt st) = since st.
Proof.
  unfold message_effect. destruct (bool_decide _); [split; reflexivity|].
  destruct (waiting_for_price st).
  { destruct (price_bounds _) as [[mn mx]|]; split; reflexivity. }
  destruct (waiting_for_rooms st); [|split; reflexivity].
  destruct (rooms_of _); split; reflexivity.
Qed.

Lemma message_effect_ok (txt : str) (st : UserState) :
  state_ok st → state_ok (message_effect txt st).
Proof.
  intros (H1 & H2 & H3 & H4). unfold message_effect.
  destruct (bool_decide _); [repeat split; assumption|].
  destruct (waiting_for_price st) eqn:Ep.
  { destruct (price_bounds_eq (replace (u " ") [] txt))
      as [(_ & Hm & ->)|(l & r & _ & Hm & ->)];
      (split; [reflexivity|]; split; [exact H2|]; split; [|exact H4]);
      intros n; apply read_int_nonneg, Hm. }
  destruct (waiting_for_rooms st) eqn:Er;
    [|split; [rewrite Ep; reflexivity|]; repeat split; assumption].
  rewrite rooms_of_eq.
  split; [cbn; rewrite ?Ep; reflexivity|]. split; [|split; [exact H3 | exact H4]].
  cbn. destruct (omap read_int _); congruence.
Qed.

Lemma callback_effect_ok (data : string) (now : Z) (st : UserState) :
  state_ok st → state_ok (callback_effect data now st).
Proof.
  intros Hok. unfold callback_effect.
  destruct (String.eqb data "set_price");
    [destruct Hok as (H1 & H2 & H3 & H4); repeat split; assumption|].
  destruct (String.eqb data "set_rooms");
    [destruct Hok as (H1 & H2 & H3 & H4); repeat split; assumption|].
  destruct (String.eqb data "start_search").
  { destruct (searching st) eqn:Es; [exact Hok|].
    destruct Hok as (H1 & H2 & H3 & H4).
    split; [exact H1|]. split; [exact H2|]. split; [exact H3|].
    intros _. discriminate. }
  destruct (String.eqb data "stop_search"); [|exact Hok].
  destruct (searching st) eqn:Es; [|exact Hok].
  destruct Hok as (H1 & H2 & H3 & H4).
  split; [exact H1|]. split; [exact H2|]. split; [exact H3|].
  intros Hf. discriminate Hf.
Qed.

Lemma callback_effect_since (data : string) (now : Z) (st : UserState) :
  since st ≠ None → since (callback_effect data now st) ≠ None.
Proof.
  intros Hs. unfold callback_effect.
  destruct (String.eqb data "set_price"); [exact Hs|].
  destruct (String.eqb data "set_rooms"); [exact Hs|].
  destruct (String.eqb data "start_search").
  { destruct (searching st); [exact Hs | discriminate]. }
  destruct (String.eqb data "stop_search"); [|exact Hs].
  destruct (searching st); exact Hs.
Qed.

Lemma handle_ok (x : activity (DB:=DB)) (w : world) :
  world_ok w → world_ok (handle w x).
Proof.
  intros [Hst Htk]. destruct x as [[c data now tg_ok|i now db ok]|c|c txt];
    cbn [handle step].
  - destruct (on_callback_frame c data now tg_ok w) as (_ & Hne & Ht).
    pose proof (on_callback_state c data now tg_ok w) as Hc.
    assert (∀ c', since (state_of c' w) ≠ None →
                  since (state_of c' (on_callback c data now tg_ok w)) ≠ None) as Hs.
    { intros c' Hs. destruct (decide (c' = c)) as [->|N].
      - rewrite Hc. apply callback_effect_since, Hs.
      - rewrite Hne by exact N. exact Hs. }
    split.
    + intros c'. destruct (decide (c' = c)) as [->|N].
      * rewrite Hc. apply callback_effect_ok, Hst.
      * rewrite Hne by exact N. apply Hst.
    + intros t Hin. rewrite Ht in Hin. apply in_app_iff in Hin.
      destruct Hin as [Hin|Hin]; [apply Hs, Htk, Hin|].
      destruct (String.eqb data "start_search") eqn:Ed; [|destruct Hin].
      destruct (searching (state_of c w)) eqn:Es; [destruct Hin|].
      destruct tg_ok; [|destruct Hin]. destruct Hin as [<-|[]]. cbn [t_chat].
      rewrite Hc. unfold callback_effect.
      apply String.eqb_eq in Ed. subst data.
      cbn [String.eqb Ascii.eqb Bool.eqb]. rewrite Es. discriminate.
  - split.
    + intros c'. eapply only_since_ok; [apply wake_only | apply Hst].
    + intros t Hin. apply wake_tasks_in in Hin. destruct Hin as (t0 & Hin & ->).
      apply (wake_only i now db ok w (t_chat t0)), Htk, Hin.
  - destruct (cmd_start_spec c w) as (Ht & _ & Hs). split.
    + intros c'. rewrite Hs. apply Hst.
    + intros t Hin. rewrite Ht in Hin. rewrite Hs. apply Htk, Hin.
  - destruct (on_message_frame c txt w) as (Ht & _ & Hne).
    pose proof (on_message_state c txt w) as Hc.
    split.
    + intros c'. destruct (decide (c' = c)) as [->|N].
      * rewrite Hc. apply message_effect_ok, Hst.
      * rewrite Hne by exact N. apply Hst.
    + intros t Hin. rewrite Ht in Hin.
      destruct (decide (t_chat t = c)) as [E|N].
      * rewrite E, Hc. destruct (message_effect_since txt (state_of c w)) as [_ ->].
        rewrite <- E. apply Htk, Hin.
      * rewrite Hne by exact N. apply Htk, Hin.
Qed.

Lemma world_ok_fresh : world_ok fresh_world.
Proof. split; [intros c; apply state_ok_new | intros t []]. Qed.

Lemma serve_ok (xs : list (activity (DB:=DB))) :
  ∀ w, world_ok w → world_ok (serve xs w).
Proof.
  induction xs as [|x xs IH]; intros w Hw; [exact Hw|].
  cbn [serve fold_left]. apply IH, handle_ok, Hw.
Qed.

(** X15.  However callbacks, commands, messages and wake-ups follow
    one another from the start of the process, no chat is ever asked
    for a price and for rooms at once. *)
Theorem waiting_exclusive (xs : list (activity (DB:=DB))) (c : Z) :
  waiting_for_price (state_of c (serve xs fresh_world))
  && waiting_for_rooms (state_of c (serve xs fresh_world)) = false.
Proof.
  destruct (serve_ok xs fresh_world world_ok_fresh) as [Hst _].
  destruct (Hst c) as (H1 & _). exact H1.
Qed.

(** X16.  In every state reached from the start of the process the
    rooms of a chat are unset or a non-empty list, never an empty one,
    and its lower price bound is unset or not negative. *)
Theorem filters_well_formed (xs : list (activity (DB:=DB))) (c : Z) :
  rooms (state_of c (serve xs fresh_world)) ≠ Some []
  ∧ ∀ n, min_price (state_of c (serve xs fresh_world)) = Some n → 0 <= n.
Proof.
  destruct (serve_ok xs fresh_world world_ok_fresh) as [Hst _].
  destruct (Hst c) as (_ & H2 & H3 & _). split; [exact H2 | exact H3].
Qed.

(** X17.  In every state reached from the start of the process a chat
    that is searching has a watermark, and so has the subscriber of
    every live loop: the lines of [search_loop] that set a missing
    watermark to the current time change nothing, whatever the clock
    reads. *)
Theorem loops_have_watermark (xs : list (activity (DB:=DB))) :
  (∀ c, searching (state_of c (serve xs fresh_world)) = true →
        since (state_of c (serve xs fresh_world)) ≠ None)
  ∧ (∀ i t, tasks (serve xs fresh_world) !! i = Some t →
       since (state_of (t_chat t) (serve xs fresh_world)) ≠ None
       ∧ ∀ now c,
           state_of c (search_loop_enter (t_chat t) now (serve xs fresh_world))
           = state_of c (serve xs fresh_world)).
Proof.
  destruct (serve_ok xs fresh_world world_ok_fresh) as [Hst Htk].
  split; [intros c; destruct (Hst c) as (_ & _ & _ & H4); exact H4|].
  intros i t Hi.
  assert (since (state_of (t_chat t) (serve xs fresh_world)) ≠ None) as Hs.
  { apply Htk. eapply lookup_In. exact Hi. }
  split; [exact Hs|]. intros now c.
  destruct (search_loop_enter_spec (t_chat t) now (serve xs fresh_world))
    as (_ & _ & Hne & Heq & _).
  destruct (decide (c = t_chat t)) as [->|N]; [apply Heq, Hs | apply Hne, N].
Qed.

(** X18.  Chats do not interfere: a callback, a command, a message or
    a wake-up changes the state of no chat but its own (the sender's,
    or the subscriber's of the loop that wakes), and every notification
    it logs goes to that chat. *)
Theorem chats_isolated (x : activity (DB:=DB)) (w : world) :
  (∀ c, subject x w ≠ Some c → state_of c (handle w x) = state_of c w)
  ∧ ∃ new, delivered (handle w x) = delivered w ++ new
           ∧ Forall (fun e => subject x w = Some (fst (fst e))) new.
Proof.
  destruct x as [[c0 data now tg_ok|i now db ok]|c0|c0 txt];
    cbn [handle step subject].
  - destruct (on_callback_frame c0 data now tg_ok w) as (Hd & Hne & _).
    split; [intros c Hc; apply Hne; congruence|].
    exists []. rewrite app_nil_r. split; [exact Hd | constructor].
  - apply wake_subject.
  - destruct (cmd_start_spec c0 w) as (_ & Hd & Hs).
    split; [intros c _; apply Hs|].
    exists []. rewrite app_nil_r. split; [exact Hd | constructor].
  - destruct (on_message_frame c0 txt w) as (_ & Hd & Hne).
    split; [intros c Hc; apply Hne; congruence|].
    exists []. rewrite app_nil_r. split; [exact Hd | constructor].
Qed.

(** X19.  Who changes what.  A text message or a [/start] command
    starts and ends no loop, logs no notification and leaves
    [searching] and the watermark of every chat as they are; a callback
    leaves the price bounds and the rooms of every chat as they are and
    logs no notification; a wake-up leaves everything but watermarks as
    it is, so the filters a loop queries with are those of the latest
    message. *)
Theorem handlers_frame (w : world) (c : Z) :
  (∀ c0 txt,
     tasks (fst (on_message c0 txt w)) = tasks w
     ∧ delivered (fst (on_message c0 txt w)) = delivered w
     ∧ searching (state_of c (fst (on_message c0 txt w)))
       = searching (state_of c w)
     ∧ since (state_of c (fst (on_message c0 txt w))) = since (state_of c w))
  ∧ (∀ c0,
       tasks (fst (cmd_start c0 w)) = tasks w
       ∧ delivered (fst (cmd_start c0 w)) = delivered w
       ∧ state_of c (fst (cmd_start c0 w)) = state_of c w)
  ∧ (∀ c0 data now tg_ok,
       delivered (on_callback c0 data now tg_ok w) = delivered w
       ∧ min_price (state_of c (on_callback c0 data now tg_ok w))
         = min_price (state_of c w)
       ∧ max_price (state_of c (on_callback c0 data now tg_ok w))
         = max_price (state_of c w)
       ∧ rooms (state_of c (on_callback c0 data now tg_ok w))
         = rooms (state_of c w))
  ∧ (∀ i now (db : DB) ok,
       state_of c (wake i now db ok w)
       = set_since (since (state_of c (wake i now db ok w))) (state_of c w)).
Proof.
  split; [|split; [|split]].
  - intros c0 txt. destruct (on_message_frame c0 txt w) as (Ht & Hd & Hne).
    split; [exact Ht|]. split; [exact Hd|].
    destruct (decide (c = c0)) as [->|N].
    + rewrite on_message_state. apply message_effect_since.
    + rewrite Hne by exact N. split; reflexivity.
  - intros c0. destruct (cmd_start_spec c0 w) as (Ht & Hd & Hs).
    split; [exact Ht|]. split; [exact Hd | apply Hs].
  - intros c0 data now tg_ok.
    destruct (on_callback_frame c0 data now tg_ok w) as (Hd & Hne & _).
    split; [exact Hd|].
    destruct (decide (c = c0)) as [->|N];
      [|rewrite Hne by exact N; repeat split].
    rewrite on_callback_state. unfold callback_effect.
    destruct (String.eqb data "set_price"); [repeat split|].
    destruct (String.eqb data "set_rooms"); [repeat split|].
    destruct (String.eqb data "start_search");
      [destruct (searching (state_of c0 w)); repeat split|].
    destruct (String.eqb data "stop_search");
      [destruct (searching (state_of c0 w)); repeat split | repeat split].
  - intros i now db ok. apply (wake_only i now db ok w c).
Qed.

(** *** Starting and stopping *)

Lemma only_since_searching (st st' : UserState) :
  only_since st st' → searching st' = searching st.
Proof. intros [-> _]. reflexivity. Qed.

Lemma handle_searching (x : activity (DB:=DB)) (w : world) (c : Z) :
  is_stop c x = false →
  searching (state_of c w) = true →
  searching (state_of c (handle w x)) = true.
Proof.
  intros Hx Hs. destruct x as [[c0 data now tg_ok|i now db ok]|c0|c0 txt];
    cbn [handle step].
  - destruct (decide (c = c0)) as [->|N].
    + rewrite on_callback_state. unfold callback_effect.
      cbn [is_stop] in Hx. rewrite Z.eqb_refl in Hx. cbn [andb] in Hx.
      rewrite Hx, Hs.
      destruct (String.eqb data "set_price"); [exact Hs|].
      destruct (String.eqb data "set_rooms"); [exact Hs|].
      destruct (String.eqb data "start_search"); exact Hs.
    + destruct (on_callback_frame c0 data now tg_ok w) as (_ & Hne & _).
      rewrite Hne by exact N. exact Hs.
  - rewrite (only_since_searching _ _ (wake_only i now db ok w c)). exact Hs.
  - destruct (cmd_start_spec c0 w) as (_ & _ & ->). exact Hs.
  - destruct (decide (c = c0)) as [->|N].
    + rewrite on_message_state.
      destruct (message_effect_since txt (state_of c0 w)) as [-> _]. exact Hs.
    + destruct (on_message_frame c0 txt w) as (_ & _ & Hne).
      rewrite Hne by exact N. exact Hs.
Qed.

Lemma handle_no_loop (x : activity (DB:=DB)) (w : world) (c : Z) :
  searching (state_of c w) = true →
  (∀ t, In t (tasks w) → t_chat t ≠ c) →
  (∀ t, In t (tasks (handle w x)) → t_chat t ≠ c)
  ∧ ∃ new, delivered (handle w x) = delivered w ++ new
           ∧ Forall (fun e => fst (fst e) ≠ c) new.
Proof.
  intros Hs Htk. destruct x as [[c0 data now tg_ok|i now db ok]|c0|c0 txt];
    cbn [handle step].
  - destruct (on_callback_frame c0 data now tg_ok w) as (Hd & _ & Ht).
    split; [|exists []; rewrite app_nil_r; split; [exact Hd | constructor]].
    intros t Hin. rewrite Ht in Hin. apply in_app_iff in Hin.
    destruct Hin as [Hin|Hin]; [apply Htk, Hin|].
    destruct (String.eqb data "start_search"); [|destruct Hin].
    destruct (searching (state_of c0 w)) eqn:Es; [destruct Hin|].
    destruct tg_ok; [|destruct Hin]. destruct Hin as [<-|[]]. cbn [t_chat].
    intros ->. congruence.
  - split.
    + intros t Hin. apply wake_tasks_in in Hin. destruct Hin as (t0 & Hin & ->).
      apply Htk, Hin.
    + destruct (wake_subject i now db ok w) as (_ & new & Hd & Hnew).
      exists new. split; [exact Hd|].
      eapply Forall_impl; [exact Hnew|]. intros e He Hc.
      destruct (tasks w !! i) as [t|] eqn:Ei; [|discriminate].
      cbn in He. injection He as He.
      apply (Htk t); [|congruence]. eapply lookup_In. exact Ei.
  - destruct (cmd_start_spec c0 w) as (Ht & Hd & _). rewrite Ht.
    split; [exact Htk|]. exists []. rewrite app_nil_r. split; [exact Hd | constructor].
  - destruct (on_message_frame c0 txt w) as (Ht & Hd & _). rewrite Ht.
    split; [exact Htk|]. exists []. rewrite app_nil_r. split; [exact Hd | constructor].
Qed.

Lemma serve_no_loop (xs : list (activity (DB:=DB))) (c : Z) :
  ∀ w,
    forallb (fun x => negb (is_stop c x)) xs = true →
    searching (state_of c w) = true →
    (∀ t, In t (tasks w) → t_chat t ≠ c) →
    searching (state_of c (serve xs w)) = true
    ∧ (∀ t, In t (tasks (serve xs w)) → t_chat t ≠ c)
    ∧ ∃ new, delivered (serve xs w) = delivered w ++ new
             ∧ Forall (fun e => fst (fst e) ≠ c) new.
Proof.
  induction xs as [|x xs IH]; intros w Hxs Hs Htk.
  - split; [exact Hs|]. split; [exact Htk|].
    exists []. rewrite app_nil_r. split; [reflexivity | constructor].
  - cbn [forallb] in Hxs. apply andb_prop in Hxs. destruct Hxs as [Hx Hxs].
    apply negb_true_iff in Hx. cbn [serve fold_left].
    destruct (handle_no_loop x w c Hs Htk) as (Htk1 & new1 & Hd1 & Hn1).
    destruct (IH (handle w x) Hxs (handle_searching x w c Hx Hs) Htk1)
      as (Hs2 & Htk2 & new2 & Hd2 & Hn2).
    split; [exact Hs2|]. split; [exact Htk2|].
    exists (new1 ++ new2). split; [|apply Forall_app; split; assumption].
    unfold serve in Hd2. rewrite Hd2, Hd1, app_assoc. reflexivity.
Qed.


Lemma wake_stopped (i : nat) (t : task) (now : Z) (db : DB) (ok : nat → bool)
  (w : world) :
  tasks w !! i = Some t →
  searching (state_of (t_chat t) w) = false →
  tasks (wake i now db ok w) = delete i (tasks w)
  ∧ delivered (wake i now db ok w) = delivered w.
Proof.
  intros Ht Hs. unfold wake. rewrite Ht.
  set (w1 := if t_fresh t then search_loop_enter (t_chat t) now w else w).
  assert (tasks w1 = tasks w ∧ delivered w1 = delivered w
          ∧ searching (state_of (t_chat t) w1) = false) as (Ht1 & Hd1 & Hs1).
  { subst w1. destruct (t_fresh t); [|repeat split; assumption].
    destruct (search_loop_enter_spec (t_chat t) now w) as (? & ? & _ & _ & E).
    repeat split; [assumption..|]. rewrite E. exact Hs. }
  rewrite Hs1. cbn [tasks delivered]. rewrite Ht1, Hd1. split; reflexivity.
Qed.

(** X21.  A stop takes effect at the loop's next wake-up: whether or
    not the reply to the stop reaches the chat, the loop then ends
    without querying the store, so that nothing more is logged, and the
    chat is left not searching. *)
Theorem stop_ends_loop (i : nat) (t : task) (now now' : Z) (tg_ok : bool)
  (db : DB) (ok : nat → bool) (w : world) :
  tasks w !! i = Some t →
  tasks (wake i now' db ok (on_callback (t_chat t) "stop_search" now tg_ok w))
  = delete i (tasks w)
  ∧ delivered (wake i now' db ok
                 (on_callback (t_chat t) "stop_search" now tg_ok w))
    = delivered w
  ∧ searching
      (state_of (t_chat t)
         (wake i now' db ok (on_callback (t_chat t) "stop_search" now tg_ok w)))
    = false.
Proof.
  intros Ht.
  destruct (on_callback_frame (t_chat t) "stop_search" now tg_ok w)
    as (Hd & _ & Htk).
  cbn [String.eqb Ascii.eqb Bool.eqb andb] in Htk. rewrite app_nil_r in Htk.
  pose proof (on_callback_stop (t_chat t) now tg_ok w) as Hs.
  destruct (wake_stopped i t now' db ok
              (on_callback (t_chat t) "stop_search" now tg_ok w)) as [E1 E2];
    [rewrite Htk; exact Ht | exact Hs|].
  rewrite E1, E2, Htk, Hd, wake_searching. repeat split. exact Hs.
Qed.

Lemma loops_of_app (c : Z) (w : world) (l1 l2 : list task) :
  tasks w = l1 ++ l2 →
  loops_of c w
  = (length (List.filter (fun t => (t_chat t =? c)%Z) l1)
     + length (List.filter (fun t => (t_chat t =? c)%Z) l2))%nat.
Proof.
  intros E. unfold loops_of. rewrite E, List.filter_app, length_app. reflexivity.
Qed.

(** While a chat is searching, a wake-up ends none of its loops. *)
Lemma wake_loops (i : nat) (now : Z) (db : DB) (ok : nat → bool) (w : world)
  (c : Z) :
  searching (state_of c w) = true →
  loops_of c (wake i now db ok w) = loops_of c w.
Proof.
  intros Hs. pose proof (wake_tasks i now db ok w) as Hw.
  destruct (tasks w !! i) as [t|]; [|unfold loops_of; rewrite Hw; reflexivity].
  destruct Hw as (l1 & l2 & E & _ & E').
  rewrite (loops_of_app c w l1 (t :: l2) E).
  destruct (searching (state_of (t_chat t) w)) eqn:Est.
  - rewrite (loops_of_app c _ l1 (_ :: l2) E'). cbn [List.filter t_chat].
    destruct (t_chat t =? c); reflexivity.
  - rewrite (loops_of_app c _ l1 l2 E'). cbn [List.filter].
    destruct (t_chat t =? c) eqn:Ec; [|reflexivity].
    apply Z.eqb_eq in Ec. congruence.
Qed.

Lemma wakes_loops (c : Z) (l : list (nat * poll)) :
  ∀ w, searching (state_of c w) = true →
       loops_of c (run (wake_events l) w) = loops_of c w.
Proof.
  induction l as [|[i [[now db] ok]] l IH]; intros w Hs; [reflexivity|].
  cbn [wake_events List.map run fold_left step fst snd].
  etransitivity; [apply IH; rewrite wake_searching; exact Hs|].
  apply wake_loops, Hs.
Qed.

(** X22.  A stop followed by a start before the loop has woken leaves
    two loops for the chat: the first loop never sees [searching]
    false, so it goes on beside the one the second start creates, and
    no wake-up ends either of them. *)
Theorem quick_restart_two_loops (c t1 t2 t3 : Z) (tg2 : bool)
  (l : list (nat * poll)) (w : world) :
  searching (state_of c w) = false →
  loops_of c
    (run ([Callback c "start_search" t1 true;
           Callback c "stop_search" t2 tg2;
           Callback c "start_search" t3 true] ++ wake_events l) w)
  = (loops_of c w + 2)%nat.
Proof.
  intros Hs. rewrite run_app.
  set (w1 := on_callback c "start_search" t1 true w).
  set (w2 := on_callback c "stop_search" t2 tg2 w1).
  set (w3 := on_callback c "start_search" t3 true w2).
  change (run [Callback c "start_search" t1 true;
               Callback c "stop_search" t2 tg2;
               Callback c "start_search" t3 true] w) with w3.
  assert (searching (state_of c w2) = false) as Hs2
    by apply on_callback_stop.
  rewrite wakes_loops by apply on_callback_start_searching.
  destruct (on_callback_frame c "start_search" t1 true w) as (_ & _ & E1).
  destruct (on_callback_frame c "stop_search" t2 tg2 w1) as (_ & _ & E2).
  destruct (on_callback_frame c "start_search" t3 true w2) as (_ & _ & E3).
  fold w1 in E1. fold w2 in E2. fold w3 in E3.
  rewrite Hs in E1. rewrite Hs2 in E3.
  cbn [String.eqb Ascii.eqb Bool.eqb andb negb] in E1, E2, E3.
  rewrite app_nil_r in E2. rewrite E2, E1, <- app_assoc in E3.
  rewrite (loops_of_app c w3 _ _ E3). cbn [app List.filter t_chat].
  rewrite Z.eqb_refl. cbn [length]. unfold loops_of. lia.
Qed.

End loop.

End HandlerProofs.

(** ** The properties above at work on sample inputs *)

Module MoreExamples.
Import Py Ext Parser Bot Handlers Views Spec Concrete Samples.
Local Open Scope Z_scope.

#[local] Existing Instance lower_basic.
#[local] Existing Instance urljoin_origin.
#[local] Existing Instance five_minutes.
#[local] Existing Instance store_add.
#[local] Existing Instance store_query.

(** X1 at work: the larger end of a range of minutes. *)
Lemma refactor_time_to_metro_decimal_witness :
  refactor_time_to_metro (u "10–15 минут") = Ok 15.
Proof.
  exact (ParserMore.refactor_time_to_metro_decimal (u "10–15 минут")
           ltac:(vm_compute; lia) ltac:(vm_compute; reflexivity)).
Defined.


(** X4 at work: deposit and commission in one clause. *)
Lemma split_add_shared_amount_witness :
  ∃ v, split_add (u "залог 30 000, комиссия 15 000") = Ok (v, v).
Proof.
  exact (@ParserMore.split_add_shared_amount lower_basic
           (u "залог 30 000, комиссия 15 000")
           ltac:(vm_compute; reflexivity)).
Defined.

(** X5 at work: the record of the first sample fragment. *)
Lemma build_ad_ranges_witness :
  ∃ ad, build_ad flat_101 = Ok (Some ad)
        ∧ 0 <= ad_rooms ad ∧ (0 <= ad_squares ad)%Q
        ∧ 0 <= ad_deposit ad ∧ 0 <= ad_time_to_metro ad.
Proof.
  eexists. split; [vm_compute; reflexivity|].
  destruct (@IngestionMore.build_ad_ranges lower_basic urljoin_origin flat_101 _
              ltac:(vm_compute; reflexivity))
    as (H1 & H2 & _ & _ & H5 & _ & H7 & _).
  repeat split; assumption.
Defined.

(** X6 at work: a fragment that is nothing but an id. *)
Lemma build_ad_bare_witness :
  build_ad {| item_id := Some (u "101"); item_title := None; item_price := None;
              item_specific_params := None; item_location := [];
              item_link := None |}
  = Ok (Some {| ad_id := 101; ad_title := []; ad_link := []; ad_price := 0;
                ad_comission := 0; ad_squares := 0; ad_apart_floor := 0;
                ad_house_floor := 0; ad_rooms := 0; ad_deposit := 0;
                ad_metro := []; ad_time_to_metro := 0 |}).
Proof.
  exact (@IngestionMore.build_ad_bare lower_basic urljoin_origin (u "101") 101
           ltac:(vm_compute; reflexivity)).
Defined.


(** X12 at work: a range with blanks, sent after the price button. *)
Lemma price_message_witness :
  ∃ mn mx,
    price_bounds (replace (u " ") [] (u "1 000 - 2 000")) = Ok (mn, mx)
    ∧ state_of 5 (fst (on_message 5 (u "1 000 - 2 000") asked_for_price))
      = set_waiting false (waiting_for_rooms (state_of 5 asked_for_price))
          (set_max_price mx (set_min_price mn (state_of 5 asked_for_price)))
    ∧ (∀ n, mn = Some n → 0 <= n).
Proof.
  destruct (HandlerProofs.price_message 5 (u "1 000 - 2 000") asked_for_price
              ltac:(intros E; vm_compute in E; discriminate E)
              ltac:(vm_compute; reflexivity))
    as (mn & mx & H1 & H2 & H3 & _).
  exists mn, mx. split; [exact H1|]. split; [exact H2 | exact H3].
Defined.

(** X14 at work: the same message, read as the range it spells. *)
Lemma price_message_range_witness :
  min_price (state_of 5 (fst (on_message 5 (u "1 000 - 2 000") asked_for_price)))
    = Some 1000
  ∧ max_price (state_of 5 (fst (on_message 5 (u "1 000 - 2 000") asked_for_price)))
    = Some 2000.
Proof.
  exact (HandlerProofs.price_message_range 5 (u "1 000 - 2 000")
           (u "1000") (u "2000") asked_for_price
           ltac:(vm_compute; reflexivity) ltac:(vm_compute; reflexivity)
           ltac:(intros E; vm_compute in E; discriminate E)
           ltac:(intros E; vm_compute in E; discriminate E)
           ltac:(vm_compute; lia) ltac:(vm_compute; lia)
           ltac:(vm_compute; reflexivity) ltac:(vm_compute; reflexivity)).
Defined.

(** X13 at work: rooms with a part that does not read. *)
Lemma rooms_message_witness :
  rooms (state_of 5 (fst (on_message 5 (u "0, 1, x, 2") asked_for_rooms)))
  = Some [0; 1; 2].
Proof.
  destruct (HandlerProofs.rooms_message 5 (u "0, 1, x, 2") asked_for_rooms
              ltac:(intros E; vm_compute in E; discriminate E)
              ltac:(vm_compute; reflexivity) ltac:(vm_compute; reflexivity))
    as (H1 & _).
  rewrite H1. vm_compute. reflexivity.
Defined.


(** X21 at work: subscriber 7 stops before its loop has woken. *)
Lemma stop_ends_loop_witness :
  tasks (wake 0 1010000000 store_990 all_sent
           (on_callback 7 "stop_search" 1005000000 true started_1000))
  = []
  ∧ delivered (wake 0 1010000000 store_990 all_sent
                 (on_callback 7 "stop_search" 1005000000 true started_1000))
    = [].
Proof.
  destruct (@HandlerProofs.stop_ends_loop store store_query
              0%nat {| t_chat := 7; t_fresh := true |}
              1005000000 1010000000 true store_990 all_sent started_1000
              ltac:(vm_compute; reflexivity))
    as (H1 & H2 & _).
  split; [exact H1 | exact H2].
Defined.

(** X22 at work: start, stop and start again at once; both loops then
    wake. *)
Lemma quick_restart_two_loops_witness :
  loops_of 7
    (run ([Callback 7 "start_search" 1000000000 true;
           Callback 7 "stop_search" 1001000000 true;
           Callback 7 "start_search" 1002000000 true]
          ++ wake_events [poll_1300; poll_1300_second]) no_subscribers)
  = 2%nat.
Proof.
  exact (@HandlerProofs.quick_restart_two_loops store store_query
           7 1000000000 1001000000 1002000000 true
           [poll_1300; poll_1300_second] no_subscribers
           ltac:(vm_compute; reflexivity)).
Defined.

End MoreExamples.

(** ** The loop step by step *)

Module StepProofs.
Import Py Ext Bot Handlers Views Steps StepInv Spec BotProofs HandlerProofs.
Local Open Scope Z_scope.

(** *** What a step changes *)

Lemma place_lookup (i j : nat) (c : Z) (p : position) (s : system) (l : loop) :
  loops (place i c p s) !! j = Some l →
  (j = i ∧ l = {| l_chat := c; l_at := p |}) ∨ (j ≠ i ∧ loops s !! j = Some l).
Proof.
  unfold place. cbn [loops]. intros E. apply list_lookup_insert_Some in E.
  destruct E as [(-> & <- & _)|(Hne & E)]; [left | right]; split; congruence.
Qed.

Lemma app_lookup {A} (l1 l2 : list A) (i : nat) (x : A) :
  (l1 ++ l2) !! i = Some x → l1 !! i = Some x ∨ In x l2.
Proof.
  intros E. apply lookup_app_Some in E. destruct E as [E|[_ E]]; [left; exact E|].
  right. eapply lookup_In. exact E.
Qed.

Section steps.
Context {DB : Type} `{!GetNewAparts DB}.

(** A handler logs nothing; it creates a loop only for a chat that
    presses start, and moves the watermark of no other chat. *)
Lemma handler_effect (x : occurrence (DB:=DB)) (s : system) :
  match x with
  | Resume _ _ _ _ => True
  | _ =>
    sent (occur s x) = sent s
    ∧ (∃ extra, loops (occur s x) = loops s ++ extra
                ∧ Forall (fun l => l_at l = Created
                                   ∧ is_start (l_chat l) x = true) extra)
    ∧ (∀ c, is_start c x = false →
            since (state_of c (view (occur s x))) = since (state_of c (view s)))
  end.
Proof.
  destruct x as [c' data now tg_ok|c'|c' txt|i now db ok]; [| | |exact I].
  - destruct (on_callback_frame c' data now tg_ok (view s)) as (Hd & Hne & Ht).
    split; [exact Hd|]. split.
    + eexists. cbn [occur merge loops]. split; [reflexivity|].
      rewrite Ht. cbn [view tasks app].
      destruct (String.eqb data "start_search") eqn:Ed; [|constructor].
      cbn [andb]. destruct (negb _ && tg_ok); [|constructor].
      repeat constructor. cbn [l_chat is_start].
      rewrite Z.eqb_refl, Ed. reflexivity.
    + intros c Hc.
      change (since (state_of c (on_callback c' data now tg_ok (view s)))
              = since (state_of c (view s))).
      destruct (decide (c = c')) as [->|N]; [|rewrite Hne by exact N; reflexivity].
      rewrite on_callback_state. cbn [is_start] in Hc.
      rewrite Z.eqb_refl in Hc. cbn [andb] in Hc.
      unfold callback_effect. rewrite Hc.
      destruct (String.eqb data "set_price"); [reflexivity|].
      destruct (String.eqb data "set_rooms"); [reflexivity|].
      destruct (String.eqb data "stop_search"); [|reflexivity].
      destruct (searching _); reflexivity.
  - destruct (cmd_start_spec c' (view s)) as (Ht & Hd & Hs).
    split; [exact Hd|]. split.
    + exists []. cbn [occur merge loops]. rewrite Ht. split; [reflexivity | constructor].
    + intros c _.
      change (since (state_of c (fst (cmd_start c' (view s))))
              = since (state_of c (view s))).
      rewrite Hs. reflexivity.
  - destruct (on_message_frame c' txt (view s)) as (Ht & Hd & Hne).
    split; [exact Hd|]. split.
    + exists []. cbn [occur merge loops]. rewrite Ht. split; [reflexivity | constructor].
    + intros c _.
      change (since (state_of c (fst (on_message c' txt (view s))))
              = since (state_of c (view s))).
      destruct (decide (c = c')) as [->|N]; [|rewrite Hne by exact N; reflexivity].
      rewrite on_message_state. apply message_effect_since.
Qed.

(** The lines above the [while] change nothing for a chat that has a
    watermark. *)
Lemma enter_state (c cl now : Z) (s : system) :
  since (state_of c (view s)) ≠ None →
  state_of c (view (write (search_loop_enter cl now (view s)) s))
  = state_of c (view s).
Proof.
  intros Hs.
  change (state_of c (search_loop_enter cl now (view s)) = state_of c (view s)).
  destruct (search_loop_enter_spec cl now (view s)) as (_ & _ & Hne & Heq & _).
  destruct (decide (c = cl)) as [->|N]; [apply Heq, Hs | apply Hne, N].
Qed.

Lemma enter_sent (cl now : Z) (s : system) :
  sent (write (search_loop_enter cl now (view s)) s) = sent s.
Proof.
  cbn [write sent].
  destruct (search_loop_enter_spec cl now (view s)) as (_ & Hd & _). exact Hd.
Qed.

Lemma after_sends_state (i : nat) (cl : Z) (ad : apart) (rest : list apart)
  (s : system) (c : Z) :
  state_of c (view (after_sends i cl (ad :: rest) s))
  = if decide (c = cl)
    then set_since (Some (max_of (created_at ad) (List.map created_at rest)))
                   (state_of c (view s))
    else state_of c (view s).
Proof.
  cbn [after_sends].
  change (state_of c
            (update_state cl
               (set_since (Some (max_of (created_at ad) (List.map created_at rest))))
               (view s))
          = if decide (c = cl)
            then set_since (Some (max_of (created_at ad) (List.map created_at rest)))
                           (state_of c (view s))
            else state_of c (view s)).
  destruct (decide (c = cl)) as [->|N];
    [apply state_of_update | apply state_of_update_ne; congruence].
Qed.

Lemma after_sends_sent (i : nat) (cl : Z) (ads : list apart) (s : system) :
  sent (after_sends i cl ads s) = sent s.
Proof.
  destruct ads as [|ad rest]; [reflexivity|].
  cbn [after_sends place write sent]. apply delivered_update.
Qed.

(** *** Rows observed after a bound *)

Lemma above_place (c b : Z) (i : nat) (cl : Z) (p : position) (s : system) :
  above c b s →
  (cl = c → match p with
            | Sending ads todo =>
              Forall (fun a => b < created_at a) ads
              ∧ Forall (fun a => b < created_at a) todo
            | _ => True
            end) →
  above c b (place i cl p s).
Proof.
  intros [Hw Hl] Hp. split; [exact Hw|].
  intros j l Hj Hc. apply place_lookup in Hj.
  destruct Hj as [(_ & ->)|(_ & Hj)]; [apply Hp, Hc | apply (Hl j l Hj Hc)].
Qed.

Lemma above_same (c b : Z) (s s' : system) :
  above c b s → loops s' = loops s →
  state_of c (view s') = state_of c (view s) → above c b s'.
Proof.
  intros [Hw Hl] El Es. split.
  - unfold watermark in *. rewrite Es. exact Hw.
  - rewrite El. exact Hl.
Qed.

Lemma loop_top_sent (i : nat) (cl : Z) (db : DB) (s : system) :
  sent (loop_top i cl db s) = sent s.
Proof.
  unfold loop_top. destruct (searching _); [|reflexivity].
  destruct (get_new_aparts _ _ _ _ _ _) as [[|? ?]|?]; reflexivity.
Qed.

Section guarantee.

(** The store returns only rows observed after the watermark it is
    asked with. *)
Hypothesis store_newer :
  ∀ mn mx rs t limit (db : DB) ads,
    get_new_aparts mn mx rs (Some t) limit db = Ok ads →
    Forall (fun a => t < created_at a) ads.

Lemma above_loop_top (c b : Z) (i : nat) (cl : Z) (db : DB) (s : system) :
  above c b s →
  above c b (loop_top i cl db s) ∧ sent (loop_top i cl db s) = sent s.
Proof.
  intros Ha. unfold loop_top.
  destruct (searching (state_of cl (view s)));
    [|split; [apply above_place; [exact Ha | intros _; exact I] | reflexivity]].
  destruct (get_new_aparts _ _ _ _ _ _) as [[|ad rest]|e] eqn:Eq;
    (split; [apply above_place; [exact Ha|] | reflexivity]); try (intros _; exact I).
  intros ->. destruct Ha as [(m & Hm & Hle) _]. unfold watermark in Hm.
  rewrite Hm in Eq. apply store_newer in Eq.
  assert (Forall (fun a => b < created_at a) (ad :: rest)) as Hb.
  { eapply Forall_impl; [exact Eq|]. cbn. intros a Ha. lia. }
  split; exact Hb.
Qed.

Lemma above_after_sends (c b : Z) (i : nat) (cl : Z) (ads : list apart)
  (s : system) :
  above c b s →
  (cl = c → Forall (fun a => b < created_at a) ads) →
  above c b (after_sends i cl ads s)
  ∧ sent (after_sends i cl ads s) = sent s.
Proof.
  intros Ha Hads. destruct ads as [|ad rest].
  { split; [apply above_place; [exact Ha | intros _; exact I] | reflexivity]. }
  split; [|apply after_sends_sent].
  destruct Ha as [(m & Hm & Hle) Hl]. split.
  - unfold watermark in *. rewrite after_sends_state.
    destruct (decide (c = cl)) as [->|N]; [|exists m; split; assumption].
    eexists. split; [reflexivity|].
    specialize (Hads eq_refl). inversion Hads; subst.
    pose proof (max_of_ge (List.map created_at rest) (created_at ad)). lia.
  - intros j l Hj Hc. apply place_lookup in Hj.
    destruct Hj as [(_ & ->)|(_ & Hj)]; [exact I | apply (Hl j l Hj Hc)].
Qed.

(** A turn of a loop keeps the bound, and what it logs for the chat was
    observed after the bound. *)
Lemma above_resume (c b : Z) (i : nat) (now : Z) (db : DB) (ok : bool)
  (s : system) :
  above c b s →
  above c b (resume i now db ok s)
  ∧ ∃ new, sent (resume i now db ok s) = sent s ++ new
           ∧ Forall (fun e => fst (fst e) = c → b < created_at (snd (fst e))) new.
Proof.
  intros Ha. unfold resume.
  destruct (loops s !! i) as [[cl pos]|] eqn:Hi; cbn [l_chat l_at].
  2:{ split; [exact Ha|]. exists []. rewrite app_nil_r. split; [reflexivity | constructor]. }
  destruct pos as [|ads todo| |].
  - assert (above c b (write (search_loop_enter cl now (view s)) s)) as Ha1.
    { apply (above_same c b s); [exact Ha | reflexivity|].
      apply enter_state. destruct Ha as [(m & Hm & _) _].
      unfold watermark in Hm. congruence. }
    destruct (above_loop_top c b i cl db _ Ha1) as [Ha2 Hs2].
    split; [exact Ha2|]. exists []. rewrite app_nil_r, Hs2.
    split; [apply enter_sent | constructor].
  - pose proof (proj2 Ha i _ Hi) as Hrows. cbn [l_chat l_at] in Hrows.
    destruct todo as [|ad later].
    { destruct (above_after_sends c b i cl ads s Ha) as [Ha2 Hs2].
      - intros E. apply Hrows, E.
      - split; [exact Ha2|]. exists []. rewrite app_nil_r, Hs2.
        split; [reflexivity | constructor]. }
    set (s1 := if ok then log cl ad s else s).
    assert (above c b s1) as Ha1.
    { subst s1. destruct ok; [|exact Ha].
      apply (above_same c b s); [exact Ha | reflexivity | reflexivity]. }
    assert (∃ new, sent s1 = sent s ++ new
                   ∧ Forall (fun e => fst (fst e) = c
                                      → b < created_at (snd (fst e))) new)
      as (new & Hnew & Hb).
    { subst s1. destruct ok.
      - eexists. split; [reflexivity|]. constructor; [|constructor].
        cbn [fst snd]. intros E. destruct (Hrows E) as [_ Ht].
        inversion Ht; assumption.
      - exists []. rewrite app_nil_r. split; [reflexivity | constructor]. }
    destruct later as [|next later].
    + destruct (above_after_sends c b i cl ads s1 Ha1) as [Ha2 Hs2].
      * intros E. apply Hrows, E.
      * split; [exact Ha2|]. exists new. rewrite Hs2. split; assumption.
    + split; [|exists new; split; assumption].
      apply above_place; [exact Ha1|]. intros E. destruct (Hrows E) as [H1 H2].
      split; [exact H1|]. inversion H2; assumption.
  - destruct (above_loop_top c b i cl db s Ha) as [Ha2 Hs2].
    split; [exact Ha2|]. exists []. rewrite app_nil_r, Hs2.
    split; [reflexivity | constructor].
  - split; [exact Ha|]. exists []. rewrite app_nil_r. split; [reflexivity | constructor].
Qed.

Lemma above_occur (c b : Z) (x : occurrence) (s : system) :
  is_start c x = false → above c b s →
  above c b (occur s x)
  ∧ ∃ new, sent (occur s x) = sent s ++ new
           ∧ Forall (fun e => fst (fst e) = c → b < created_at (snd (fst e))) new.
Proof.
  intros Hx Ha.
  pose proof (handler_effect x s) as He.
  destruct x as [c' data now tg_ok|c'|c' txt|i now db ok];
    [| | |apply above_resume, Ha];
    (destruct He as (Hd & (extra & Hl & Hextra) & Hs);
     split; [|exists []; rewrite app_nil_r; split; [exact Hd | constructor]];
     destruct Ha as [(m & Hm & Hle) Hloops]; split;
     [exists m; unfold watermark in *; rewrite (Hs c Hx); split; assumption|];
     intros j l Hj Hc; rewrite Hl in Hj; apply app_lookup in Hj;
     destruct Hj as [Hj|Hin]; [apply (Hloops j l Hj Hc)|];
     rewrite List.Forall_forall in Hextra; destruct (Hextra l Hin) as [-> _]; exact I).
Qed.

Lemma above_proceed (c b : Z) (xs : list occurrence) :
  ∀ s, forallb (fun x => negb (is_start c x)) xs = true → above c b s →
    above c b (proceed xs s)
    ∧ ∃ new, sent (proceed xs s) = sent s ++ new
             ∧ Forall (fun e => fst (fst e) = c → b < created_at (snd (fst e))) new.
Proof.
  induction xs as [|x xs IH]; intros s Hxs Ha.
  - split; [exact Ha|]. exists []. rewrite app_nil_r. split; [reflexivity | constructor].
  - cbn [forallb] in Hxs. apply andb_prop in Hxs. destruct Hxs as [Hx Hxs].
    apply negb_true_iff in Hx.
    destruct (above_occur c b x s Hx Ha) as (Ha1 & new1 & E1 & F1).
    destruct (IH (occur s x) Hxs Ha1) as (Ha2 & new2 & E2 & F2).
    split; [exact Ha2|]. exists (new1 ++ new2).
    split; [|apply Forall_app; split; assumption].
    etransitivity; [exact E2|]. rewrite E1, app_assoc. reflexivity.
Qed.

End guarantee.

(** *** One live loop *)

Lemma alone_loops (c : Z) (s s' : system) :
  loops s' = loops s → alone c s → alone c s'.
Proof. unfold alone. intros ->. exact (fun H => H). Qed.

Lemma alone_same (c : Z) (s s' : system) :
  same_for c s s' → alone c s → alone c s'.
Proof.
  intros [_ Hl] Ha i j l l' Hi Hj Hc Hc' He He'.
  apply Hl in Hi; [|exact Hc]. apply Hl in Hj; [|exact Hc'].
  exact (Ha i j l l' Hi Hj Hc Hc' He He').
Qed.

(** The loop at [i] gets another position: the chat still has one
    live loop at most, when the loop was live or is another chat's. *)
Lemma alone_place (c : Z) (i : nat) (cl : Z) (p : position) (l : loop)
  (s : system) :
  alone c s → loops s !! i = Some l →
  (cl = c → l_chat l = c ∧ ended (l_at l) = false) →
  alone c (place i cl p s).
Proof.
  intros Ha Hi Hown.
  assert (∀ j l', loops (place i cl p s) !! j = Some l' → l_chat l' = c →
                  ended (l_at l') = false →
                  ∃ l0, loops s !! j = Some l0 ∧ l_chat l0 = c
                        ∧ ended (l_at l0) = false) as Hold.
  { intros j l' Hj Hc He. apply place_lookup in Hj.
    destruct Hj as [(-> & ->)|(_ & Hj)].
    - cbn [l_chat] in Hc. destruct (Hown Hc) as [H1 H2]. exists l. auto.
    - exists l'. auto. }
  intros j k l1 l2 Hj Hk Hc1 Hc2 He1 He2.
  destruct (Hold j l1 Hj Hc1 He1) as (a & Hja & Hca & Hea).
  destruct (Hold k l2 Hk Hc2 He2) as (b' & Hkb & Hcb & Heb).
  exact (Ha j k a b' Hja Hkb Hca Hcb Hea Heb).
Qed.

Lemma place_same (c : Z) (i : nat) (cl : Z) (p : position) (l : loop)
  (s : system) :
  loops s !! i = Some l → l_chat l ≠ c → cl ≠ c →
  same_for c s (place i cl p s).
Proof.
  intros Hi Hl Hcl. split; [reflexivity|]. intros j l' Hc. split.
  - intros Hj. apply place_lookup in Hj.
    destruct Hj as [(_ & ->)|(_ & Hj)]; [contradiction | exact Hj].
  - intros Hj. unfold place. cbn [loops].
    rewrite list_lookup_insert_ne; [exact Hj|]. intros ->. congruence.
Qed.

Lemma same_for_refl (c : Z) (s : system) : same_for c s s.
Proof. split; [reflexivity|]. intros. reflexivity. Qed.

Lemma same_for_trans (c : Z) (s1 s2 s3 : system) :
  same_for c s1 s2 → same_for c s2 s3 → same_for c s1 s3.
Proof.
  intros [H1 L1] [H2 L2]. split; [congruence|].
  intros j l Hc. rewrite (L2 j l Hc). apply L1, Hc.
Qed.

Lemma write_same (c : Z) (w : world) (s : system) :
  state_of c w = state_of c (view s) → same_for c s (write w s).
Proof.
  intros E. split; [|intros; reflexivity].
  unfold watermark. change (state_of c (view (write w s))) with (state_of c w).
  rewrite E. reflexivity.
Qed.

Lemma loop_top_shape (i : nat) (cl : Z) (db : DB) (s : system) :
  ∃ p, loop_top i cl db s = place i cl p s.
Proof.
  unfold loop_top. destruct (searching _); [|eauto].
  destruct (get_new_aparts _ _ _ _ _ _) as [[|? ?]|?]; eauto.
Qed.

(** A turn of a loop of another chat. *)
Lemma resume_same (c : Z) (i : nat) (now : Z) (db : DB) (ok : bool)
  (l : loop) (s : system) :
  loops s !! i = Some l → l_chat l ≠ c →
  same_for c s (resume i now db ok s)
  ∧ ∃ added, sent (resume i now db ok s) = sent s ++ added
             ∧ Forall (fun e => fst (fst e) ≠ c) added.
Proof.
  intros Hi Hne. unfold resume. rewrite Hi.
  destruct l as [cl pos]. cbn [l_chat l_at] in *.
  assert (∀ s1, loops s1 = loops s → ∀ p, same_for c s1 (place i cl p s1)) as Hp.
  { intros s1 E p. apply (place_same c i cl p {| l_chat := cl; l_at := pos |});
      [rewrite E; exact Hi | exact Hne | exact Hne]. }
  assert (∀ s1, loops s1 = loops s → ∀ ads,
            same_for c s1 (after_sends i cl ads s1)) as Hafter.
  { intros s1 E [|ad rest]; [apply Hp, E|]. cbn [after_sends].
    eapply same_for_trans; [|apply Hp; exact E].
    apply write_same. apply state_of_update_ne. congruence. }
  destruct pos as [|ads todo| |].
  - destruct (loop_top_shape i cl db (write (search_loop_enter cl now (view s)) s))
      as [p Ep].
    pose proof (loop_top_sent i cl db (write (search_loop_enter cl now (view s)) s))
      as Es.
    rewrite Ep in *. split.
    + eapply same_for_trans; [|apply Hp; reflexivity].
      apply write_same.
      destruct (search_loop_enter_spec cl now (view s)) as (_ & _ & Hother & _).
      apply Hother. congruence.
    + exists []. rewrite app_nil_r. split; [|constructor].
      rewrite Es. apply enter_sent.
  - destruct todo as [|ad later].
    { split; [apply Hafter; reflexivity|]. exists []. rewrite app_nil_r.
      split; [apply after_sends_sent | constructor]. }
    set (s1 := if ok then log cl ad s else s).
    assert (loops s1 = loops s) as El by (subst s1; destruct ok; reflexivity).
    assert (same_for c s s1) as Hs1.
    { subst s1. destruct ok; [|apply same_for_refl].
      split; [reflexivity | intros; reflexivity]. }
    assert (∃ added, sent s1 = sent s ++ added
                     ∧ Forall (fun e => fst (fst e) ≠ c) added)
      as (added & Ea & Fa).
    { subst s1. destruct ok.
      - eexists. split; [reflexivity|]. repeat constructor. exact Hne.
      - exists []. rewrite app_nil_r. split; [reflexivity | constructor]. }
    destruct later as [|next later].
    + split; [eapply same_for_trans; [exact Hs1 | apply Hafter, El]|].
      exists added. rewrite after_sends_sent. split; assumption.
    + split; [eapply same_for_trans; [exact Hs1 | apply Hp, El]|].
      exists added. split; assumption.
  - destruct (loop_top_shape i cl db s) as [p Ep].
    pose proof (loop_top_sent i cl db s) as Es. rewrite Ep in *.
    split; [apply Hp; reflexivity|]. exists []. rewrite app_nil_r.
    split; [exact Es | constructor].
  - split; [apply same_for_refl|]. exists []. rewrite app_nil_r.
    split; [reflexivity | constructor].
Qed.

(** Whatever happens, short of a press of start by the chat and of a
    turn of a live loop of the chat, leaves the chat's watermark and
    loops alone and logs nothing for it. *)
Lemma occur_same (c : Z) (x : occurrence) (s : system) :
  is_start c x = false →
  (∀ i now db ok l, x = Resume i now db ok → loops s !! i = Some l →
                    l_chat l = c → ended (l_at l) = true) →
  same_for c s (occur s x)
  ∧ ∃ added, sent (occur s x) = sent s ++ added
             ∧ Forall (fun e => fst (fst e) ≠ c) added.
Proof.
  intros Hx Hturn. pose proof (handler_effect x s) as He.
  destruct x as [c' data now tg_ok|c'|c' txt|i now db ok].
  4:{ cbn [occur]. destruct (loops s !! i) as [l|] eqn:Hi.
      - destruct (decide (l_chat l = c)) as [Hc|Hc].
        + specialize (Hturn i now db ok l eq_refl Hi Hc).
          unfold resume. rewrite Hi. destruct (l_at l); try discriminate.
          split; [apply same_for_refl|]. exists []. rewrite app_nil_r.
          split; [reflexivity | constructor].
        + apply (resume_same c i now db ok l s Hi Hc).
      - unfold resume. rewrite Hi. split; [apply same_for_refl|].
        exists []. rewrite app_nil_r. split; [reflexivity | constructor]. }
  all: destruct He as (Hd & (extra & Hl & Hextra) & Hs);
    (split; [|exists []; rewrite app_nil_r; split; [exact Hd | constructor]]);
    (split; [unfold watermark; apply Hs, Hx|]);
    intros j l Hc; rewrite Hl; (split; [|apply lookup_app_l_Some]);
    intros Hj; apply app_lookup in Hj; (destruct Hj as [Hj|Hin]; [exact Hj|]);
    rewrite List.Forall_forall in Hextra; destruct (Hextra l Hin) as [_ Hst];
    rewrite Hc in Hst; congruence.
Qed.

(** *** The rows of the pass in flight *)

Lemma tidy_same (c : Z) (new new' : list (Z * apart * str)) (s s' : system) :
  tidy c new s → same_for c s s' →
  (∀ e, In e new' → fst (fst e) = c → In e new) →
  tidy c new' s'.
Proof.
  intros (Ha & m & Hm & Hl & Hn) Hsame Hnew.
  split; [eapply alone_same; eassumption|].
  destruct Hsame as [Hw Hloops]. exists m.
  split; [rewrite Hw; exact Hm|]. split.
  - intros j l Hj Hc. apply Hloops in Hj; [|exact Hc]. apply (Hl j l Hj Hc).
  - intros e He Hc. destruct (Hn e (Hnew e He Hc) Hc) as [Hle|(j & l & ads & todo & Hj & Hcl & Hp & Hin)].
    + left. exact Hle.
    + right. exists j, l, ads, todo. split; [apply Hloops; assumption|].
      repeat split; assumption.
Qed.

(** The live loop of the chat gets another position, the watermark
    staying: from its sleep to a pass whose rows are newer than the
    watermark, or from one send to the next of the same pass. *)
Lemma tidy_place_own (c : Z) (new : list (Z * apart * str)) (i : nat)
  (p : position) (l : loop) (s : system) :
  tidy c new s → loops s !! i = Some l → l_chat l = c →
  ended (l_at l) = false →
  (∀ m, watermark c (view s) = Some m →
        match p with
        | Sending ads todo =>
          Forall (fun a => m < created_at a) ads ∧ incl todo ads
        | _ => True
        end) →
  (∀ ads0 todo0, l_at l = Sending ads0 todo0 → ∃ todo, p = Sending ads0 todo) →
  tidy c new (place i c p s).
Proof.
  intros (Ha & m & Hm & Hl & Hn) Hi Hc He Hp Hkeep.
  split; [eapply alone_place; [exact Ha | exact Hi | intros _; split; assumption]|].
  exists m. split; [exact Hm|]. split.
  - intros j l' Hj Hc'. apply place_lookup in Hj.
    destruct Hj as [(_ & ->)|(_ & Hj)]; [apply Hp, Hm | apply (Hl j l' Hj Hc')].
  - intros e Hin Hce.
    destruct (Hn e Hin Hce) as [Hle|(j & l' & ads & todo & Hj & Hcl & Hat & Hrow)];
      [left; exact Hle|].
    right. destruct (decide (j = i)) as [->|N].
    + assert (l' = l) as -> by congruence.
      destruct (Hkeep ads todo Hat) as [todo' ->].
      exists i, {| l_chat := c; l_at := Sending ads todo' |}, ads, todo'.
      split; [|repeat split; assumption].
      unfold place. cbn [loops]. apply list_lookup_insert_Some. left.
      split; [reflexivity|]. split; [reflexivity|].
      eapply lookup_lt_Some. exact Hi.
    + exists j, l', ads, todo. split; [|repeat split; assumption].
      unfold place. cbn [loops]. rewrite list_lookup_insert_ne by congruence.
      exact Hj.
Qed.

Lemma created_le_max (a ad : apart) (rest : list apart) :
  In a (ad :: rest) →
  created_at a <= max_of (created_at ad) (List.map created_at rest).
Proof.
  intros Hin.
  destruct (max_of_is_max (List.map created_at rest) (created_at ad)) as [_ Hle].
  apply Hle. change (In (created_at a) (List.map created_at (ad :: rest))).
  apply in_map, Hin.
Qed.

(** The last send of the pass of the live loop has returned. *)
Lemma tidy_after_sends (c : Z) (new : list (Z * apart * str)) (i : nat)
  (ads todo : list apart) (s : system) :
  tidy c new s →
  loops s !! i = Some {| l_chat := c; l_at := Sending ads todo |} →
  tidy c new (after_sends i c ads s)
  ∧ ∃ m m', watermark c (view s) = Some m
            ∧ watermark c (view (after_sends i c ads s)) = Some m' ∧ m <= m'.
Proof.
  intros Ht Hi.
  pose proof Ht as (Ha & m & Hm & Hl & Hn).
  assert (∀ j l, loops s !! j = Some l → l_chat l = c →
                 ended (l_at l) = false → j = i) as Honly.
  { intros j l Hj Hc He. exact (Ha j i l _ Hj Hi Hc eq_refl He eq_refl). }
  destruct (Hl i _ Hi eq_refl) as [Hrows _]. cbn [l_at] in Hrows.
  destruct ads as [|ad rest].
  { split; [|exists m, m; repeat split; [assumption | assumption | lia]].
    cbn [after_sends]. split.
    - eapply alone_place; [exact Ha | exact Hi | intros _; split; reflexivity].
    - exists m. split; [exact Hm|]. split.
      + intros j l Hj Hc. apply place_lookup in Hj.
        destruct Hj as [(_ & ->)|(_ & Hj)]; [exact I | apply (Hl j l Hj Hc)].
      + intros e Hin Hce.
        destruct (Hn e Hin Hce) as [Hle|(j & l & ads & todo' & Hj & Hcl & Hat & Hrow)];
          [left; exact Hle|].
        assert (j = i) as -> by (apply (Honly j l Hj Hcl); rewrite Hat; reflexivity).
        rewrite Hi in Hj. injection Hj as <-. cbn [l_at] in Hat.
        injection Hat as <- <-. destruct Hrow. }
  set (m' := max_of (created_at ad) (List.map created_at rest)).
  assert (watermark c (view (after_sends i c (ad :: rest) s)) = Some m') as Hm'.
  { unfold watermark. rewrite after_sends_state.
    destruct (decide (c = c)); [reflexivity | congruence]. }
  assert (m <= m') as Hle.
  { inversion Hrows; subst.
    pose proof (max_of_ge (List.map created_at rest) (created_at ad)).
    subst m'. lia. }
  split; [|exists m, m'; repeat split; assumption].
  split.
  { cbn [after_sends]. eapply alone_place; [|exact Hi | intros _; split; reflexivity].
    eapply alone_loops; [|exact Ha]. reflexivity. }
  exists m'. split; [exact Hm'|]. split.
  - intros j l Hj Hc. cbn [after_sends] in Hj. apply place_lookup in Hj.
    destruct Hj as [(_ & ->)|(N & Hj)]; [exact I|].
    cbn [write loops] in Hj. destruct (l_at l) eqn:Hat; try exact I.
    exfalso. apply N. apply (Honly j l Hj Hc). rewrite Hat. reflexivity.
  - intros e Hin Hce. left.
    destruct (Hn e Hin Hce) as [Hold|(j & l & ads & todo' & Hj & Hcl & Hat & Hrow)];
      [lia|].
    assert (j = i) as -> by (apply (Honly j l Hj Hcl); rewrite Hat; reflexivity).
    rewrite Hi in Hj. injection Hj as <-. cbn [l_at] in Hat.
    injection Hat as <- <-. apply created_le_max, Hrow.
Qed.

Lemma advance_here (c : Z) (new : list (Z * apart * str)) (s s' : system) :
  sent s' = sent s → watermark c (view s') = watermark c (view s) →
  tidy c new s' → advance c new s s'.
Proof.
  intros Es Ew Ht. split.
  - exists []. rewrite !app_nil_r. split; assumption.
  - destruct Ht as (_ & m & Hm & _). exists m, m.
    split; [congruence|]. split; [exact Hm | lia].
Qed.

Section guarantee_one.

Hypothesis store_newer :
  ∀ mn mx rs t limit (db : DB) ads,
    get_new_aparts mn mx rs (Some t) limit db = Ok ads →
    Forall (fun a => t < created_at a) ads.

(** The live loop of the chat runs from the top of its [while]. *)
Lemma tidy_loop_top (c : Z) (new : list (Z * apart * str)) (i : nat)
  (db : DB) (l : loop) (s : system) :
  tidy c new s → loops s !! i = Some l → l_chat l = c →
  ended (l_at l) = false → in_flight (l_at l) = false →
  tidy c new (loop_top i c db s).
Proof.
  intros Ht Hi Hc He Hf.
  assert (∀ ads0 todo0, l_at l = Sending ads0 todo0 →
                        ∃ todo, Ended = Sending ads0 todo) as Hk1
    by (intros ? ? E; rewrite E in Hf; discriminate).
  assert (∀ p ads0 todo0, l_at l = Sending ads0 todo0 →
                        ∃ todo, p = Sending ads0 todo) as Hk
    by (intros ? ? ? E; rewrite E in Hf; discriminate).
  unfold loop_top.
  destruct (searching (state_of c (view s)));
    [|apply (tidy_place_own c new i _ l s Ht Hi Hc He); [intros; exact I | apply Hk]].
  destruct (get_new_aparts _ _ _ _ _ _) as [[|ad rest]|e] eqn:Eq;
    (apply (tidy_place_own c new i _ l s Ht Hi Hc He); [|apply Hk]);
    try (intros; exact I).
  intros m Hm. unfold watermark in Hm. rewrite Hm in Eq.
  apply store_newer in Eq. split; [exact Eq | apply incl_refl].
Qed.

(** A turn of the live loop of the chat. *)
Lemma tidy_own (c : Z) (new : list (Z * apart * str)) (i : nat) (now : Z)
  (db : DB) (ok : bool) (l : loop) (s : system) :
  tidy c new s → loops s !! i = Some l → l_chat l = c →
  ended (l_at l) = false →
  advance c new s (resume i now db ok s).
Proof.
  intros Ht Hi Hc He. unfold resume. rewrite Hi.
  destruct l as [cl pos]. cbn [l_chat l_at] in *. subst cl.
  destruct pos as [|ads todo| |]; [| | |discriminate].
  - set (s1 := write (search_loop_enter c now (view s)) s).
    assert (state_of c (view s1) = state_of c (view s)) as Est.
    { apply enter_state. destruct Ht as (_ & m & Hm & _).
      unfold watermark in Hm. congruence. }
    assert (tidy c new s1) as Ht1.
    { apply (tidy_same c new new s s1 Ht); [|auto].
      split; [unfold watermark; rewrite Est; reflexivity | intros; reflexivity]. }
    apply advance_here.
    + rewrite loop_top_sent. apply enter_sent.
    + destruct (loop_top_shape i c db s1) as [p ->].
      unfold watermark. change (state_of c (view (place i c p s1)))
        with (state_of c (view s1)). rewrite Est. reflexivity.
    + apply (tidy_loop_top c new i db {| l_chat := c; l_at := Created |} s1 Ht1);
        [exact Hi | reflexivity | reflexivity | reflexivity].
  - pose proof Ht as (_ & m & Hm & Hl & _).
    destruct (Hl i _ Hi eq_refl) as [Hrows Hincl]. cbn [l_at] in Hrows, Hincl.
    destruct todo as [|ad later].
    { destruct (tidy_after_sends c new i ads [] s Ht Hi) as [Ht2 Hw].
      split; [|exact Hw]. exists []. rewrite !app_nil_r.
      split; [apply after_sends_sent | exact Ht2]. }
    set (s1 := if ok then log c ad s else s).
    set (added := if ok
                  then [(c, ad, message_text (a_price ad) (a_rooms ad)
                                             (a_title ad) (a_link ad))]
                  else []).
    assert (sent s1 = sent s ++ added) as Es1.
    { subst s1 added. destruct ok; [reflexivity | rewrite app_nil_r; reflexivity]. }
    assert (loops s1 = loops s) as El by (subst s1; destruct ok; reflexivity).
    assert (watermark c (view s1) = watermark c (view s)) as Ew
      by (subst s1; destruct ok; reflexivity).
    assert (tidy c (new ++ added) s1) as Ht1.
    { destruct Ht as (Ha & m0 & Hm0 & Hl0 & Hn0).
      split; [eapply alone_loops; eassumption|].
      exists m0. split; [congruence|]. split; [rewrite El; exact Hl0|].
      intros e Hin Hce. rewrite El. apply in_app_iff in Hin.
      destruct Hin as [Hin|Hin]; [apply (Hn0 e Hin Hce)|].
      right. subst added. destruct ok; [|destruct Hin].
      destruct Hin as [<-|[]]. cbn [fst snd].
      exists i, {| l_chat := c; l_at := Sending ads (ad :: later) |}, ads, (ad :: later).
      repeat split; [exact Hi|]. apply Hincl. left. reflexivity. }
    assert (loops s1 !! i = Some {| l_chat := c; l_at := Sending ads (ad :: later) |})
      as Hi1 by (rewrite El; exact Hi).
    destruct later as [|next later].
    + destruct (tidy_after_sends c (new ++ added) i ads [ad] s1 Ht1 Hi1)
        as [Ht2 (m1 & m2 & Hm1 & Hm2 & Hle)].
      split.
      * exists added. rewrite after_sends_sent. split; assumption.
      * exists m1, m2. split; [congruence|]. split; assumption.
    + split.
      * exists added. split; [exact Es1|].
        apply (tidy_place_own c (new ++ added) i _ _ s1 Ht1 Hi1);
          [reflexivity | reflexivity | |].
        -- intros m0 Hm0. rewrite Ew in Hm0.
           assert (m0 = m) as -> by congruence.
           split; [exact Hrows|]. intros a Hin. apply Hincl. right. exact Hin.
        -- intros ads0 todo0 [= <- <-]. eauto.
      * exists m, m. split; [exact Hm|]. split; [|lia].
        change (watermark c (view s1) = Some m). congruence.
  - apply advance_here.
    + apply loop_top_sent.
    + destruct (loop_top_shape i c db s) as [p ->]. reflexivity.
    + apply (tidy_loop_top c new i db {| l_chat := c; l_at := Sleeping |} s Ht);
        [exact Hi | reflexivity | reflexivity | reflexivity].
Qed.

(** Whatever happens, short of a press of start by the chat. *)
Lemma tidy_occur (c : Z) (new : list (Z * apart * str)) (x : occurrence)
  (s : system) :
  is_start c x = false → tidy c new s → advance c new s (occur s x).
Proof.
  intros Hx Ht.
  assert ((∃ i now db ok l, x = Resume i now db ok ∧ loops s !! i = Some l
                            ∧ l_chat l = c ∧ ended (l_at l) = false)
          ∨ (∀ i now db ok l, x = Resume i now db ok → loops s !! i = Some l →
                              l_chat l = c → ended (l_at l) = true)) as [Hown|Hnot].
  { destruct x as [c' data now tg_ok|c'|c' txt|i now db ok];
      try (right; intros; discriminate).
    destruct (loops s !! i) as [l|] eqn:Hi; [|right; intros; congruence].
    destruct (decide (l_chat l = c)) as [Hc|Hc];
      [|right; intros ? ? ? ? l' [= <- <- <- <-] E Hc'; congruence].
    destruct (ended (l_at l)) eqn:He;
      [right; intros ? ? ? ? l' [= <- <- <- <-] E Hc'; congruence|].
    left. exists i, now, db, ok, l. auto. }
  - destruct Hown as (i & now & db & ok & l & -> & Hi & Hc & He).
    apply (tidy_own c new i now db ok l s Ht Hi Hc He).
  - destruct (occur_same c x s Hx Hnot) as (Hsame & added & Ea & Fa).
    split.
    + exists added. split; [exact Ea|].
      apply (tidy_same c new (new ++ added) s _ Ht Hsame).
      intros e Hin Hce. apply in_app_iff in Hin. destruct Hin as [Hin|Hin]; [exact Hin|].
      rewrite List.Forall_forall in Fa. destruct (Fa e Hin Hce).
    + destruct Ht as (_ & m & Hm & _). destruct Hsame as [Hw _].
      exists m, m. split; [exact Hm|]. split; [congruence | lia].
Qed.

Lemma tidy_proceed (c : Z) (xs : list occurrence) :
  ∀ new s, forallb (fun x => negb (is_start c x)) xs = true →
    tidy c new s → advance c new s (proceed xs s).
Proof.
  induction xs as [|x xs IH]; intros new s Hxs Ht.
  - apply advance_here; [reflexivity | reflexivity | exact Ht].
  - cbn [forallb] in Hxs. apply andb_prop in Hxs. destruct Hxs as [Hx Hxs].
    apply negb_true_iff in Hx.
    destruct (tidy_occur c new x s Hx Ht)
      as [(a1 & E1 & T1) (m & m1 & Hm & Hm1 & Hle1)].
    destruct (IH (new ++ a1) (occur s x) Hxs T1)
      as [(a2 & E2 & T2) (m1' & m2 & Hm1' & Hm2 & Hle2)].
    split.
    + exists (a1 ++ a2).
      change (proceed (x :: xs) s) with (proceed xs (occur s x)).
      split; [|rewrite app_assoc; exact T2].
      rewrite E2, E1, app_assoc. reflexivity.
    + exists m, m2. split; [exact Hm|]. split; [exact Hm2|].
      assert (m1' = m1) by congruence. lia.
Qed.

End guarantee_one.

(** *** From the counts to the positions *)

Lemma count_alone {A} (f : A → bool) (l : list A) :
  (length (List.filter f l) <= 1)%nat →
  ∀ i j a b, l !! i = Some a → l !! j = Some b →
             f a = true → f b = true → i = j.
Proof.
  induction l as [|x l IH]; intros Hlen i j a b Hi Hj Ha Hb;
    [destruct i; discriminate|].
  assert (∀ k y, l !! k = Some y → f y = true → f x = true → False) as Hno.
  { intros k y Hk Hy Hx. cbn [List.filter] in Hlen. rewrite Hx in Hlen.
    assert (In y (List.filter f l)) as Hin
      by (apply filter_In; split; [eapply lookup_In; exact Hk | exact Hy]).
    destruct (List.filter f l); [destruct Hin | cbn [length] in Hlen; lia]. }
  destruct i as [|i], j as [|j]; cbn in Hi, Hj.
  - reflexivity.
  - injection Hi as ->. exfalso. eapply Hno; eassumption.
  - injection Hj as ->. exfalso. eapply Hno; eassumption.
  - f_equal. apply (IH) with a b; try assumption.
    cbn [List.filter] in Hlen. destruct (f x); cbn [length] in Hlen; lia.
Qed.

Lemma alone_of_count (c : Z) (s : system) :
  (length (live_loops c s) <= 1)%nat → alone c s.
Proof.
  intros Hlen i j l l' Hi Hj Hc Hc' He He'.
  apply (count_alone _ _ Hlen i j l l' Hi Hj).
  - rewrite Hc, Z.eqb_refl, He. reflexivity.
  - rewrite Hc', Z.eqb_refl, He'. reflexivity.
Qed.

Lemma settled_lookup (c : Z) (s : system) (i : nat) (l : loop) :
  settled c s = true → loops s !! i = Some l → l_chat l = c →
  in_flight (l_at l) = false.
Proof.
  unfold settled. intros H Hi Hc.
  rewrite forallb_forall in H. specialize (H l (lookup_In _ _ _ Hi)).
  rewrite Hc, Z.eqb_refl in H. cbn [andb] in H.
  destruct (in_flight (l_at l)); [discriminate | reflexivity].
Qed.

Lemma tidy_of_settled (c m : Z) (s : system) :
  watermark c (view s) = Some m →
  (length (live_loops c s) <= 1)%nat → settled c s = true →
  tidy c [] s.
Proof.
  intros Hm Hlen Hs. split; [apply alone_of_count, Hlen|].
  exists m. split; [exact Hm|]. split; [|intros e []].
  intros j l Hj Hc. pose proof (settled_lookup c s j l Hs Hj Hc) as Hf.
  destruct (l_at l); try exact I. discriminate.
Qed.

Lemma proceed_app (xs ys : list occurrence) (s : system) :
  proceed (xs ++ ys) s = proceed ys (proceed xs s).
Proof. apply fold_left_app. Qed.

Lemma forallb_app_true {A} (f : A → bool) (l1 l2 : list A) :
  forallb f (l1 ++ l2) = true → forallb f l1 = true ∧ forallb f l2 = true.
Proof. rewrite forallb_app. apply andb_prop. Qed.

(** *** One pass among other things *)

Lemma place_at (i : nat) (c : Z) (p : position) (l : loop) (s : system) :
  loops s !! i = Some l →
  loops (place i c p s) !! i = Some {| l_chat := c; l_at := p |}.
Proof.
  intros Hi. unfold place. cbn [loops]. apply list_lookup_insert_Some. left.
  split; [reflexivity|]. split; [reflexivity|]. eapply lookup_lt_Some. exact Hi.
Qed.

(** While the live loop of the chat is suspended, nothing moves the
    chat's watermark or the loop. *)
Lemma gap_keeps (c : Z) (i : nat) (l : loop) (es : list occurrence) :
  ∀ s, alone c s → loops s !! i = Some l → l_chat l = c →
    ended (l_at l) = false → forallb (aside i c) es = true →
    alone c (proceed es s) ∧ loops (proceed es s) !! i = Some l
    ∧ watermark c (view (proceed es s)) = watermark c (view s).
Proof.
  induction es as [|x es IH]; intros s Ha Hi Hc He Hes; [auto|].
  cbn [forallb] in Hes. apply andb_prop in Hes. destruct Hes as [Hx Hes].
  unfold aside in Hx. apply andb_prop in Hx. destruct Hx as [Hst Htu].
  apply negb_true_iff in Hst. apply negb_true_iff in Htu.
  destruct (occur_same c x s Hst) as ([Hw Hl] & _).
  { intros j now db ok l' -> Hj Hc'. destruct (ended (l_at l')) eqn:He'; [reflexivity|].
    pose proof (Ha j i l' l Hj Hi Hc' Hc He' He) as ->.
    cbn [is_turn] in Htu. rewrite Nat.eqb_refl in Htu. discriminate. }
  destruct (IH (occur s x)) as (Ha' & Hi' & Hw'); try assumption.
  - eapply alone_same; [split; eassumption | exact Ha].
  - apply Hl; assumption.
  - change (proceed (x :: es) s) with (proceed es (occur s x)).
    split; [exact Ha'|]. split; [exact Hi' | congruence].
Qed.

(** The sends of a pass of the live loop of the chat, whatever else
    happens in between: after the last of them the loop sleeps and the
    watermark is the largest [created_at] of the rows of the pass. *)
Lemma sends_finish (c : Z) (i : nat) (ad0 : apart) (rest0 : list apart) :
  ∀ todo turns s,
    alone c s →
    loops s !! i
    = Some {| l_chat := c; l_at := Sending (ad0 :: rest0) todo |} →
    todo ≠ [] → length turns = length todo →
    Forall (fun t => forallb (aside i c) (fst t) = true) turns →
    alone c (proceed (turns_among i turns) s)
    ∧ loops (proceed (turns_among i turns) s) !! i
      = Some {| l_chat := c; l_at := Sleeping |}
    ∧ watermark c (view (proceed (turns_among i turns) s))
      = Some (max_of (created_at ad0) (List.map created_at rest0)).
Proof.
  induction todo as [|x later IH]; intros turns s Ha Hi Hne Hlen Hgaps;
    [congruence|].
  destruct turns as [|[gap [[now db] ok]] turns]; [discriminate|].
  cbn [length] in Hlen. injection Hlen as Hlen.
  inversion Hgaps as [|? ? Hgap Hgaps']; subst. cbn [fst] in Hgap.
  cbn [turns_among]. rewrite proceed_app.
  destruct (gap_keeps c i _ gap s Ha Hi eq_refl eq_refl Hgap) as (Ha1 & Hi1 & _).
  set (sg := proceed gap s) in *.
  change (proceed (Resume i now db ok :: turns_among i turns) sg)
    with (proceed (turns_among i turns) (resume i now db ok sg)).
  unfold resume. rewrite Hi1. cbn [l_chat l_at].
  set (s1 := if ok then log c x sg else sg).
  assert (loops s1 = loops sg) as El by (subst s1; destruct ok; reflexivity).
  assert (alone c s1) as Ha2 by (eapply alone_loops; eassumption).
  assert (loops s1 !! i
          = Some {| l_chat := c; l_at := Sending (ad0 :: rest0) (x :: later) |})
    as Hi2 by (rewrite El; exact Hi1).
  destruct later as [|y later].
  - destruct turns; [|discriminate]. cbn [turns_among proceed fold_left].
    split; [|split].
    + cbn [after_sends].
      eapply alone_place; [|exact Hi2 | intros _; split; reflexivity].
      eapply alone_loops; [|exact Ha2]. reflexivity.
    + cbn [after_sends]. eapply place_at. exact Hi2.
    + unfold watermark. rewrite after_sends_state.
      destruct (decide (c = c)); [reflexivity | congruence].
  - apply IH; [| |discriminate|exact Hlen|exact Hgaps'].
    + eapply alone_place; [exact Ha2 | exact Hi2 | intros _; split; reflexivity].
    + eapply place_at. exact Hi2.
Qed.

(** The live loop of a searching chat leaves its sleep (or starts):
    it waits for the first send when the store returned rows, and
    sleeps again otherwise; the watermark is as it was. *)
Lemma first_turn (c : Z) (i : nat) (now : Z) (db : DB) (ok : bool)
  (l : loop) (s : system) :
  alone c s → loops s !! i = Some l → l_chat l = c →
  l_at l = Created ∨ l_at l = Sleeping →
  since (state_of c (view s)) ≠ None →
  searching (state_of c (view s)) = true →
  alone c (resume i now db ok s)
  ∧ watermark c (view (resume i now db ok s)) = watermark c (view s)
  ∧ loops (resume i now db ok s) !! i
    = Some {| l_chat := c;
              l_at := match get_new_aparts
                              (min_price (state_of c (view s)))
                              (max_price (state_of c (view s)))
                              (rooms (state_of c (view s)))
                              (since (state_of c (view s))) 100 db with
                      | Ok (ad :: rest) => Sending (ad :: rest) (ad :: rest)
                      | _ => Sleeping
                      end |}.
Proof.
  intros Ha Hi Hc Hp Hsince Hsearch.
  assert (∀ s1, loops s1 = loops s →
                state_of c (view s1) = state_of c (view s) →
                alone c (loop_top i c db s1)
                ∧ watermark c (view (loop_top i c db s1)) = watermark c (view s)
                ∧ loops (loop_top i c db s1) !! i
                  = Some {| l_chat := c;
                            l_at := match get_new_aparts
                                            (min_price (state_of c (view s)))
                                            (max_price (state_of c (view s)))
                                            (rooms (state_of c (view s)))
                                            (since (state_of c (view s))) 100 db with
                                    | Ok (ad :: rest) =>
                                      Sending (ad :: rest) (ad :: rest)
                                    | _ => Sleeping
                                    end |}) as Htop.
  { intros s1 El Est.
    assert (ended (l_at l) = false) as He by (destruct Hp as [-> | ->]; reflexivity).
    assert (∀ p, alone c (place i c p s1)
                 ∧ watermark c (view (place i c p s1)) = watermark c (view s)
                 ∧ loops (place i c p s1) !! i
                   = Some {| l_chat := c; l_at := p |}) as Hplace.
    { intros p. split; [|split].
      - eapply alone_place; [eapply alone_loops; eassumption | rewrite El; exact Hi|].
        intros _. split; assumption.
      - unfold watermark.
        change (state_of c (view (place i c p s1))) with (state_of c (view s1)).
        rewrite Est. reflexivity.
      - eapply place_at. rewrite El. exact Hi. }
    unfold loop_top. rewrite Est, Hsearch.
    destruct (get_new_aparts _ _ _ _ _ _) as [[|ad rest]|e]; apply Hplace. }
  unfold resume. rewrite Hi. rewrite Hc.
  destruct Hp as [-> | ->].
  - apply Htop; [reflexivity | apply enter_state, Hsince].
  - apply Htop; reflexivity.
Qed.

(** *** The chat stays stopped until it presses start *)

Lemma resume_searching (c : Z) (i : nat) (now : Z) (db : DB) (ok : bool)
  (s : system) :
  searching (state_of c (view (resume i now db ok s)))
  = searching (state_of c (view s)).
Proof.
  assert (∀ cl s1, searching (state_of c (view (loop_top i cl db s1)))
                   = searching (state_of c (view s1))) as Htop.
  { intros cl s1. destruct (loop_top_shape i cl db s1) as [p ->]. reflexivity. }
  assert (∀ cl ads s1, searching (state_of c (view (after_sends i cl ads s1)))
                       = searching (state_of c (view s1))) as Hafter.
  { intros cl [|ad rest] s1; [reflexivity|]. rewrite after_sends_state.
    destruct (decide (c = cl)); reflexivity. }
  unfold resume. destruct (loops s !! i) as [[cl pos]|]; [|reflexivity].
  cbn [l_chat l_at]. destruct pos as [|ads todo| |]; [| |apply Htop|reflexivity].
  - rewrite Htop.
    change (searching (state_of c (search_loop_enter cl now (view s)))
            = searching (state_of c (view s))).
    destruct (search_loop_enter_spec cl now (view s)) as (_ & _ & Hother & _ & Hs).
    destruct (decide (c = cl)) as [->|N]; [exact Hs | rewrite Hother by exact N; reflexivity].
  - destruct todo as [|ad later]; [apply Hafter|].
    assert (state_of c (view (if ok then log cl ad s else s)) = state_of c (view s))
      as E by (destruct ok; reflexivity).
    destruct later; [rewrite Hafter, E; reflexivity | exact (f_equal searching E)].
Qed.

Lemma stays_stopped (c : Z) (xs : list occurrence) :
  ∀ s, forallb (fun x => negb (is_start c x)) xs = true →
    searching (state_of c (view s)) = false →
    searching (state_of c (view (proceed xs s))) = false.
Proof.
  induction xs as [|x xs IH]; intros s Hxs Hs; [exact Hs|].
  cbn [forallb] in Hxs. apply andb_prop in Hxs. destruct Hxs as [Hx Hxs].
  apply negb_true_iff in Hx.
  apply (IH (occur s x) Hxs).
  destruct x as [c' data now tg_ok|c'|c' txt|i now db ok].
  - change (searching (state_of c (on_callback c' data now tg_ok (view s))) = false).
    destruct (decide (c = c')) as [<-|N].
    + rewrite on_callback_state. cbn [is_start] in Hx.
      rewrite Z.eqb_refl in Hx. cbn [andb] in Hx.
      unfold callback_effect. rewrite Hx.
      destruct (String.eqb data "set_price"); [exact Hs|].
      destruct (String.eqb data "set_rooms"); [exact Hs|].
      destruct (String.eqb data "stop_search"); [|exact Hs].
      rewrite Hs. exact Hs.
    + destruct (on_callback_frame c' data now tg_ok (view s)) as (_ & Hne & _).
      rewrite Hne by exact N. exact Hs.
  - change (searching (state_of c (fst (cmd_start c' (view s)))) = false).
    destruct (cmd_start_spec c' (view s)) as (_ & _ & ->). exact Hs.
  - change (searching (state_of c (fst (on_message c' txt (view s)))) = false).
    destruct (decide (c = c')) as [<-|N].
    + rewrite on_message_state.
      destruct (message_effect_since txt (state_of c (view s))) as [-> _]. exact Hs.
    + destruct (on_message_frame c' txt (view s)) as (_ & _ & Hne).
      rewrite Hne by exact N. exact Hs.
  - cbn [occur]. rewrite resume_searching. exact Hs.
Qed.

(** *** The watermark and the deliveries *)

Section claims.

(** The store returns only rows observed after the watermark it is
    asked with. *)
Hypothesis store_newer :
  ∀ mn mx rs t limit (db : DB) ads,
    get_new_aparts mn mx rs (Some t) limit db = Ok ads →
    Forall (fun a => t < created_at a) ads.


(** C2, as the code has it.  Start, stop and start again, with
    anything in between (turns of any loops, callbacks and messages of
    anyone) except that the subscriber does not press start between
    the stop and the second start; and let the second start land when
    no pass of a loop of the subscriber is between its query and its
    assignment to [since].  Then the second start puts the watermark
    at its clock reading less one minute and the subscriber searches
    again; and, the store returning only rows observed after the
    watermark it is asked with, every notification the subscriber gets
    from then on and until it presses start once more, however the
    turns of its loops fall, is for a row observed after that new
    watermark.  Rows delivered before the stop and observed up to then
    are therefore not delivered again; of the later ones the theorem
    says nothing. *)
Theorem restart_resets_watermark (c t1 t2 t3 : Z) (tg1 tg2 tg3 : bool)
  (es1 es2 es3 : list occurrence) (s : system) :
  forallb (fun x => negb (is_start c x)) es2 = true →
  settled c
    (proceed (Press c "start_search" t1 tg1 :: es1
              ++ Press c "stop_search" t2 tg2 :: es2) s) = true →
  forallb (fun x => negb (is_start c x)) es3 = true →
  watermark c
    (view (proceed (Press c "start_search" t1 tg1 :: es1
                    ++ Press c "stop_search" t2 tg2 :: es2
                    ++ [Press c "start_search" t3 tg3]) s))
  = Some (t3 - one_minute)
  ∧ searching
      (state_of c
         (view (proceed (Press c "start_search" t1 tg1 :: es1
                         ++ Press c "stop_search" t2 tg2 :: es2
                         ++ [Press c "start_search" t3 tg3]) s)))
    = true
  ∧ ∀ x,
      In x (drop
              (length
                 (sent (proceed (Press c "start_search" t1 tg1 :: es1
                                 ++ Press c "stop_search" t2 tg2 :: es2
                                 ++ [Press c "start_search" t3 tg3]) s)))
              (sent (proceed ((Press c "start_search" t1 tg1 :: es1
                               ++ Press c "stop_search" t2 tg2 :: es2
                               ++ [Press c "start_search" t3 tg3]) ++ es3)
                             s))) →
      fst (fst x) = c → t3 - one_minute < created_at (snd (fst x)).
Proof.
  intros Hes2 Hset Hes3.
  rewrite (proceed_app _ es3).
  replace (Press c "start_search" t1 tg1 :: es1
           ++ Press c "stop_search" t2 tg2 :: es2
           ++ [Press c "start_search" t3 tg3])
    with ((Press c "start_search" t1 tg1 :: es1
           ++ Press c "stop_search" t2 tg2 :: es2)
          ++ [Press c "start_search" t3 tg3])
    by (cbn [app]; rewrite <- app_assoc; reflexivity).
  rewrite proceed_app.
  set (stopped := proceed (Press c "start_search" t1 tg1 :: es1
                           ++ Press c "stop_search" t2 tg2 :: es2) s) in *.
  assert (searching (state_of c (view stopped)) = false) as Hstop.
  { subst stopped.
    change (Press c "start_search" t1 tg1 :: es1
            ++ Press c "stop_search" t2 tg2 :: es2)
      with ((Press c "start_search" t1 tg1 :: es1)
            ++ [Press c "stop_search" t2 tg2] ++ es2).
    rewrite !proceed_app. apply stays_stopped; [exact Hes2|].
    cbn [proceed fold_left occur].
    apply (on_callback_stop c t2 tg2). }
  cbn [proceed fold_left occur].
  set (restarted := merge stopped (on_callback c "start_search" t3 tg3 (view stopped))).
  destruct (on_callback_start c t3 tg3 (view stopped) Hstop) as [Hs Hw].
  split; [exact Hw|]. split; [exact Hs|].
  assert (above c (t3 - one_minute) restarted) as Habove.
  { split; [exists (t3 - one_minute); split; [exact Hw | lia]|].
    intros j l Hj Hc.
    destruct (on_callback_frame c "start_search" t3 tg3 (view stopped))
      as (_ & _ & Ht).
    subst restarted. cbn [merge loops] in Hj. apply app_lookup in Hj.
    destruct Hj as [Hj|Hin].
    - pose proof (settled_lookup c stopped j l Hset Hj Hc) as Hf.
      destruct (l_at l); try exact I. discriminate.
    - apply in_map_iff in Hin. destruct Hin as (t & <- & _). exact I. }
  destruct (above_proceed store_newer c (t3 - one_minute) es3 restarted Hes3 Habove)
    as (_ & new & E & F).
  fold (proceed es3 restarted).
  rewrite E, drop_app_length. intros x Hx.
  rewrite List.Forall_forall in F. apply F, Hx.
Qed.


End claims.

(** *** A pass in one piece *)

Lemma update_users (c : Z) (f : UserState → UserState) (w w' : world) :
  user_states w = user_states w' →
  user_states (update_state c f w) = user_states (update_state c f w').
Proof.
  intros E. unfold update_state. rewrite E.
  destruct (get_state c (user_states w')). reflexivity.
Qed.

Lemma enter_users (c now : Z) (w w' : world) :
  user_states w = user_states w' →
  user_states (search_loop_enter c now w)
  = user_states (search_loop_enter c now w').
Proof.
  intros E. unfold search_loop_enter.
  pose proof (update_users c (fun st => st) w w' E) as E1.
  rewrite (state_of_users c _ _ E1).
  destruct (since _); [exact E1 | apply update_users, E1].
Qed.

(** The sends of a pass when nothing else gets a turn. *)
Lemma sends_in_one_piece (c : Z) (i : nat) (now : Z) (db : DB)
  (ok : nat → bool) (ad0 : apart) (rest0 : list apart) :
  ∀ todo k s,
    loops s !! i
    = Some {| l_chat := c; l_at := Sending (ad0 :: rest0) todo |} →
    todo ≠ [] →
    users (proceed (List.map (fun j => Resume i now db (ok j))
                             (seq k (length todo))) s)
    = user_states
        (update_state c
           (set_since (Some (max_of (created_at ad0)
                                    (List.map created_at rest0))))
           (view s))
    ∧ sent (proceed (List.map (fun j => Resume i now db (ok j))
                              (seq k (length todo))) s)
      = sent s ++ send_all c ok k todo.
Proof.
  induction todo as [|x later IH]; intros k s Hi Hne; [congruence|].
  cbn [length seq List.map send_all].
  change (proceed (Resume i now db (ok k)
                   :: List.map (fun j => Resume i now db (ok j))
                               (seq (S k) (length later))) s)
    with (proceed (List.map (fun j => Resume i now db (ok j))
                            (seq (S k) (length later)))
                  (resume i now db (ok k) s)).
  unfold resume. rewrite Hi. cbn [l_chat l_at].
  set (s1 := if ok k then log c x s else s).
  assert (users s1 = users s) as Eu by (subst s1; destruct (ok k); reflexivity).
  assert (loops s1 = loops s) as El by (subst s1; destruct (ok k); reflexivity).
  assert (sent s1
          = sent s ++ (if ok k
                       then [(c, x, message_text (a_price x) (a_rooms x)
                                                 (a_title x) (a_link x))]
                       else [])) as Es.
  { subst s1. destruct (ok k); [reflexivity | rewrite app_nil_r; reflexivity]. }
  destruct later as [|y later].
  - cbn [length seq List.map proceed fold_left send_all].
    rewrite after_sends_sent, Es, app_nil_r. split; [|reflexivity].
    cbn [after_sends place write users]. apply update_users. exact Eu.
  - destruct (IH (S k) (place i c (Sending (ad0 :: rest0) (y :: later)) s1))
      as [Hu Hs]; [|discriminate|].
    { eapply place_at. rewrite El. exact Hi. }
    split.
    + rewrite Hu. apply update_users. exact Eu.
    + rewrite Hs. cbn [place sent]. rewrite Es, <- app_assoc. reflexivity.
Qed.

(** When nothing else gets a turn between the steps of a pass, the
    steps leave the registry and the log as [wake] does: [wake] is the
    pass of a schedule in which the loop is resumed again and again
    until it sleeps. *)
Lemma pass_in_one_piece (i j : nat) (c now : Z) (db : DB) (ok : nat → bool)
  (fresh : bool) (s : system) (w : world) :
  loops s !! i
  = Some {| l_chat := c; l_at := if fresh then Created else Sleeping |} →
  tasks w !! j = Some {| t_chat := c; t_fresh := fresh |} →
  user_states w = users s → delivered w = sent s →
  users (proceed
           (pass_steps i now db ok
              (if searching
                    (state_of c (if fresh then search_loop_enter c now w else w))
               then match fetch c db
                            (if fresh then search_loop_enter c now w else w) with
                    | Ok ads => length ads
                    | Raise _ => 0%nat
                    end
               else 0%nat)) s)
  = user_states (wake j now db ok w)
  ∧ sent (proceed
            (pass_steps i now db ok
               (if searching
                     (state_of c (if fresh then search_loop_enter c now w else w))
                then match fetch c db
                             (if fresh then search_loop_enter c now w else w) with
                     | Ok ads => length ads
                     | Raise _ => 0%nat
                     end
                else 0%nat)) s)
    = delivered (wake j now db ok w).
Proof.
  intros Hi Hj Eu Es. unfold wake. rewrite Hj. cbn [t_chat t_fresh].
  set (w1 := if fresh then search_loop_enter c now w else w).
  set (s1 := if fresh then write (search_loop_enter c now (view s)) s else s).
  assert (users s1 = user_states w1) as Eu1.
  { subst s1 w1. destruct fresh; [|symmetry; exact Eu].
    cbn [write users]. apply enter_users. symmetry. exact Eu. }
  assert (sent s1 = delivered w1) as Es1.
  { subst s1 w1. destruct fresh; [|symmetry; exact Es].
    rewrite enter_sent.
    destruct (search_loop_enter_spec c now w) as (_ & -> & _).
    symmetry. exact Es. }
  assert (loops s1 = loops s) as El by (subst s1; destruct fresh; reflexivity).
  assert (state_of c (view s1) = state_of c w1) as Est
    by (apply state_of_users; exact Eu1).
  unfold pass_steps.
  assert (∀ n,
            proceed (Resume i now db true
                     :: List.map (fun k => Resume i now db (ok k)) (seq 0 n)) s
            = proceed (List.map (fun k => Resume i now db (ok k)) (seq 0 n))
                      (loop_top i c db s1)) as Estep.
  { intros n. cbn [proceed fold_left occur]. unfold resume. rewrite Hi.
    cbn [l_chat l_at]. subst s1. destruct fresh; reflexivity. }
  rewrite Estep. unfold loop_top. rewrite Est.
  destruct (searching (state_of c w1)); [|split; assumption].
  unfold search_iteration, fetch.
  destruct (get_new_aparts _ _ _ _ _ _) as [[|ad rest]|e];
    [split; assumption| |split; assumption].
  destruct (sends_in_one_piece c i now db ok ad rest (ad :: rest) 0
              (place i c (Sending (ad :: rest) (ad :: rest)) s1))
    as [Hu Hs]; [|discriminate|].
  { eapply place_at. rewrite El. exact Hi. }
  split.
  - rewrite Hu. cbn [user_states]. apply update_users. exact Eu1.
  - rewrite Hs. cbn [delivered]. rewrite delivered_update. cbn [delivered place sent].
    rewrite Es1. reflexivity.
Qed.

End steps.

End StepProofs.

(** ** The loop step by step, on sample runs *)

Module StepExamples.
Import Py Ext Bot Handlers Concrete Samples Steps.
Local Open Scope Z_scope.

#[local] Existing Instance lower_basic.
#[local] Existing Instance urljoin_origin.
#[local] Existing Instance five_minutes.
#[local] Existing Instance store_add.
#[local] Existing Instance store_query.



(** C2 at work: subscriber 7 starts at second 1000 and is served the
    listing observed at second 990; it stops at second 1010 and starts
    again at second 1020, while its loop sleeps.  The watermark is at
    second 960, and what the two loops deliver from then on was
    observed after second 960 (the listing of second 990 among it). *)
Lemma restart_resets_watermark_witness :
  settled 7
    (proceed (Press 7 "start_search" 1000000000 true :: one_loop_first_pass
              ++ Press 7 "stop_search" 1010000000 true :: []) boot) = true
  ∧ watermark 7
      (view (proceed (Press 7 "start_search" 1000000000 true
                      :: one_loop_first_pass
                      ++ Press 7 "stop_search" 1010000000 true :: []
                      ++ [Press 7 "start_search" 1020000000 true]) boot))
    = Some 960000000
  ∧ searching
      (state_of 7
         (view (proceed (Press 7 "start_search" 1000000000 true
                         :: one_loop_first_pass
                         ++ Press 7 "stop_search" 1010000000 true :: []
                         ++ [Press 7 "start_search" 1020000000 true]) boot)))
    = true
  ∧ List.map (fun e => a_id (snd (fst e)))
      (drop
         (length
            (sent (proceed (Press 7 "start_search" 1000000000 true
                            :: one_loop_first_pass
                            ++ Press 7 "stop_search" 1010000000 true :: []
                            ++ [Press 7 "start_search" 1020000000 true])
                           boot)))
         (sent (proceed ((Press 7 "start_search" 1000000000 true
                          :: one_loop_first_pass
                          ++ Press 7 "stop_search" 1010000000 true :: []
                          ++ [Press 7 "start_search" 1020000000 true])
                         ++ after_restart) boot)))
    = [101; 102]
  ∧ ∀ x,
      In x (drop
              (length
                 (sent (proceed (Press 7 "start_search" 1000000000 true
                                 :: one_loop_first_pass
                                 ++ Press 7 "stop_search" 1010000000 true :: []
                                 ++ [Press 7 "start_search" 1020000000 true])
                                boot)))
              (sent (proceed ((Press 7 "start_search" 1000000000 true
                               :: one_loop_first_pass
                               ++ Press 7 "stop_search" 1010000000 true :: []
                               ++ [Press 7 "start_search" 1020000000 true])
                              ++ after_restart) boot))) →
      fst (fst x) = 7 → 960000000 < created_at (snd (fst x)).
Proof.
  split; [vm_compute; reflexivity|].
  destruct (@StepProofs.restart_resets_watermark store store_query
              BotProofs.store_query_newer 7 1000000000 1010000000 1020000000
              true true true one_loop_first_pass [] after_restart boot
              eq_refl ltac:(vm_compute; reflexivity) eq_refl)
    as (Hw & Hs & Hnew).
  split; [exact Hw|]. split; [exact Hs|].
  split; [vm_compute; reflexivity | exact Hnew].
Defined.


End StepExamples.
